(** * Crossword CSP solver: a shallow embedding of [crossword/generate.py]

    The development embeds the methods of [CrosswordCreator] and proves
    properties of node consistency, arc consistency, the consistency check,
    the two search heuristics and the backtracking search.

    Conventions of the embedding.
    - A Python [set] is a list; the order of the list is the iteration order
      of the set.  Removing an element keeps the order of the others, and a
      set built by [add] is iterated in the order of insertion.  The general
      theorems are stated for lists in any order; the concrete evaluations
      fix one order, and what they show does not depend on it.
    - A Python [dict] is an association list in insertion order; assigning to
      an existing key keeps its position, assigning to a new key appends.
    - A Python exception is the outcome [Raise]; an exhausted recursion or
      loop budget of the model is the outcome [OutOfFuel].
    - [self.domains] is the mutable state of the propagation methods; the
      methods that only read it take it as an argument.
    - The assignments that [backtrack] copies and extends are objects in a
      store, so that a write through one name is seen through every other.
    - The class [Variable] of the source is the record [Var.t].
    - [crossword.py] is not among the sources; the puzzle structure is a
      record of what the solver uses of it. *)

From Stdlib Require Import List String Ascii Arith Bool Lia Permutation Sorted.
Import ListNotations.

Set Implicit Arguments.

(** ** Outcomes of a call *)

Inductive exn : Type := IndexError | KeyError | TypeError.

Inductive outcome (A : Type) : Type :=
| Ok (a : A)
| Raise (e : exn)
| OutOfFuel.

Arguments Ok {A} a.
Arguments Raise {A} e.
Arguments OutOfFuel {A}.

Definition obind {A B : Type} (m : outcome A) (k : A -> outcome B) : outcome B :=
  match m with
  | Ok a => k a
  | Raise e => Raise e
  | OutOfFuel => OutOfFuel
  end.

Declare Scope outcome_scope.
Delimit Scope outcome_scope with outcome.
Notation "x <- m ;; k" := (obind m (fun x => k))
  (at level 61, m at next level, right associativity) : outcome_scope.
Notation "' p <- m ;; k" := (obind m (fun x => let p := x in k))
  (at level 61, p pattern, m at next level, right associativity) : outcome_scope.
Open Scope outcome_scope.

(** ** Slots (the class [Variable] of [crossword.py]) *)

Inductive Direction : Type := ACROSS | DOWN.

Definition Direction_eqb (a b : Direction) : bool :=
  match a, b with
  | ACROSS, ACROSS | DOWN, DOWN => true
  | _, _ => false
  end.

Module Var.

(** Modelled from the spec: the class [Variable] is declared in
    [crossword.py], which is not part of the sources at hand.  A slot is
    identified by its row, column, direction and length. *)
Record t : Type := mk { i : nat; j : nat; direction : Direction; length : nat }.

(** Modelled from the spec: two slots are equal iff all four fields match. *)
Definition eqb (a b : t) : bool :=
  (i a =? i b) && (j a =? j b) && Direction_eqb (direction a) (direction b)
  && (length a =? length b).

End Var.

(** ** Python containers *)

Section Containers.

Context {K : Type} (keq : K -> K -> bool).

(** [x in s] *)
Fixpoint mem (x : K) (s : list K) : bool :=
  match s with
  | [] => false
  | y :: s' => keq x y || mem x s'
  end.

(** [s.add(x)] *)
Definition set_add (x : K) (s : list K) : list K :=
  if mem x s then s else s ++ [x].

(** [set(l)] *)
Definition set_of (l : list K) : list K :=
  fold_left (fun s x => set_add x s) l [].

(** [s.remove(x)] for a member [x] of [s]. *)
Fixpoint set_remove (x : K) (s : list K) : list K :=
  match s with
  | [] => []
  | y :: s' => if keq x y then set_remove x s' else y :: set_remove x s'
  end.

(** [a == b] on sets. *)
Definition set_eqb (a b : list K) : bool :=
  forallb (fun x => mem x b) a && forallb (fun x => mem x a) b.

Context {V : Type}.

(** [d.get(k)] *)
Fixpoint dict_get (d : list (K * V)) (k : K) : option V :=
  match d with
  | [] => None
  | (k', v) :: d' => if keq k k' then Some v else dict_get d' k
  end.

(** [d[k]] *)
Definition dict_getitem (d : list (K * V)) (k : K) : outcome V :=
  match dict_get d k with
  | Some v => Ok v
  | None => Raise KeyError
  end.

(** [d[k] = v] *)
Fixpoint dict_set (d : list (K * V)) (k : K) (v : V) : list (K * V) :=
  match d with
  | [] => [(k, v)]
  | (k', v') :: d' =>
      if keq k k' then (k', v) :: d' else (k', v') :: dict_set d' k v
  end.

Definition keys (d : list (K * V)) : list K := map fst d.
Definition values (d : list (K * V)) : list V := map snd d.

End Containers.

(** [sorted(l, key=...)] and [sorted(l, key=..., reverse=True)]: Python's
    sort is stable in both directions, so the result is the one of a stable
    insertion sort; [le] is [Nat.leb] for the ascending order and its
    converse for [reverse=True]. *)
Section Sorted.

Context {A : Type} (le : nat -> nat -> bool) (key : A -> nat).

Fixpoint insert_by (x : A) (l : list A) : list A :=
  match l with
  | [] => [x]
  | y :: l' => if le (key x) (key y) then x :: y :: l' else y :: insert_by x l'
  end.

Definition sorted_by (l : list A) : list A := fold_right insert_by [] l.

End Sorted.

Definition geb (a b : nat) : bool := b <=? a.

(** [w[k]] on a string. *)
Definition index (w : string) (k : nat) : outcome ascii :=
  match String.get k w with
  | Some c => Ok c
  | None => Raise IndexError
  end.

(** [o is not None]; it is also the truth value of an overlap entry, since a
    pair is always true. *)
Definition is_not_None {A : Type} (o : option A) : bool :=
  match o with
  | Some _ => true
  | None => false
  end.

(** ** The puzzle structure (the class [Crossword] of [crossword.py]) *)

(** Modelled from the spec: the class [Crossword] is declared in
    [crossword.py], which is not part of the sources at hand.  Its fields are
    the set of slots, the word list and the overlap table, which maps a pair
    of slots to the pair (index in the first, index in the second) of the
    crossing, or to [None] when they do not cross.  The table is a total
    function here: a lookup cannot fail. *)
Record Crossword : Type := mkCrossword {
  variables : list Var.t;
  words : list string;
  overlaps : Var.t -> Var.t -> option (nat * nat)
}.

(** Modelled from the spec: the neighbor query of [crossword.py] returns all
    slots of the puzzle that overlap the given slot. *)
Definition neighbors (cw : Crossword) (var : Var.t) : list Var.t :=
  filter (fun v => negb (Var.eqb v var) && is_not_None (overlaps cw v var))
         (variables cw).

(** An assignment maps slots to words. *)
Definition assignment : Type := list (Var.t * string).

(** [self.domains] maps every slot to its set of candidate words. *)
Definition domains : Type := list (Var.t * list string).

(** [CrosswordCreator.__init__] *)
Definition init_domains (cw : Crossword) : domains :=
  fold_left (fun d var => dict_set Var.eqb d var (words cw)) (variables cw) [].

(** ** Stateful code *)

(** A computation over a mutable state [S] that returns, raises or runs out
    of fuel.  An exception leaves the mutations made so far in place. *)
Definition ST (S A : Type) : Type := S -> outcome A * S.

Definition ret {S A : Type} (a : A) : ST S A := fun s => (Ok a, s).

Definition bind {S A B : Type} (m : ST S A) (k : A -> ST S B) : ST S B :=
  fun s =>
    match m s with
    | (Ok a, s') => k a s'
    | (Raise e, s') => (Raise e, s')
    | (OutOfFuel, s') => (OutOfFuel, s')
    end.

(** A step that only reads the state. *)
Definition reads {S A : Type} (f : S -> outcome A) : ST S A :=
  fun s => (f s, s).

(** A step that only writes the state. *)
Definition modify {S : Type} (f : S -> S) : ST S unit :=
  fun s => (Ok tt, f s).

Declare Scope ST_scope.
Delimit Scope ST_scope with ST.
Notation "x <~ m ;; k" := (bind m (fun x => k))
  (at level 61, m at next level, right associativity) : ST_scope.

(** The methods that touch nothing but [self.domains]. *)
Definition M (A : Type) : Type := ST domains A.

(** [for x in words2remove: s.remove(x)] *)
Definition remove_all (words2remove s : list string) : list string :=
  fold_left (fun s x => set_remove String.eqb x s) words2remove s.

(** ** [enforce_node_consistency] *)

Definition node_words2remove (variable : Var.t) (ws : list string) : list string :=
  fold_left
    (fun words2remove word =>
       if negb (String.length word =? Var.length variable)
       then set_add String.eqb word words2remove
       else words2remove)
    ws [].

Definition enforce_node_consistency : M unit :=
  fun d =>
    (Ok tt,
     map (fun '(variable, ws) =>
            (variable, remove_all (node_words2remove variable ws) ws)) d).

(** ** [revise] *)

(** [for wordY in self.domains[y]: charY.append(wordY[oj])] *)
Fixpoint chars_at (dy : list string) (oj : nat) : outcome (list ascii) :=
  match dy with
  | [] => Ok []
  | wordY :: rest =>
      c <- index wordY oj ;;
      charY <- chars_at rest oj ;;
      Ok (c :: charY)
  end.

(** The scan of [self.domains[x]] that collects [words2remove]. *)
Fixpoint revise_scan (d : domains) (y : Var.t) (oi oj : nat)
    (dx words2remove : list string) : outcome (list string) :=
  match dx with
  | [] => Ok words2remove
  | wordX :: rest =>
      overlapping_char <- index wordX oi ;;
      dy <- dict_getitem Var.eqb d y ;;
      charY <- chars_at dy oj ;;
      if negb (mem Ascii.eqb overlapping_char charY)
      then revise_scan d y oi oj rest (set_add String.eqb wordX words2remove)
      else revise_scan d y oi oj rest words2remove
  end.

(** The method has no [return] statement: the local [revised] stays [False],
    the scan assigns [True] to another local, [revise], and the call
    evaluates to Python's [None] (here [None : option bool]). *)
Definition revise (cw : Crossword) (x y : Var.t) : M (option bool) :=
  fun d =>
    match overlaps cw x y with
    | Some (oi, oj) =>
        match (dx <- dict_getitem Var.eqb d x ;;
               words2remove <- revise_scan d y oi oj dx [] ;;
               Ok (dx, words2remove)) with
        | Ok (dx, words2remove) =>
            (Ok None, dict_set Var.eqb d x (remove_all words2remove dx))
        | Raise e => (Raise e, d)
        | OutOfFuel => (OutOfFuel, d)
        end
    | None => (Ok None, d)
    end.

(** The truth value of what [revise] returns. *)
Definition truthy (r : option bool) : bool :=
  match r with
  | Some true => true
  | _ => false
  end.

(** ** [ac3] *)

Definition initial_arcs (cw : Crossword) : list (Var.t * Var.t) :=
  flat_map
    (fun v1 =>
       flat_map
         (fun v2 =>
            if negb (Var.eqb v1 v2) && is_not_None (overlaps cw v1 v2)
            then [(v1, v2)] else [])
         (variables cw))
    (variables cw).

(** The [while queue] loop; [fuel] bounds the number of iterations. *)
Fixpoint ac3_loop (cw : Crossword) (fuel : nat) (queue : list (Var.t * Var.t))
    : M bool :=
  match queue with
  | [] => ret true
  | (x, y) :: queue' =>
      match fuel with
      | 0 => fun d => (OutOfFuel, d)
      | S fuel' =>
          (r <~ revise cw x y ;;
           if truthy r then
             dx <~ reads (fun d => dict_getitem Var.eqb d x) ;;
             match dx with
             | [] => ret false
             | _ :: _ =>
                 ac3_loop cw fuel'
                   (queue' ++
                    map (fun neighbor => (neighbor, x))
                        (filter (fun neighbor => negb (Var.eqb neighbor y))
                                (neighbors cw x)))
             end
           else ac3_loop cw fuel' queue')%ST
      end
  end.

Definition ac3 (cw : Crossword) (arcs : option (list (Var.t * Var.t)))
    (fuel : nat) : M bool :=
  let queue :=
    match arcs with
    | None => initial_arcs cw
    | Some arcs => arcs
    end in
  ac3_loop cw fuel queue.

(** ** [assignment_complete] *)

Definition assignment_complete (cw : Crossword) (a : assignment) : bool :=
  set_eqb Var.eqb (set_of Var.eqb (keys a)) (variables cw)
  && forallb (fun w => negb (String.eqb w "")) (values a).

(** ** [consistent] *)

(** The loop over [self.crossword.neighbors(v)]; [Ok true] when it finishes
    without [return False]. *)
Fixpoint consistent_neighbors (cw : Crossword) (a : assignment) (v : Var.t)
    (ns : list Var.t) : outcome bool :=
  match ns with
  | [] => Ok true
  | neighbor :: rest =>
      if mem Var.eqb neighbor (keys a) then
        match overlaps cw v neighbor with
        | Some (o0, o1) =>
            wv <- dict_getitem Var.eqb a v ;;
            cv <- index wv o0 ;;
            wn <- dict_getitem Var.eqb a neighbor ;;
            cn <- index wn o1 ;;
            if negb (Ascii.eqb cv cn) then Ok false
            else consistent_neighbors cw a v rest
        | None =>
            _ <- dict_getitem Var.eqb a v ;;
            Raise TypeError
        end
      else consistent_neighbors cw a v rest
  end.

(** The loop [for v in assignment]. *)
Fixpoint consistent_loop (cw : Crossword) (a : assignment) (vs : list Var.t)
    : outcome bool :=
  match vs with
  | [] => Ok true
  | v :: rest =>
      wv <- dict_getitem Var.eqb a v ;;
      if negb (String.length wv =? Var.length v) then Ok false
      else
        ok <- consistent_neighbors cw a v (neighbors cw v) ;;
        if ok then consistent_loop cw a rest else Ok false
  end.

Definition consistent (cw : Crossword) (a : assignment) : outcome bool :=
  if negb (List.length (set_of String.eqb (values a))
           =? List.length (set_of Var.eqb (keys a)))
  then Ok false
  else consistent_loop cw a (keys a).

(** ** [order_domain_values] *)

(** [for wordN in self.domains[neighbor]: if wordV[i] != wordN[j]: ... += 1];
    the result is the number of increments. *)
Fixpoint count_conflicts (wordV : string) (i j : nat) (dn : list string)
    : outcome nat :=
  match dn with
  | [] => Ok 0
  | wordN :: rest =>
      cv <- index wordV i ;;
      cn <- index wordN j ;;
      k <- count_conflicts wordV i j rest ;;
      Ok ((if negb (Ascii.eqb cv cn) then 1 else 0) + k)
  end.

(** The loop over [self.crossword.neighbors(var)] for one [wordV]; the
    result is the number of increments of [num_eliminated[wordV]]. *)
Fixpoint eliminated (cw : Crossword) (d : domains) (a : assignment)
    (var : Var.t) (wordV : string) (ns : list Var.t) : outcome nat :=
  match ns with
  | [] => Ok 0
  | neighbor :: rest =>
      if negb (mem Var.eqb neighbor (keys a)) then
        match overlaps cw var neighbor with
        | Some (i, j) =>
            dn <- dict_getitem Var.eqb d neighbor ;;
            k <- count_conflicts wordV i j dn ;;
            k' <- eliminated cw d a var wordV rest ;;
            Ok (k + k')
        | None => Raise TypeError
        end
      else eliminated cw d a var wordV rest
  end.

(** The loop [for wordV in self.domains[var]]. *)
Fixpoint lcv_loop (cw : Crossword) (d : domains) (a : assignment)
    (var : Var.t) (dv : list string) (num_eliminated : list (string * nat))
    : outcome (list (string * nat)) :=
  match dv with
  | [] => Ok num_eliminated
  | wordV :: rest =>
      k <- eliminated cw d a var wordV (neighbors cw var) ;;
      n <- dict_getitem String.eqb num_eliminated wordV ;;
      lcv_loop cw d a var rest (dict_set String.eqb num_eliminated wordV (n + k))
  end.

Definition order_domain_values (cw : Crossword) (d : domains) (var : Var.t)
    (a : assignment) : outcome (list string) :=
  dv <- dict_getitem Var.eqb d var ;;
  let num_eliminated :=
    fold_left (fun ne word => dict_set String.eqb ne word 0) dv [] in
  num_eliminated <- lcv_loop cw d a var dv num_eliminated ;;
  Ok (map fst (sorted_by Nat.leb snd num_eliminated)).

(** ** [select_unassigned_variable] *)

Definition unassigned (cw : Crossword) (a : assignment) : list Var.t :=
  fold_left
    (fun unassigned_variables v =>
       if negb (mem Var.eqb v (keys a))
       then set_add Var.eqb v unassigned_variables
       else unassigned_variables)
    (variables cw) [].

(** [for v in unassigned_variables: num_remaining_values[v] = len(self.domains[v])] *)
Fixpoint remaining_values (d : domains) (vs : list Var.t)
    (num_remaining_values : list (Var.t * nat)) : outcome (list (Var.t * nat)) :=
  match vs with
  | [] => Ok num_remaining_values
  | v :: rest =>
      dv <- dict_getitem Var.eqb d v ;;
      remaining_values d rest
        (dict_set Var.eqb num_remaining_values v (List.length dv))
  end.

Definition degrees (cw : Crossword) (vs : list Var.t) : list (Var.t * nat) :=
  fold_left
    (fun num_degrees v =>
       dict_set Var.eqb num_degrees v (List.length (neighbors cw v)))
    vs [].

Definition select_unassigned_variable (cw : Crossword) (d : domains)
    (a : assignment) : outcome Var.t :=
  let unassigned_variables := unassigned cw a in
  num_remaining_values <- remaining_values d unassigned_variables [] ;;
  match sorted_by Nat.leb snd num_remaining_values with
  | [] => Raise IndexError
  | [(v, _)] => Ok v
  | (v0, n0) :: (_, n1) :: _ =>
      if negb (n0 =? n1) then Ok v0
      else
        match sorted_by geb snd (degrees cw unassigned_variables) with
        | (v, _) :: _ => Ok v
        | [] => Raise IndexError
        end
  end.

(** ** [backtrack] and [solve] *)

(** Assignments are [dict] objects that [backtrack] copies, extends and
    passes on; they live in a store and are named by their position in it.
    [nodes] counts the calls of [backtrack] (the search nodes); it is not a
    variable of the program. *)
Record state : Type := mkState {
  self_domains : domains;
  heap : list assignment;
  nodes : nat
}.

Definition ref : Type := nat.

Definition deref (s : state) (r : ref) : assignment := nth r (heap s) [].

(** Replace the object at position [r]. *)
Fixpoint heap_update (h : list assignment) (r : ref) (a : assignment)
    : list assignment :=
  match h, r with
  | [], _ => []
  | _ :: h', 0 => a :: h'
  | b :: h', S r' => b :: heap_update h' r' a
  end.

Definition alloc (a : assignment) : ST state ref :=
  fun s =>
    (Ok (List.length (heap s)),
     mkState (self_domains s) (heap s ++ [a]) (nodes s)).

(** [dict()] *)
Definition new_dict : ST state ref := alloc [].

(** [assignment.copy()] *)
Definition copy (r : ref) : ST state ref := fun s => alloc (deref s r) s.

(** [assignment[var] = value] *)
Definition setitem (r : ref) (var : Var.t) (value : string) : ST state unit :=
  modify (fun s =>
    mkState (self_domains s)
            (heap_update (heap s) r (dict_set Var.eqb (deref s r) var value))
            (nodes s)).

Definition tick : ST state unit :=
  modify (fun s => mkState (self_domains s) (heap s) (S (nodes s))).

(** Run a method of [self.domains] inside the whole state. *)
Definition on_domains {A : Type} (m : M A) : ST state A :=
  fun s =>
    let (r, d) := m (self_domains s) in
    (r, mkState d (heap s) (nodes s)).

(** The read-only methods, called on an assignment object of the store. *)
Definition assignment_complete_m (cw : Crossword) (assignment : ref)
    : ST state bool :=
  reads (fun s => Ok (assignment_complete cw (deref s assignment))).

Definition consistent_m (cw : Crossword) (assignment : ref) : ST state bool :=
  reads (fun s => consistent cw (deref s assignment)).

Definition order_domain_values_m (cw : Crossword) (var : Var.t)
    (assignment : ref) : ST state (list string) :=
  reads (fun s =>
           order_domain_values cw (self_domains s) var (deref s assignment)).

Definition select_unassigned_variable_m (cw : Crossword) (assignment : ref)
    : ST state Var.t :=
  reads (fun s =>
           select_unassigned_variable cw (self_domains s) (deref s assignment)).

(** The loop [for value in self.order_domain_values(var, assignment)];
    [rec] is the recursive call of [backtrack]. *)
Fixpoint backtrack_values (cw : Crossword) (rec : ref -> ST state (option ref))
    (assignment : ref) (var : Var.t) (vals : list string)
    : ST state (option ref) :=
  match vals with
  | [] => ret None
  | value :: rest =>
      (new_assignment <~ copy assignment ;;
       _ <~ setitem new_assignment var value ;;
       c <~ consistent_m cw new_assignment ;;
       if c then
         result <~ rec new_assignment ;;
         match result with
         | Some r => ret (Some r)
         | None => backtrack_values cw rec assignment var rest
         end
       else backtrack_values cw rec assignment var rest)%ST
  end.

(** [fuel] bounds the depth of the recursion. *)
Fixpoint backtrack (cw : Crossword) (fuel : nat) (assignment : ref)
    : ST state (option ref) :=
  match fuel with
  | 0 => fun s => (OutOfFuel, s)
  | S fuel' =>
      (_ <~ tick ;;
       complete <~ assignment_complete_m cw assignment ;;
       if complete then ret (Some assignment)
       else
         var <~ select_unassigned_variable_m cw assignment ;;
         vals <~ order_domain_values_m cw var assignment ;;
         backtrack_values cw (backtrack cw fuel') assignment var vals)%ST
  end.

(** [solve] discards what [ac3] returns. *)
Definition solve (cw : Crossword) (fuel : nat) : ST state (option ref) :=
  (_ <~ on_domains enforce_node_consistency ;;
   _ <~ on_domains (ac3 cw None fuel) ;;
   empty <~ new_dict ;;
   backtrack cw fuel empty)%ST.

(** [CrosswordCreator(crossword)]: the state after [__init__]. *)
Definition init_state (cw : Crossword) : state :=
  mkState (init_domains cw) [] 0.

(** [CrosswordCreator(crossword).solve()]: the returned assignment, by value. *)
Definition run_solve (cw : Crossword) (fuel : nat) : outcome (option assignment) :=
  let (r, s) := solve cw fuel (init_state cw) in
  x <- r ;; Ok (option_map (deref s) x).

(** *** The function computed by [backtrack]

    [backtrack] never writes to an assignment that it did not create, so what
    it returns is a function of the contents of its argument; this function
    is [backtrack_fun], and [backtrack_refines] below relates the two. *)

Fixpoint backtrack_values_fun (cw : Crossword)
    (rec : assignment -> outcome (option assignment))
    (a : assignment) (var : Var.t) (vals : list string)
    : outcome (option assignment) :=
  match vals with
  | [] => Ok None
  | value :: rest =>
      let new_assignment := dict_set Var.eqb a var value in
      c <- consistent cw new_assignment ;;
      if c then
        result <- rec new_assignment ;;
        match result with
        | Some r => Ok (Some r)
        | None => backtrack_values_fun cw rec a var rest
        end
      else backtrack_values_fun cw rec a var rest
  end.

Fixpoint backtrack_fun (cw : Crossword) (d : domains) (fuel : nat)
    (a : assignment) : outcome (option assignment) :=
  match fuel with
  | 0 => OutOfFuel
  | S fuel' =>
      if assignment_complete cw a then Ok (Some a)
      else
        var <- select_unassigned_variable cw d a ;;
        vals <- order_domain_values cw d var a ;;
        backtrack_values_fun cw (backtrack_fun cw d fuel') a var vals
  end.

(** ** Example puzzles *)

Module Examples.

Open Scope string_scope.

(** Two slots of length 3 crossing at index 1 of each. *)
Definition across3 : Var.t := Var.mk 1 0 ACROSS 3.
Definition down3 : Var.t := Var.mk 0 1 DOWN 3.

Definition plus_overlaps (x y : Var.t) : option (nat * nat) :=
  if Var.eqb x across3 && Var.eqb y down3 then Some (1, 1)
  else if Var.eqb x down3 && Var.eqb y across3 then Some (1, 1)
  else None.

Definition plus (ws : list string) : Crossword :=
  mkCrossword [across3; down3] ws plus_overlaps.

(** An across slot in row 1 and a down slot in column 0: the first cell of
    the across slot is the second cell of the down slot. *)
Definition acrossT : Var.t := Var.mk 1 0 ACROSS 3.
Definition downT : Var.t := Var.mk 0 0 DOWN 3.

Definition tee_overlaps (x y : Var.t) : option (nat * nat) :=
  if Var.eqb x acrossT && Var.eqb y downT then Some (0, 1)
  else if Var.eqb x downT && Var.eqb y acrossT then Some (1, 0)
  else None.

Definition tee (ws : list string) : Crossword :=
  mkCrossword [acrossT; downT] ws tee_overlaps.

(** Two across slots in rows 0 and 2 joined by a down slot in column 1. *)
Definition top : Var.t := Var.mk 0 0 ACROSS 3.
Definition bottom : Var.t := Var.mk 2 0 ACROSS 3.
Definition middle : Var.t := Var.mk 0 1 DOWN 3.

Definition aitch_overlaps (x y : Var.t) : option (nat * nat) :=
  if Var.eqb x top && Var.eqb y middle then Some (1, 0)
  else if Var.eqb x middle && Var.eqb y top then Some (0, 1)
  else if Var.eqb x bottom && Var.eqb y middle then Some (1, 2)
  else if Var.eqb x middle && Var.eqb y bottom then Some (2, 1)
  else None.

Definition aitch (ws : list string) : Crossword :=
  mkCrossword [top; bottom; middle] ws aitch_overlaps.

(** The puzzles of the examples below. *)
Definition cat_car_art : Crossword := plus ["cat"; "car"; "art"].
Definition door : Crossword := plus ["door"].

(** A state of the search on [cat_car_art]: the domains are the propagated
    ones and the store holds one assignment, which binds the across slot. *)
Definition one_bound : state :=
  mkState [(across3, ["cat"; "car"; "art"]); (down3, ["cat"; "car"; "art"])]
          [[(across3, "cat")]] 1.
Definition cat_dog : Crossword := tee ["cat"; "dog"].
Definition cat_dog_act : Crossword := tee ["cat"; "dog"; "act"].
Definition tied : Crossword := aitch ["axb"; "ayb"; "cad"; "ebf"].

End Examples.

(** ** Properties of puzzles, domains and assignments *)

(** Modelled from the spec: the invariants of the puzzle structure built by
    [crossword.py].  The slots form a set; the overlap table is keyed by
    unordered pairs, so the entry of (y, x) is the entry of (x, y) swapped;
    overlap indices are valid positions within each slot's length. *)
Record wf_crossword (cw : Crossword) : Prop := mk_wf {
  wf_variables : NoDup (variables cw);
  wf_words : NoDup (words cw);
  wf_symmetric : forall x y i j,
      In x (variables cw) -> In y (variables cw) ->
      overlaps cw x y = Some (i, j) -> overlaps cw y x = Some (j, i);
  wf_indices : forall x y i j,
      In x (variables cw) -> In y (variables cw) ->
      overlaps cw x y = Some (i, j) -> i < Var.length x /\ j < Var.length y
}.

(** Domain(v): the words of [self.domains[v]]. *)
Definition domain_of (d : domains) (v : Var.t) : list string :=
  match dict_get Var.eqb d v with
  | Some ws => ws
  | None => []
  end.

(** [self.domains] is a dict of sets that has a key for every slot. *)
Record wf_domains (cw : Crossword) (d : domains) : Prop := mk_wf_domains {
  wf_keys : keys d = variables cw;
  wf_sets : forall v, NoDup (domain_of d v)
}.

(** Every word of every domain has the length of its slot. *)
Definition node_consistent (d : domains) : Prop :=
  forall v w, In w (domain_of d v) -> String.length w = Var.length v.

(** [w] at index [i] and [w'] at index [j] hold the same character. *)
Definition agree (w : string) (i : nat) (w' : string) (j : nat) : Prop :=
  exists c, String.get i w = Some c /\ String.get j w' = Some c.

(** Every word of Domain(x) has a partner in Domain(y), for every ordered
    pair of distinct overlapping slots. *)
Definition arc_consistent (cw : Crossword) (d : domains) : Prop :=
  forall x y i j w,
    In x (variables cw) -> In y (variables cw) -> x <> y ->
    overlaps cw x y = Some (i, j) ->
    In w (domain_of d x) ->
    exists w', In w' (domain_of d y) /\ agree w i w' j.

(** The domains of [d'] have the keys of [d] and are subsets of them. *)
Definition shrinks (d d' : domains) : Prop :=
  keys d' = keys d /\ forall v, incl (domain_of d' v) (domain_of d v).

(** The three constraints on the slots bound by [a]. *)
Definition distinct_words (a : assignment) : Prop := NoDup (values a).

Definition lengths_fit (a : assignment) : Prop :=
  forall v w, dict_get Var.eqb a v = Some w -> String.length w = Var.length v.

Definition neighbors_agree (cw : Crossword) (a : assignment) : Prop :=
  forall v n wv wn,
    dict_get Var.eqb a v = Some wv -> dict_get Var.eqb a n = Some wn ->
    In n (neighbors cw v) ->
    exists i j, overlaps cw v n = Some (i, j) /\ agree wv i wn j.

Definition overlaps_agree (cw : Crossword) (a : assignment) : Prop :=
  forall v n wv wn i j,
    dict_get Var.eqb a v = Some wv -> dict_get Var.eqb a n = Some wn ->
    v <> n -> overlaps cw v n = Some (i, j) ->
    agree wv i wn j.

(** [a] binds exactly the slots of the puzzle, each once. *)
Definition assigns_every_slot (cw : Crossword) (a : assignment) : Prop :=
  NoDup (keys a) /\ forall v, In v (keys a) <-> In v (variables cw).

Definition valid_solution (cw : Crossword) (a : assignment) : Prop :=
  assigns_every_slot cw a /\ distinct_words a /\ lengths_fit a
  /\ overlaps_agree cw a.

(** The least-constraining-value count of the spec: the number of pairs
    (unassigned neighbor [n], word [w'] of Domain([n])) whose character at
    the overlap differs from the one of [w]. *)
Definition disagree (w : string) (i : nat) (w' : string) (j : nat) : bool :=
  match String.get i w, String.get j w' with
  | Some c, Some c' => negb (Ascii.eqb c c')
  | _, _ => false
  end.

Definition lcv_count (cw : Crossword) (d : domains) (a : assignment)
    (var : Var.t) (w : string) : nat :=
  list_sum
    (map (fun n =>
            match overlaps cw var n with
            | Some (i, j) =>
                List.length (filter (fun w' => disagree w i w' j) (domain_of d n))
            | None => 0
            end)
         (filter (fun n => negb (mem Var.eqb n (keys a))) (neighbors cw var))).

(** Outcome of a call that returns an assignment by reference, by value. *)
Definition by_value (s : state) (r : outcome (option ref))
    : outcome (option assignment) :=
  x <- r ;; Ok (option_map (deref s) x).

(** Some word of [dy] holds at index [oj] the character of [w] at [oi]. *)
Definition has_partner (w : string) (oi : nat) (dy : list string) (oj : nat)
    : bool :=
  existsb (fun w' => negb (disagree w oi w' oj)
                     && is_not_None (String.get oi w)
                     && is_not_None (String.get oj w')) dy.

(** [s'] is [s] after a run that wrote to no assignment of [s]: the store
    has only grown and [self.domains] is the same. *)
Definition extends (s s' : state) : Prop :=
  self_domains s' = self_domains s
  /\ (exists fresh, heap s' = heap s ++ fresh)
  /\ nodes s <= nodes s'.

(** [self.domains] after [__init__] and [enforce_node_consistency]. *)
Definition node_consistent_domains (cw : Crossword) : domains :=
  snd (enforce_node_consistency (init_domains cw)).

(** [self.domains] when [solve] calls [backtrack]. *)
Definition propagated (cw : Crossword) (fuel : nat) : domains :=
  snd (ac3 cw None fuel (snd (enforce_node_consistency (init_domains cw)))).

(** What [backtrack] assumes of the assignment it extends: it binds slots of
    the puzzle, each once, to words of their domains. *)
Definition from_domains (cw : Crossword) (d : domains) (a : assignment) : Prop :=
  NoDup (keys a) /\ incl (keys a) (variables cw)
  /\ forall v w, dict_get Var.eqb a v = Some w -> In w (domain_of d v).

(** The truth value of the outcome of [revise]; an exception is no value. *)
Definition truthy_outcome (r : outcome (option bool)) : bool :=
  match r with
  | Ok b => truthy b
  | _ => false
  end.

(** [r] binds every slot that [a] binds, to the same word. *)
Definition sub_assignment (a r : assignment) : Prop :=
  forall v w, dict_get Var.eqb a v = Some w -> dict_get Var.eqb r v = Some w.

(** [r] binds exactly the slots of the puzzle, each to a word of its domain
    in [d], and [consistent] accepts it. *)
Definition solution_over (cw : Crossword) (d : domains) (r : assignment) : Prop :=
  NoDup (keys r)
  /\ (forall v, In v (keys r) <-> In v (variables cw))
  /\ (forall v w, dict_get Var.eqb r v = Some w -> In w (domain_of d v))
  /\ consistent cw r = Ok true.

(** Number of words in Domain(v) and number of neighbors of [v]. *)
Definition domain_size (d : domains) (v : Var.t) : nat :=
  List.length (domain_of d v).

Definition degree (cw : Crossword) (v : Var.t) : nat :=
  List.length (neighbors cw v).

(** ** [letter_grid] *)

(** The 2D array [letters]: rows of cells, a cell holding [None] or a
    character. *)
Definition grid : Type := list (list (option ascii)).

(** [l[k] = x] on a list; [None] when [k] is out of range. *)
Fixpoint list_set {A : Type} (l : list A) (k : nat) (x : A) : option (list A) :=
  match l, k with
  | [], _ => None
  | _ :: l', 0 => Some (x :: l')
  | y :: l', S k' =>
      match list_set l' k' x with
      | Some l'' => Some (y :: l'')
      | None => None
      end
  end.

(** [letters[i][j] = c] *)
Definition set_cell (letters : grid) (i j : nat) (c : ascii) : outcome grid :=
  match nth_error letters i with
  | None => Raise IndexError
  | Some row =>
      match list_set row j (Some c) with
      | None => Raise IndexError
      | Some row' =>
          match list_set letters i row' with
          | Some letters' => Ok letters'
          | None => Raise IndexError
          end
      end
  end.

(** The loop [for k in range(len(word))], from index [k] on; [word] is what
    is left of the word from that index. *)
Fixpoint letter_word (variable : Var.t) (word : string) (k : nat)
    (letters : grid) : outcome grid :=
  match word with
  | EmptyString => Ok letters
  | String c rest =>
      let i := Var.i variable
               + (if Direction_eqb (Var.direction variable) DOWN then k else 0) in
      let j := Var.j variable
               + (if Direction_eqb (Var.direction variable) ACROSS then k else 0) in
      letters' <- set_cell letters i j c ;;
      letter_word variable rest (S k) letters'
  end.

(** The loop [for variable, word in assignment.items()]. *)
Fixpoint letter_items (items : assignment) (letters : grid) : outcome grid :=
  match items with
  | [] => Ok letters
  | (variable, word) :: rest =>
      letters' <- letter_word variable word 0 letters ;;
      letter_items rest letters'
  end.

(** Modelled from the spec: the dimensions [width] and [height] are fields
    of the puzzle structure of [crossword.py]; they are arguments here. *)
Definition letter_grid (width height : nat) (a : assignment) : outcome grid :=
  letter_items a (repeat (repeat None width) height).

(** The cell of the [k]-th letter of a slot. *)
Definition cell_of (variable : Var.t) (k : nat) : nat * nat :=
  (Var.i variable + (if Direction_eqb (Var.direction variable) DOWN then k else 0),
   Var.j variable + (if Direction_eqb (Var.direction variable) ACROSS then k else 0)).

(** [letters[i][j]], [None] when out of range. *)
Definition cell (letters : grid) (ij : nat * nat) : option (option ascii) :=
  match nth_error letters (fst ij) with
  | Some row => nth_error row (snd ij)
  | None => None
  end.

(** A word of a slot lies inside a grid of the given dimensions. *)
Definition fits (width height : nat) (variable : Var.t) (word : string) : Prop :=
  forall k, k < String.length word ->
    fst (cell_of variable k) < height /\ snd (cell_of variable k) < width.

(** A grid of [height] rows of [width] cells. *)
Definition grid_shape (width height : nat) (letters : grid) : Prop :=
  List.length letters = height
  /\ Forall (fun row => List.length row = width) letters.

(** Any two bindings of [a] hold the same letter at every cell they share. *)
Definition letters_compatible (a : assignment) : Prop :=
  forall v w n w' i j c c',
    In (v, w) a -> In (n, w') a -> cell_of v i = cell_of n j ->
    String.get i w = Some c -> String.get j w' = Some c' -> c = c'.

(** Two distinct unbound slots both have the smallest domain. *)
Definition smallest_domain_tie (cw : Crossword) (d : domains) (a : assignment)
    : Prop :=
  exists u1 u2, u1 <> u2
    /\ In u1 (unassigned cw a) /\ In u2 (unassigned cw a)
    /\ domain_size d u1 = domain_size d u2
    /\ forall u, In u (unassigned cw a) -> domain_size d u1 <= domain_size d u.

(** * Proofs *)

Unset Implicit Arguments.

(** ** Equality of slots *)

Lemma Direction_eqb_eq (a b : Direction) : Direction_eqb a b = true <-> a = b.
Proof. destruct a, b; simpl; split; congruence. Qed.

Lemma Var_eqb_eq (a b : Var.t) : Var.eqb a b = true <-> a = b.
Proof.
  unfold Var.eqb. destruct a as [ia ja da la], b as [ib jb db lb]; simpl.
  rewrite !andb_true_iff, !Nat.eqb_eq, Direction_eqb_eq.
  split.
  - intros [[[-> ->] ->] ->]. reflexivity.
  - intros H. injection H as -> -> -> ->. auto.
Qed.

Lemma Var_eqb_refl (a : Var.t) : Var.eqb a a = true.
Proof. apply Var_eqb_eq. reflexivity. Qed.

Lemma Var_eqb_neq (a b : Var.t) : Var.eqb a b = false <-> a <> b.
Proof.
  rewrite <- Var_eqb_eq. destruct (Var.eqb a b); split; congruence.
Qed.

Lemma Var_eqb_sym (a b : Var.t) : Var.eqb a b = Var.eqb b a.
Proof.
  destruct (Var.eqb b a) eqn:E.
  - apply Var_eqb_eq in E. subst. apply Var_eqb_refl.
  - apply Var_eqb_neq. apply Var_eqb_neq in E. congruence.
Qed.

Lemma String_eqb_eq (a b : string) : String.eqb a b = true <-> a = b.
Proof. apply String.eqb_eq. Qed.

Lemma Ascii_eqb_eq (a b : ascii) : Ascii.eqb a b = true <-> a = b.
Proof. apply Ascii.eqb_eq. Qed.

(** ** Sets and dicts as lists *)

Section ContainerFacts.

Context {K : Type} (keq : K -> K -> bool).
Hypothesis keq_eq : forall x y, keq x y = true <-> x = y.

Lemma keq_refl (x : K) : keq x x = true.
Proof. apply keq_eq. reflexivity. Qed.

Lemma keq_neq (x y : K) : keq x y = false <-> x <> y.
Proof. rewrite <- keq_eq. destruct (keq x y); split; congruence. Qed.

Lemma mem_In (x : K) (s : list K) : mem keq x s = true <-> In x s.
Proof.
  induction s as [|y s IH]; simpl.
  - split; [discriminate | tauto].
  - rewrite orb_true_iff, IH, keq_eq. split; intros [H|H]; auto.
Qed.

Lemma mem_not_In (x : K) (s : list K) : mem keq x s = false <-> ~ In x s.
Proof. rewrite <- mem_In. destruct (mem keq x s); split; congruence. Qed.

Lemma set_add_In (x y : K) (s : list K) :
  In y (set_add keq x s) <-> In y s \/ y = x.
Proof.
  unfold set_add. destruct (mem keq x s) eqn:E.
  - apply mem_In in E. split; [auto | intros [H| ->]; auto].
  - rewrite in_app_iff. simpl. split; intros [H|H]; auto.
    + destruct H as [H|[]]; auto.
Qed.

Lemma set_add_NoDup (x : K) (s : list K) : NoDup s -> NoDup (set_add keq x s).
Proof.
  intros H. unfold set_add. destruct (mem keq x s) eqn:E; auto.
  apply mem_not_In in E.
  apply NoDup_app; auto.
  - constructor; [simpl; tauto | constructor].
  - intros a Ha [<-|[]]. contradiction.
Qed.

Lemma fold_set_add_In (l acc : list K) (y : K) :
  In y (fold_left (fun s x => set_add keq x s) l acc) <-> In y acc \/ In y l.
Proof.
  revert acc. induction l as [|x l IH]; intros acc; simpl.
  - tauto.
  - rewrite IH, set_add_In. intuition auto.
Qed.

Lemma fold_set_add_NoDup (l acc : list K) :
  NoDup acc -> NoDup (fold_left (fun s x => set_add keq x s) l acc).
Proof.
  revert acc. induction l as [|x l IH]; intros acc H; simpl; auto.
  apply IH. apply set_add_NoDup. exact H.
Qed.

Lemma fold_set_add_length_le (l acc : list K) :
  List.length (fold_left (fun s x => set_add keq x s) l acc)
  <= List.length acc + List.length l.
Proof.
  revert acc. induction l as [|x l IH]; intros acc; simpl.
  - lia.
  - specialize (IH (set_add keq x acc)). unfold set_add in *.
    destruct (mem keq x acc).
    + lia.
    + rewrite length_app in IH. simpl in IH. lia.
Qed.

Lemma fold_set_add_length (l acc : list K) :
  List.length (fold_left (fun s x => set_add keq x s) l acc)
  = List.length acc + List.length l
  <-> NoDup l /\ forall x, In x l -> ~ In x acc.
Proof.
  revert acc. induction l as [|x l IH]; intros acc; simpl.
  - split; [intros _; split; [constructor | tauto] | lia].
  - pose proof (fold_set_add_length_le l (set_add keq x acc)) as Hle.
    specialize (IH (set_add keq x acc)). unfold set_add in *.
    destruct (mem keq x acc) eqn:E.
    + apply mem_In in E. split.
      * intros H. lia.
      * intros [_ H]. exfalso. apply (H x); auto.
    + apply mem_not_In in E. rewrite length_app in *. simpl in *.
      split.
      * intros H. assert (H' : List.length
            (fold_left (fun s x0 => if mem keq x0 s then s else s ++ [x0]) l
               (acc ++ [x])) = List.length acc + 1 + List.length l) by lia.
        apply IH in H'. destruct H' as [Hnd Hfresh]. split.
        -- constructor; auto. intros Hin. apply (Hfresh x Hin).
           apply in_or_app. simpl; auto.
        -- intros y [<-|Hy]; auto. intros Hacc. apply (Hfresh y Hy).
           apply in_or_app; auto.
      * intros [Hnd Hfresh]. inversion Hnd; subst.
        assert (H' : List.length
            (fold_left (fun s x0 => if mem keq x0 s then s else s ++ [x0]) l
               (acc ++ [x])) = List.length acc + 1 + List.length l).
        { apply IH. split; auto. intros y Hy Hin.
          apply in_app_or in Hin. destruct Hin as [Hin|[<-|[]]].
          - apply (Hfresh y); auto.
          - contradiction. }
        lia.
Qed.

Lemma set_of_In (l : list K) (y : K) : In y (set_of keq l) <-> In y l.
Proof. unfold set_of. rewrite fold_set_add_In. simpl. tauto. Qed.

Lemma set_of_NoDup (l : list K) : NoDup (set_of keq l).
Proof. apply fold_set_add_NoDup. constructor. Qed.

Lemma set_of_length (l : list K) :
  List.length (set_of keq l) = List.length l <-> NoDup l.
Proof.
  unfold set_of. pose proof (fold_set_add_length l []) as H. simpl in H.
  rewrite H. split; [tauto | intros Hnd; split; auto].
Qed.

Lemma set_remove_filter (x : K) (s : list K) :
  set_remove keq x s = filter (fun y => negb (keq x y)) s.
Proof.
  induction s as [|y s IH]; simpl; auto.
  destruct (keq x y); simpl; rewrite IH; reflexivity.
Qed.

Lemma set_eqb_iff (a b : list K) :
  set_eqb keq a b = true <-> forall x, In x a <-> In x b.
Proof.
  unfold set_eqb. rewrite andb_true_iff, !forallb_forall. split.
  - intros [H1 H2] x. split; intros H.
    + apply mem_In. auto.
    + apply mem_In. auto.
  - intros H. split; intros x Hx; apply mem_In; apply H; exact Hx.
Qed.

Context {V : Type}.

Lemma dict_get_In (d : list (K * V)) (k : K) (v : V) :
  dict_get keq d k = Some v -> In (k, v) d.
Proof.
  induction d as [|[k' v'] d IH]; simpl; [discriminate|].
  destruct (keq k k') eqn:E.
  - apply keq_eq in E. subst. intros [= ->]. auto.
  - auto.
Qed.

Lemma dict_get_keys (d : list (K * V)) (k : K) :
  In k (keys d) <-> exists v, dict_get keq d k = Some v.
Proof.
  induction d as [|[k' v'] d IH]; simpl.
  - split; [tauto | intros [v H]; discriminate].
  - destruct (keq k k') eqn:E.
    + apply keq_eq in E. subst. split; eauto.
    + apply keq_neq in E. rewrite <- IH. split; [intros [H|H]|]; auto.
      congruence.
Qed.

Lemma dict_get_None (d : list (K * V)) (k : K) :
  dict_get keq d k = None <-> ~ In k (keys d).
Proof.
  rewrite dict_get_keys. destruct (dict_get keq d k).
  - split; [discriminate | intros H; exfalso; eauto].
  - split; [intros _ [v H]; discriminate | auto].
Qed.

Lemma In_dict_get (d : list (K * V)) (k : K) (v : V) :
  NoDup (keys d) -> In (k, v) d -> dict_get keq d k = Some v.
Proof.
  induction d as [|[k' v'] d IH]; simpl; [tauto|].
  intros Hnd [H|H].
  - injection H as -> ->. rewrite keq_refl. reflexivity.
  - inversion Hnd; subst. destruct (keq k k') eqn:E.
    + apply keq_eq in E. subst. exfalso. apply H2.
      change k' with (fst (k', v)). apply in_map. exact H.
    + auto.
Qed.

Lemma dict_get_set (d : list (K * V)) (k k' : K) (v : V) :
  dict_get keq (dict_set keq d k v) k'
  = if keq k' k then Some v else dict_get keq d k'.
Proof.
  induction d as [|[k0 v0] d IH]; simpl.
  - reflexivity.
  - destruct (keq k k0) eqn:E; simpl.
    + apply keq_eq in E. subst. destruct (keq k' k0); reflexivity.
    + destruct (keq k' k0) eqn:E'.
      * apply keq_eq in E'. subst. apply keq_neq in E.
        destruct (keq k0 k) eqn:E''; auto. apply keq_eq in E''. congruence.
      * exact IH.
Qed.

Lemma dict_set_keys_In (d : list (K * V)) (k : K) (v : V) :
  In k (keys d) -> keys (dict_set keq d k v) = keys d.
Proof.
  induction d as [|[k0 v0] d IH]; simpl; [tauto|].
  intros H. destruct (keq k k0) eqn:E; simpl; auto.
  apply keq_neq in E. destruct H as [H|H]; [congruence|].
  f_equal. apply IH. exact H.
Qed.

Lemma dict_set_fresh (d : list (K * V)) (k : K) (v : V) :
  ~ In k (keys d) -> dict_set keq d k v = d ++ [(k, v)].
Proof.
  induction d as [|[k0 v0] d IH]; simpl; auto.
  intros H. destruct (keq k k0) eqn:E.
  - apply keq_eq in E. subst. tauto.
  - f_equal. apply IH. tauto.
Qed.

End ContainerFacts.

(** ** Removal from a domain *)

Lemma remove_all_filter (rm s : list string) :
  remove_all rm s = filter (fun w => negb (mem String.eqb w rm)) s.
Proof.
  unfold remove_all. revert s.
  induction rm as [|x rm IH]; intros s; simpl.
  - induction s as [|w s IHs]; simpl; congruence.
  - rewrite IH, set_remove_filter. clear IH.
    induction s as [|w s IHs]; simpl; auto.
    rewrite (String.eqb_sym w x).
    destruct (String.eqb x w); simpl; rewrite IHs; reflexivity.
Qed.

Lemma remove_all_In (rm s : list string) (w : string) :
  In w (remove_all rm s) <-> In w s /\ ~ In w rm.
Proof.
  rewrite remove_all_filter, filter_In, negb_true_iff.
  rewrite (mem_not_In String.eqb String_eqb_eq). tauto.
Qed.

Lemma remove_all_incl (rm s : list string) : incl (remove_all rm s) s.
Proof. intros w H. apply remove_all_In in H. tauto. Qed.

Lemma remove_all_NoDup (rm s : list string) : NoDup s -> NoDup (remove_all rm s).
Proof. rewrite remove_all_filter. apply NoDup_filter. Qed.

(** ** Domains *)

Lemma domain_of_set (d : domains) (x v : Var.t) (ws : list string) :
  domain_of (dict_set Var.eqb d x ws) v
  = if Var.eqb v x then ws else domain_of d v.
Proof.
  unfold domain_of. rewrite (dict_get_set Var.eqb Var_eqb_eq).
  destruct (Var.eqb v x); reflexivity.
Qed.

Lemma shrinks_refl (d : domains) : shrinks d d.
Proof. split; [reflexivity | intros v; apply incl_refl]. Qed.

Lemma shrinks_trans (d1 d2 d3 : domains) :
  shrinks d1 d2 -> shrinks d2 d3 -> shrinks d1 d3.
Proof.
  intros [K1 I1] [K2 I2]. split; [congruence|].
  intros v. eapply incl_tran; [apply I2 | apply I1].
Qed.

Lemma shrinks_set (d : domains) (x : Var.t) (dx ws : list string) :
  dict_get Var.eqb d x = Some dx -> incl ws dx ->
  shrinks d (dict_set Var.eqb d x ws).
Proof.
  intros Hx Hincl. split.
  - apply (dict_set_keys_In Var.eqb Var_eqb_eq).
    apply (dict_get_keys Var.eqb Var_eqb_eq). eauto.
  - intros v. rewrite domain_of_set. destruct (Var.eqb v x) eqn:E.
    + apply Var_eqb_eq in E. subst. unfold domain_of. rewrite Hx. exact Hincl.
    + apply incl_refl.
Qed.

Lemma shrinks_node_consistent (d d' : domains) :
  shrinks d d' -> node_consistent d -> node_consistent d'.
Proof. intros [_ Hs] Hn v w Hw. apply Hn. apply (Hs v). exact Hw. Qed.

(** ** [enforce_node_consistency] *)

Lemma node_words2remove_fold (variable : Var.t) (ws acc : list string) (w : string) :
  In w (fold_left
          (fun words2remove word =>
             if negb (String.length word =? Var.length variable)
             then set_add String.eqb word words2remove
             else words2remove) ws acc)
  <-> In w acc \/ (In w ws /\ String.length w <> Var.length variable).
Proof.
  revert acc. induction ws as [|x ws IH]; intros acc; simpl.
  - tauto.
  - rewrite IH. destruct (String.length x =? Var.length variable) eqn:E; simpl.
    + apply Nat.eqb_eq in E. split; [tauto|].
      intros [H|[[<-|H] H']]; auto. contradiction.
    + apply Nat.eqb_neq in E. rewrite (set_add_In String.eqb String_eqb_eq).
      split; [intros [[H| ->]|H]; auto; tauto|].
      intros [H|[[<-|H] H']]; auto.
Qed.

Lemma node_words2remove_In (variable : Var.t) (ws : list string) (w : string) :
  In w (node_words2remove variable ws)
  <-> In w ws /\ String.length w <> Var.length variable.
Proof.
  unfold node_words2remove. rewrite node_words2remove_fold. simpl. tauto.
Qed.

Lemma node_filter_In (variable : Var.t) (ws : list string) (w : string) :
  In w (remove_all (node_words2remove variable ws) ws)
  <-> In w ws /\ String.length w = Var.length variable.
Proof.
  rewrite remove_all_In, node_words2remove_In.
  destruct (Nat.eq_dec (String.length w) (Var.length variable)); tauto.
Qed.

Lemma dict_get_map (f : Var.t -> list string -> list string) (d : domains) (v : Var.t) :
  dict_get Var.eqb (map (fun '(k, ws) => (k, f k ws)) d) v
  = option_map (f v) (dict_get Var.eqb d v).
Proof.
  induction d as [|[k ws] d IH]; simpl; auto.
  destruct (Var.eqb v k) eqn:E; auto.
  apply Var_eqb_eq in E. subst. reflexivity.
Qed.

Lemma keys_map (f : Var.t -> list string -> list string) (d : domains) :
  keys (map (fun '(k, ws) => (k, f k ws)) d) = keys d.
Proof.
  unfold keys. rewrite map_map. apply map_ext. intros [k ws]. reflexivity.
Qed.

Lemma enforce_node_consistency_domain (d : domains) (v : Var.t) (w : string) :
  In w (domain_of (snd (enforce_node_consistency d)) v)
  <-> In w (domain_of d v) /\ String.length w = Var.length v.
Proof.
  unfold enforce_node_consistency, domain_of. simpl.
  rewrite (dict_get_map (fun k ws => remove_all (node_words2remove k ws) ws)).
  destruct (dict_get Var.eqb d v); simpl.
  - apply node_filter_In.
  - tauto.
Qed.

Lemma enforce_node_consistency_ok (d : domains) :
  fst (enforce_node_consistency d) = Ok tt.
Proof. reflexivity. Qed.

Lemma enforce_node_consistency_shrinks (d : domains) :
  shrinks d (snd (enforce_node_consistency d)).
Proof.
  split.
  - apply (keys_map (fun k ws => remove_all (node_words2remove k ws) ws)).
  - intros v w H. apply enforce_node_consistency_domain in H. tauto.
Qed.

Lemma enforce_node_consistency_sound (d : domains) :
  node_consistent (snd (enforce_node_consistency d)).
Proof. intros v w H. apply enforce_node_consistency_domain in H. tauto. Qed.

(** ** [revise] *)

(** What a call of [revise] can do: nothing, raise before any write, or
    remove the collected words from Domain(x) and return [None]. *)
Lemma revise_cases (cw : Crossword) (x y : Var.t) (d : domains) :
  (overlaps cw x y = None /\ revise cw x y d = (Ok None, d))
  \/ (exists e, revise cw x y d = (Raise e, d))
  \/ revise cw x y d = (OutOfFuel, d)
  \/ (exists oi oj dx words2remove,
        overlaps cw x y = Some (oi, oj)
        /\ dict_get Var.eqb d x = Some dx
        /\ revise_scan d y oi oj dx [] = Ok words2remove
        /\ revise cw x y d
           = (Ok None, dict_set Var.eqb d x (remove_all words2remove dx))).
Proof.
  unfold revise. destruct (overlaps cw x y) as [[oi oj]|]; [|auto].
  unfold dict_getitem. destruct (dict_get Var.eqb d x) as [dx|] eqn:Hx; simpl.
  - destruct (revise_scan d y oi oj dx []) as [rm|e|] eqn:Hs; simpl.
    + right; right; right. exists oi, oj, dx, rm. auto.
    + right; left. eauto.
    + auto.
  - right; left. eauto.
Qed.

Lemma revise_not_truthy (cw : Crossword) (x y : Var.t) (d d' : domains)
    (r : option bool) :
  revise cw x y d = (Ok r, d') -> r = None.
Proof.
  intros H.
  destruct (revise_cases cw x y d) as [[_ E]|[[e E]|[E|(oi & oj & dx & rm & _ & _ & _ & E)]]];
    rewrite E in H; congruence.
Qed.

Lemma revise_shrinks (cw : Crossword) (x y : Var.t) (d : domains) :
  shrinks d (snd (revise cw x y d)).
Proof.
  destruct (revise_cases cw x y d) as [[_ E]|[[e E]|[E|(oi & oj & dx & rm & _ & Hx & _ & E)]]];
    rewrite E; simpl; try apply shrinks_refl.
  eapply shrinks_set; [exact Hx | apply remove_all_incl].
Qed.

(** ** [ac3] *)

Lemma ac3_loop_shrinks (cw : Crossword) (fuel : nat) :
  forall queue d, shrinks d (snd (ac3_loop cw fuel queue d)).
Proof.
  induction fuel as [|fuel IH]; intros [|[x y] queue] d; simpl;
    try apply shrinks_refl.
  unfold bind. pose proof (revise_shrinks cw x y d) as Hr.
  destruct (revise cw x y d) as [[r|e|] d'] eqn:E; simpl in *; auto.
  destruct (truthy r).
  - unfold reads. destruct (dict_getitem Var.eqb d' x) as [[|w dx]|e|]; simpl; auto.
    eapply shrinks_trans; [exact Hr | apply IH].
  - eapply shrinks_trans; [exact Hr | apply IH].
Qed.

(** Since [revise] never returns a true value, [ac3] revises every arc of
    its initial queue once, pushes nothing back and cannot return [False]. *)
Lemma ac3_loop_step (cw : Crossword) (fuel : nat) (x y : Var.t)
    (queue : list (Var.t * Var.t)) (d : domains) :
  ac3_loop cw (S fuel) ((x, y) :: queue) d
  = match revise cw x y d with
    | (Ok _, d') => ac3_loop cw fuel queue d'
    | (Raise e, d') => (Raise e, d')
    | (OutOfFuel, d') => (OutOfFuel, d')
    end.
Proof.
  simpl. unfold bind. destruct (revise cw x y d) as [[r|e|] d'] eqn:E; auto.
  apply revise_not_truthy in E. subst. reflexivity.
Qed.

Lemma ac3_loop_never_false (cw : Crossword) (fuel : nat) :
  forall queue d d', ac3_loop cw fuel queue d <> (Ok false, d').
Proof.
  induction fuel as [|fuel IH]; intros [|[x y] queue] d d'; try (simpl; discriminate).
  rewrite ac3_loop_step. destruct (revise cw x y d) as [[r|e|] d1]; try discriminate.
  apply IH.
Qed.

Lemma ac3_loop_enough_fuel (cw : Crossword) :
  forall queue fuel d,
    List.length queue <= fuel ->
    fst (ac3_loop cw fuel queue d) <> OutOfFuel.
Proof.
  induction queue as [|[x y] queue IH]; intros fuel d Hfuel.
  - destruct fuel; simpl; discriminate.
  - destruct fuel as [|fuel]; [simpl in Hfuel; lia|].
    rewrite ac3_loop_step.
    destruct (revise_cases cw x y d)
      as [[_ E]|[[e E]|[E|(oi & oj & dx & rm & _ & _ & Hs & E)]]]; rewrite E.
    + apply IH. simpl in Hfuel. lia.
    + simpl. discriminate.
    + exfalso. unfold revise in E.
      destruct (overlaps cw x y) as [[oi oj]|]; [|discriminate].
      destruct (dict_getitem Var.eqb d x) as [dx|e|] eqn:Hx; simpl in E.
      * assert (Hscan : forall dx acc, revise_scan d y oi oj dx acc <> OutOfFuel).
        { clear. induction dx as [|w dx IHdx]; intros acc; simpl; [discriminate|].
          unfold index, dict_getitem.
          destruct (String.get oi w); simpl; [|discriminate].
          destruct (dict_get Var.eqb d y) as [dy|]; simpl; [|discriminate].
          assert (Hc : chars_at dy oj <> OutOfFuel).
          { clear. induction dy as [|w' dy IHdy]; simpl; [discriminate|].
            unfold index. destruct (String.get oj w'); simpl; [|discriminate].
            destruct (chars_at dy oj); simpl; congruence. }
          destruct (chars_at dy oj) as [cs|e|]; simpl; try congruence.
          destruct (negb (mem Ascii.eqb a cs)); apply IHdx. }
        specialize (Hscan dx []).
        destruct (revise_scan d y oi oj dx []); simpl in E; congruence.
      * discriminate.
      * unfold dict_getitem in Hx. destruct (dict_get Var.eqb d x); discriminate.
    + apply IH. simpl in Hfuel. lia.
Qed.

(** ** Indexing words *)

Lemma get_Some (w : string) (k : nat) :
  k < String.length w <-> exists c, String.get k w = Some c.
Proof.
  revert k. induction w as [|a w IH]; intros k; simpl.
  - split; [lia | intros [c H]; discriminate].
  - destruct k as [|k].
    + split; [eauto | lia].
    + rewrite <- IH. lia.
Qed.

Lemma index_ok (w : string) (k : nat) :
  k < String.length w -> exists c, index w k = Ok c /\ String.get k w = Some c.
Proof.
  intros H. apply get_Some in H. destruct H as [c H].
  exists c. unfold index. rewrite H. auto.
Qed.

Lemma index_Ok_get (w : string) (k : nat) (c : ascii) :
  index w k = Ok c <-> String.get k w = Some c.
Proof.
  unfold index. destruct (String.get k w); split; congruence.
Qed.

(** ** [revise] and [ac3] on node-consistent domains *)

Lemma chars_at_ok (dy : list string) (oj : nat) :
  (forall w, In w dy -> oj < String.length w) ->
  exists charY, chars_at dy oj = Ok charY.
Proof.
  induction dy as [|w dy IH]; intros H; simpl; [eauto|].
  destruct (index_ok w oj) as (c & -> & _); [apply H; simpl; auto|].
  destruct IH as [cs ->]; [intros; apply H; simpl; auto|].
  simpl. eauto.
Qed.

Lemma revise_scan_ok (d : domains) (y : Var.t) (oi oj : nat) (dy : list string) :
  dict_get Var.eqb d y = Some dy ->
  (forall w, In w dy -> oj < String.length w) ->
  forall dx acc,
    (forall w, In w dx -> oi < String.length w) ->
    exists words2remove, revise_scan d y oi oj dx acc = Ok words2remove.
Proof.
  intros Hy Hdy. induction dx as [|w dx IH]; intros acc Hdx; simpl; [eauto|].
  destruct (index_ok w oi) as (c & -> & _); [apply Hdx; simpl; auto|].
  unfold dict_getitem. rewrite Hy. simpl.
  destruct (chars_at_ok dy oj Hdy) as [cs ->]. simpl.
  destruct (negb (mem Ascii.eqb c cs)); apply IH; intros; apply Hdx; simpl; auto.
Qed.

Lemma keys_domain_of (d : domains) (v : Var.t) :
  In v (keys d) -> dict_get Var.eqb d v = Some (domain_of d v).
Proof.
  intros H. apply (dict_get_keys Var.eqb Var_eqb_eq) in H.
  destruct H as [ws H]. unfold domain_of. rewrite H. reflexivity.
Qed.

Lemma revise_ok (cw : Crossword) (x y : Var.t) (d : domains) :
  wf_crossword cw -> keys d = variables cw -> node_consistent d ->
  In x (variables cw) -> In y (variables cw) ->
  exists d', revise cw x y d = (Ok None, d').
Proof.
  intros Hwf Hk Hn Hx Hy.
  destruct (revise_cases cw x y d)
    as [[_ E]|[[e E]|[E|(oi & oj & dx & rm & _ & _ & _ & E)]]]; eauto;
    exfalso; unfold revise in E;
    destruct (overlaps cw x y) as [[oi oj]|] eqn:Ho; try discriminate;
    destruct (wf_indices Hwf x y Hx Hy Ho) as [Hi Hj];
    unfold dict_getitem in E;
    rewrite (keys_domain_of d x) in E by (rewrite Hk; exact Hx);
    simpl in E;
    destruct (revise_scan_ok d y oi oj (domain_of d y)) with
      (dx := domain_of d x) (acc := @nil string) as [rm Hrm];
    try (apply keys_domain_of; rewrite Hk; exact Hy);
    try (intros w Hw; rewrite (Hn _ _ Hw); assumption);
    rewrite Hrm in E; simpl in E; discriminate.
Qed.

Lemma initial_arcs_In (cw : Crossword) (x y : Var.t) :
  In (x, y) (initial_arcs cw)
  <-> In x (variables cw) /\ In y (variables cw) /\ x <> y
      /\ overlaps cw x y <> None.
Proof.
  unfold initial_arcs. rewrite in_flat_map. split.
  - intros (v1 & H1 & H). apply in_flat_map in H. destruct H as (v2 & H2 & H).
    destruct (negb (Var.eqb v1 v2) && is_not_None (overlaps cw v1 v2)) eqn:E;
      [|destruct H].
    destruct H as [H|[]]. injection H as <- <-.
    apply andb_true_iff in E. destruct E as [E1 E2].
    apply negb_true_iff, Var_eqb_neq in E1.
    repeat split; auto. destruct (overlaps cw v1 v2); [discriminate|discriminate].
  - intros (Hx & Hy & Hne & Ho). exists x. split; auto.
    apply in_flat_map. exists y. split; auto.
    apply Var_eqb_neq in Hne. rewrite Hne.
    destruct (overlaps cw x y); [simpl; auto | congruence].
Qed.

Lemma ac3_loop_ok (cw : Crossword) :
  wf_crossword cw ->
  forall queue fuel d,
    keys d = variables cw -> node_consistent d ->
    (forall x y, In (x, y) queue -> In x (variables cw) /\ In y (variables cw)) ->
    List.length queue <= fuel ->
    exists d', ac3_loop cw fuel queue d = (Ok true, d').
Proof.
  intros Hwf. induction queue as [|[x y] queue IH]; intros fuel d Hk Hn Hq Hfuel.
  - destruct fuel; simpl; unfold ret; eauto.
  - destruct fuel as [|fuel]; [simpl in Hfuel; lia|].
    rewrite ac3_loop_step.
    destruct (Hq x y) as [Hx Hy]; [simpl; auto|].
    destruct (revise_ok cw x y d Hwf Hk Hn Hx Hy) as [d1 E].
    pose proof (revise_shrinks cw x y d) as Hs. rewrite E in *. simpl in Hs.
    apply IH.
    + destruct Hs as [Hs _]. congruence.
    + eapply shrinks_node_consistent; eauto.
    + intros; apply Hq; simpl; auto.
    + simpl in Hfuel. lia.
Qed.

(** ** [sorted] *)

Section SortedFacts.

Context {A : Type} (le : nat -> nat -> bool) (key : A -> nat).

Lemma insert_by_perm (x : A) (l : list A) :
  Permutation (insert_by le key x l) (x :: l).
Proof.
  induction l as [|y l IH]; simpl; auto.
  destruct (le (key x) (key y)); auto.
  eapply perm_trans; [apply perm_skip, IH | apply perm_swap].
Qed.

Lemma sorted_by_perm (l : list A) : Permutation (sorted_by le key l) l.
Proof.
  induction l as [|x l IH]; simpl; auto.
  eapply perm_trans; [apply insert_by_perm | apply perm_skip, IH].
Qed.

Lemma sorted_by_In (l : list A) (x : A) : In x (sorted_by le key l) <-> In x l.
Proof.
  split; apply Permutation_in; [|apply Permutation_sym]; apply sorted_by_perm.
Qed.

Lemma sorted_by_nonempty (l : list A) : l <> [] -> sorted_by le key l <> [].
Proof.
  intros H E. apply H. apply Permutation_nil.
  rewrite <- E. apply sorted_by_perm.
Qed.

End SortedFacts.

Lemma insert_by_sorted {A : Type} (key : A -> nat) (x : A) (l : list A) :
  StronglySorted (fun a b => key a <= key b) l ->
  StronglySorted (fun a b => key a <= key b) (insert_by Nat.leb key x l).
Proof.
  induction 1 as [|y l Hs IH Hy]; simpl.
  - constructor; constructor.
  - destruct (key x <=? key y) eqn:E.
    + apply Nat.leb_le in E. constructor.
      * constructor; assumption.
      * constructor; auto. eapply Forall_impl; [|exact Hy].
        simpl. intros; lia.
    + apply Nat.leb_gt in E. constructor; auto.
      eapply Permutation_Forall; [apply Permutation_sym, insert_by_perm|].
      constructor; auto. lia.
Qed.

Lemma sorted_by_sorted {A : Type} (key : A -> nat) (l : list A) :
  StronglySorted (fun a b => key a <= key b) (sorted_by Nat.leb key l).
Proof.
  induction l as [|x l IH]; simpl; [constructor | apply insert_by_sorted, IH].
Qed.

(** ** Dicts built in a loop *)

Section DictFacts.

Context {K V : Type} (keq : K -> K -> bool).
Hypothesis keq_eq : forall x y, keq x y = true <-> x = y.

Lemma dict_set_keys (d : list (K * V)) (k k' : K) (v : V) :
  In k' (keys (dict_set keq d k v)) <-> In k' (keys d) \/ k' = k.
Proof.
  destruct (mem keq k (keys d)) eqn:E.
  - apply (mem_In keq keq_eq) in E.
    rewrite (dict_set_keys_In keq keq_eq) by exact E.
    split; [auto | intros [H'| ->]; auto].
  - apply (mem_not_In keq keq_eq) in E.
    rewrite (dict_set_fresh keq keq_eq) by exact E.
    unfold keys. rewrite map_app, in_app_iff. simpl.
    split; intros [H'|H']; auto.
    destruct H' as [<-|[]]; auto.
Qed.

Lemma dict_set_keys_NoDup (d : list (K * V)) (k : K) (v : V) :
  NoDup (keys d) -> NoDup (keys (dict_set keq d k v)).
Proof.
  induction d as [|[k0 v0] d IH]; simpl.
  - intros _. constructor; [simpl; tauto | constructor].
  - intros H. inversion H; subst. destruct (keq k k0) eqn:E; simpl.
    + exact H.
    + constructor; auto. intros Hin.
      apply dict_set_keys in Hin. destruct Hin as [Hin| ->]; auto.
      rewrite keq_refl in E by exact keq_eq. discriminate.
Qed.

Lemma fold_dict_set_fresh (f : K -> V) (l : list K) (acc : list (K * V)) :
  NoDup l -> (forall k, In k l -> ~ In k (keys acc)) ->
  fold_left (fun d k => dict_set keq d k (f k)) l acc
  = acc ++ map (fun k => (k, f k)) l.
Proof.
  revert acc. induction l as [|k l IH]; intros acc Hnd Hfresh; simpl.
  - rewrite app_nil_r. reflexivity.
  - inversion Hnd; subst.
    rewrite (dict_set_fresh keq keq_eq) by (apply Hfresh; simpl; auto).
    rewrite IH; auto.
    + rewrite <- app_assoc. reflexivity.
    + intros k' Hk' Hin. unfold keys in Hin. rewrite map_app, in_app_iff in Hin.
      destruct Hin as [Hin|[<-|[]]]; [apply (Hfresh k'); simpl; auto | contradiction].
Qed.

Lemma fold_dict_set_keys (f : K -> V) (l : list K) (acc : list (K * V)) (k : K) :
  In k (keys (fold_left (fun d k => dict_set keq d k (f k)) l acc))
  <-> In k (keys acc) \/ In k l.
Proof.
  revert acc. induction l as [|x l IH]; intros acc; simpl; [tauto|].
  rewrite IH, dict_set_keys. intuition auto.
Qed.

Lemma dict_get_app (d1 d2 : list (K * V)) (k : K) :
  ~ In k (keys d1) -> dict_get keq (d1 ++ d2) k = dict_get keq d2 k.
Proof.
  induction d1 as [|[k0 v0] d1 IH]; simpl; auto.
  intros H. destruct (keq k k0) eqn:E.
  - apply keq_eq in E. subst. tauto.
  - apply IH. tauto.
Qed.

Lemma dict_set_app (d1 d2 : list (K * V)) (k : K) (v : V) :
  ~ In k (keys d1) -> dict_set keq (d1 ++ d2) k v = d1 ++ dict_set keq d2 k v.
Proof.
  induction d1 as [|[k0 v0] d1 IH]; simpl; auto.
  intros H. destruct (keq k k0) eqn:E.
  - apply keq_eq in E. subst. tauto.
  - f_equal. apply IH. tauto.
Qed.

End DictFacts.

Lemma init_domains_eq (cw : Crossword) :
  NoDup (variables cw) ->
  init_domains cw = map (fun v => (v, words cw)) (variables cw).
Proof.
  intros H. unfold init_domains.
  rewrite (fold_dict_set_fresh Var.eqb Var_eqb_eq (fun _ => words cw)); auto.
Qed.

Lemma init_domains_keys (cw : Crossword) :
  NoDup (variables cw) -> keys (init_domains cw) = variables cw.
Proof.
  intros H. rewrite init_domains_eq by exact H.
  unfold keys. rewrite map_map. simpl. apply map_id.
Qed.

(** ** The puzzle structure *)

Lemma neighbors_In (cw : Crossword) (v n : Var.t) :
  In n (neighbors cw v)
  <-> In n (variables cw) /\ n <> v /\ overlaps cw n v <> None.
Proof.
  unfold neighbors. rewrite filter_In, andb_true_iff, negb_true_iff, Var_eqb_neq.
  destruct (overlaps cw n v); simpl; intuition congruence.
Qed.

Lemma neighbors_overlap (cw : Crossword) (v n : Var.t) :
  wf_crossword cw -> In v (variables cw) -> In n (neighbors cw v) ->
  exists i j, overlaps cw v n = Some (i, j)
              /\ i < Var.length v /\ j < Var.length n.
Proof.
  intros Hwf Hv Hn. apply neighbors_In in Hn. destruct Hn as (Hn & _ & Ho).
  destruct (overlaps cw n v) as [[j i]|] eqn:E; [|congruence].
  exists i, j. pose proof (wf_symmetric Hwf n v Hn Hv E) as E'.
  split; auto. apply (wf_indices Hwf v n Hv Hn E').
Qed.

Lemma overlap_neighbors (cw : Crossword) (v n : Var.t) (i j : nat) :
  wf_crossword cw -> In v (variables cw) -> In n (variables cw) -> v <> n ->
  overlaps cw v n = Some (i, j) -> In n (neighbors cw v).
Proof.
  intros Hwf Hv Hn Hne Ho. apply neighbors_In. repeat split; auto.
  rewrite (wf_symmetric Hwf v n Hv Hn Ho). discriminate.
Qed.

(** ** [consistent] *)

Lemma mem_keys_get (a : assignment) (v : Var.t) :
  mem Var.eqb v (keys a) = true <-> exists w, dict_get Var.eqb a v = Some w.
Proof.
  rewrite (mem_In Var.eqb Var_eqb_eq). apply (dict_get_keys Var.eqb Var_eqb_eq).
Qed.

Lemma consistent_neighbors_true (cw : Crossword) (a : assignment) (v : Var.t)
    (wv : string) (ns : list Var.t) :
  dict_get Var.eqb a v = Some wv ->
  (consistent_neighbors cw a v ns = Ok true
   <-> forall n wn, In n ns -> dict_get Var.eqb a n = Some wn ->
         exists i j, overlaps cw v n = Some (i, j) /\ agree wv i wn j).
Proof.
  intros Hv. induction ns as [|n ns IH]; simpl.
  - split; [intros _ n wn [] | reflexivity].
  - destruct (mem Var.eqb n (keys a)) eqn:Hm.
    + apply mem_keys_get in Hm. destruct Hm as [wn Hn].
      unfold dict_getitem. rewrite Hv, Hn.
      destruct (overlaps cw v n) as [[o0 o1]|] eqn:Ho; simpl.
      * unfold index.
        destruct (String.get o0 wv) as [cv|] eqn:Hcv; simpl.
        -- destruct (String.get o1 wn) as [cn|] eqn:Hcn; simpl.
           ++ destruct (Ascii.eqb cv cn) eqn:Hc; simpl.
              ** apply Ascii.eqb_eq in Hc. subst cn. rewrite IH. split.
                 --- intros H n' wn' [<-|Hin] Hn'; [|eauto].
                     rewrite Hn in Hn'. injection Hn' as <-.
                     exists o0, o1. split; auto. exists cv. auto.
                 --- intros H n' wn' Hin Hn'. eauto.
              ** split; [discriminate|]. intros H.
                 destruct (H n wn (or_introl eq_refl) Hn) as (i & j & E & c & Hi & Hj).
                 rewrite Ho in E. injection E as <- <-.
                 rewrite Hcv in Hi. rewrite Hcn in Hj.
                 injection Hi as ->. injection Hj as ->.
                 rewrite Ascii.eqb_refl in Hc. discriminate.
           ++ split; [discriminate|]. intros H.
              destruct (H n wn (or_introl eq_refl) Hn) as (i & j & E & c & Hi & Hj).
              rewrite Ho in E. injection E as <- <-. congruence.
        -- split; [discriminate|]. intros H.
           destruct (H n wn (or_introl eq_refl) Hn) as (i & j & E & c & Hi & Hj).
           rewrite Ho in E. injection E as <- <-. congruence.
      * split; [discriminate|]. intros H.
        destruct (H n wn (or_introl eq_refl) Hn) as (i & j & E & _).
        congruence.
    + rewrite IH. split.
      * intros H n' wn' [<-|Hin] Hn'; [|eauto].
        assert (mem Var.eqb n (keys a) = true) by (apply mem_keys_get; eauto).
        congruence.
      * intros H n' wn' Hin Hn'. eauto.
Qed.

Lemma consistent_loop_true (cw : Crossword) (a : assignment) (vs : list Var.t) :
  incl vs (keys a) ->
  (consistent_loop cw a vs = Ok true
   <-> forall v wv, In v vs -> dict_get Var.eqb a v = Some wv ->
         String.length wv = Var.length v
         /\ forall n wn, In n (neighbors cw v) -> dict_get Var.eqb a n = Some wn ->
              exists i j, overlaps cw v n = Some (i, j) /\ agree wv i wn j).
Proof.
  induction vs as [|v vs IH]; intros Hincl; simpl.
  - split; [intros _ v wv [] | reflexivity].
  - assert (Hv : In v (keys a)) by (apply Hincl; simpl; auto).
    apply (dict_get_keys Var.eqb Var_eqb_eq) in Hv. destruct Hv as [wv Hv].
    assert (Hincl' : incl vs (keys a)) by (intros x Hx; apply Hincl; simpl; auto).
    specialize (IH Hincl').
    unfold dict_getitem. rewrite Hv. simpl.
    destruct (String.length wv =? Var.length v) eqn:Hlen; simpl.
    + apply Nat.eqb_eq in Hlen.
      pose proof (consistent_neighbors_true cw a v wv (neighbors cw v) Hv) as Hns.
      destruct (consistent_neighbors cw a v (neighbors cw v)) as [[|]|e|]; simpl.
      * rewrite IH. split.
        -- intros H v' wv' [<-|Hin] Hv'; [|eauto].
           rewrite Hv in Hv'. injection Hv' as <-. split; auto.
           apply Hns. reflexivity.
        -- intros H v' wv' Hin Hv'. apply H; simpl; auto.
      * split; [discriminate|]. intros H.
        destruct (H v wv (or_introl eq_refl) Hv) as [_ H'].
        apply Hns in H'. discriminate.
      * split; [discriminate|]. intros H.
        destruct (H v wv (or_introl eq_refl) Hv) as [_ H'].
        apply Hns in H'. discriminate.
      * split; [discriminate|]. intros H.
        destruct (H v wv (or_introl eq_refl) Hv) as [_ H'].
        apply Hns in H'. discriminate.
    + apply Nat.eqb_neq in Hlen. split; [discriminate|]. intros H.
      destruct (H v wv (or_introl eq_refl) Hv) as [H' _]. contradiction.
Qed.

Lemma keys_values_length (a : assignment) :
  List.length (keys a) = List.length (values a).
Proof. unfold keys, values. rewrite !length_map. reflexivity. Qed.

Lemma consistent_true (cw : Crossword) (a : assignment) :
  NoDup (keys a) ->
  (consistent cw a = Ok true
   <-> distinct_words a /\ lengths_fit a /\ neighbors_agree cw a).
Proof.
  intros Hk. unfold consistent.
  assert (Hlen : List.length (set_of Var.eqb (keys a)) = List.length (values a)).
  { rewrite <- keys_values_length. apply (set_of_length Var.eqb Var_eqb_eq). exact Hk. }
  rewrite Hlen.
  pose proof (set_of_length String.eqb String_eqb_eq (values a)) as Hd.
  pose proof (consistent_loop_true cw a (keys a) (incl_refl _)) as Hl.
  destruct (List.length (set_of String.eqb (values a)) =? List.length (values a)) eqn:E; simpl.
  - apply Nat.eqb_eq in E. apply Hd in E. rewrite Hl. split.
    + intros H. split; [exact E|]. split.
      * intros v w Hv. apply (H v w); auto.
        apply (dict_get_keys Var.eqb Var_eqb_eq). eauto.
      * intros v n wv wn Hv Hn Hin. apply (H v wv); auto.
        apply (dict_get_keys Var.eqb Var_eqb_eq). eauto.
    + intros (_ & Hfit & Hagree) v wv Hin Hv. split; [apply Hfit; exact Hv|].
      intros n wn Hnb Hn. eapply Hagree; eauto.
  - apply Nat.eqb_neq in E. split; [discriminate|].
    intros (Hdist & _). apply Hd in Hdist. contradiction.
Qed.

(** On length-correct words of puzzle slots, [consistent] raises nothing. *)
Lemma consistent_neighbors_ok (cw : Crossword) (a : assignment) (v : Var.t)
    (wv : string) (ns : list Var.t) :
  wf_crossword cw -> lengths_fit a -> In v (variables cw) ->
  dict_get Var.eqb a v = Some wv ->
  incl ns (neighbors cw v) ->
  exists b, consistent_neighbors cw a v ns = Ok b.
Proof.
  intros Hwf Hfit Hvin Hv. induction ns as [|n ns IH]; intros Hincl; simpl; [eauto|].
  assert (Hincl' : incl ns (neighbors cw v)) by (intros x Hx; apply Hincl; simpl; auto).
  destruct (mem Var.eqb n (keys a)) eqn:Hm; [|auto].
  apply mem_keys_get in Hm. destruct Hm as [wn Hn].
  destruct (neighbors_overlap cw v n Hwf Hvin) as (i & j & Ho & Hi & Hj);
    [apply Hincl; simpl; auto|].
  rewrite Ho. unfold dict_getitem. rewrite Hv, Hn. simpl.
  rewrite <- (Hfit v wv Hv) in Hi. rewrite <- (Hfit n wn Hn) in Hj.
  destruct (index_ok wv i Hi) as (cv & -> & _).
  destruct (index_ok wn j Hj) as (cn & -> & _). simpl.
  destruct (negb (Ascii.eqb cv cn)); eauto.
Qed.

Lemma consistent_loop_ok (cw : Crossword) (a : assignment) (vs : list Var.t) :
  wf_crossword cw -> lengths_fit a -> incl (keys a) (variables cw) ->
  incl vs (keys a) ->
  exists b, consistent_loop cw a vs = Ok b.
Proof.
  intros Hwf Hfit Hk. induction vs as [|v vs IH]; intros Hincl; simpl; [eauto|].
  assert (Hv : In v (keys a)) by (apply Hincl; simpl; auto).
  pose proof (Hk v Hv) as Hvin.
  apply (dict_get_keys Var.eqb Var_eqb_eq) in Hv. destruct Hv as [wv Hv].
  unfold dict_getitem. rewrite Hv. simpl.
  destruct (negb (String.length wv =? Var.length v)); [eauto|].
  destruct (consistent_neighbors_ok cw a v wv (neighbors cw v) Hwf Hfit Hvin Hv
              (incl_refl _)) as [b ->]. simpl.
  destruct b; [|eauto]. apply IH. intros x Hx; apply Hincl; simpl; auto.
Qed.

Lemma consistent_ok (cw : Crossword) (a : assignment) :
  wf_crossword cw -> lengths_fit a -> incl (keys a) (variables cw) ->
  exists b, consistent cw a = Ok b.
Proof.
  intros Hwf Hfit Hk. unfold consistent.
  destruct (negb _); [eauto|].
  apply consistent_loop_ok; auto. apply incl_refl.
Qed.

(** ** [assignment_complete] *)

Lemma assignment_complete_true (cw : Crossword) (a : assignment) :
  assignment_complete cw a = true
  <-> (forall v, In v (keys a) <-> In v (variables cw))
      /\ (forall w, In w (values a) -> w <> ""%string).
Proof.
  unfold assignment_complete.
  rewrite andb_true_iff, (set_eqb_iff Var.eqb Var_eqb_eq), forallb_forall.
  split; intros [H1 H2]; split.
  - intros v. rewrite <- H1. symmetry. apply (set_of_In Var.eqb Var_eqb_eq).
  - intros w Hw E. apply H2 in Hw. subst w. discriminate.
  - intros v. rewrite <- H1. apply (set_of_In Var.eqb Var_eqb_eq).
  - intros w Hw. apply negb_true_iff. destruct (String.eqb w "") eqn:E; auto.
    apply String.eqb_eq in E. exfalso. apply (H2 w Hw E).
Qed.

(** ** [select_unassigned_variable] *)

Lemma unassigned_fold (a : assignment) (vs acc : list Var.t) (v : Var.t) :
  In v (fold_left
          (fun unassigned_variables v =>
             if negb (mem Var.eqb v (keys a))
             then set_add Var.eqb v unassigned_variables
             else unassigned_variables) vs acc)
  <-> In v acc \/ (In v vs /\ ~ In v (keys a)).
Proof.
  revert acc. induction vs as [|x vs IH]; intros acc; simpl; [tauto|].
  rewrite IH. destruct (mem Var.eqb x (keys a)) eqn:E; simpl.
  - apply (mem_In Var.eqb Var_eqb_eq) in E. split; [tauto|].
    intros [H|[[<-|H] H']]; auto. contradiction.
  - apply (mem_not_In Var.eqb Var_eqb_eq) in E.
    rewrite (set_add_In Var.eqb Var_eqb_eq). split.
    + intros [[H| ->]|H]; auto. tauto.
    + intros [H|[[<-|H] H']]; auto.
Qed.

Lemma unassigned_In (cw : Crossword) (a : assignment) (v : Var.t) :
  In v (unassigned cw a) <-> In v (variables cw) /\ ~ In v (keys a).
Proof. unfold unassigned. rewrite unassigned_fold. simpl. tauto. Qed.

Lemma unassigned_NoDup (cw : Crossword) (a : assignment) :
  NoDup (unassigned cw a).
Proof.
  unfold unassigned. generalize (NoDup_nil Var.t).
  generalize (@nil Var.t) as acc.
  induction (variables cw) as [|x vs IH]; intros acc Hacc; simpl; auto.
  apply IH. destruct (negb (mem Var.eqb x (keys a))); auto.
  apply (set_add_NoDup Var.eqb Var_eqb_eq). exact Hacc.
Qed.

Lemma remaining_values_keys (d : domains) (vs : list Var.t) :
  forall acc nrv, remaining_values d vs acc = Ok nrv ->
    forall v, In v (keys nrv) <-> In v (keys acc) \/ In v vs.
Proof.
  induction vs as [|x vs IH]; intros acc nrv H v; simpl in *.
  - injection H as <-. tauto.
  - destruct (dict_getitem Var.eqb d x) as [dx|e|]; simpl in H; try discriminate.
    rewrite (IH _ _ H), (dict_set_keys Var.eqb Var_eqb_eq). intuition auto.
Qed.

Lemma remaining_values_ok (d : domains) (vs : list Var.t) :
  incl vs (keys d) ->
  forall acc, exists nrv, remaining_values d vs acc = Ok nrv.
Proof.
  induction vs as [|x vs IH]; intros Hincl acc; simpl; [eauto|].
  unfold dict_getitem. rewrite (keys_domain_of d x) by (apply Hincl; simpl; auto).
  simpl. apply IH. intros y Hy; apply Hincl; simpl; auto.
Qed.

Lemma head_key_In {V : Type} (l : list (Var.t * V)) (v : Var.t) (n : V)
    (rest : list (Var.t * V)) (l0 : list (Var.t * V)) :
  l = (v, n) :: rest -> (forall p, In p l <-> In p l0) -> In v (keys l0).
Proof.
  intros -> H. change v with (fst (v, n)). apply in_map. apply H. simpl; auto.
Qed.

(** The slot returned is a slot of the puzzle that [assignment] leaves unbound. *)
Lemma select_unassigned_variable_sound (cw : Crossword) (d : domains)
    (a : assignment) (var : Var.t) :
  select_unassigned_variable cw d a = Ok var -> In var (unassigned cw a).
Proof.
  unfold select_unassigned_variable.
  destruct (remaining_values d (unassigned cw a) []) as [nrv|e|] eqn:Hr; simpl;
    try discriminate.
  pose proof (remaining_values_keys d _ _ _ Hr) as Hk.
  assert (Hnrv : forall v, In v (keys nrv) -> In v (unassigned cw a)).
  { intros v Hv. apply Hk in Hv. destruct Hv as [[]|Hv]; exact Hv. }
  assert (Hdeg : forall v, In v (keys (degrees cw (unassigned cw a)))
                           -> In v (unassigned cw a)).
  { intros v Hv. unfold degrees in Hv.
    apply (fold_dict_set_keys Var.eqb Var_eqb_eq
             (fun v => List.length (neighbors cw v))) in Hv.
    destruct Hv as [[]|Hv]; exact Hv. }
  destruct (sorted_by Nat.leb snd nrv) as [|[v0 n0] [|[v1 n1] rest]] eqn:Hs.
  - discriminate.
  - intros [= <-]. apply Hnrv.
    eapply head_key_In; [exact Hs | apply sorted_by_In].
  - destruct (negb (n0 =? n1)).
    + intros [= <-]. apply Hnrv.
      eapply head_key_In; [exact Hs | apply sorted_by_In].
    + destruct (sorted_by geb snd (degrees cw (unassigned cw a)))
        as [|[v n] rest'] eqn:Hs'; [discriminate|].
      intros [= <-]. apply Hdeg.
      eapply head_key_In; [exact Hs' | apply sorted_by_In].
Qed.

(** When every slot has a domain and some slot is unbound, a slot is returned. *)
Lemma select_unassigned_variable_ok (cw : Crossword) (d : domains)
    (a : assignment) :
  keys d = variables cw -> unassigned cw a <> [] ->
  exists var, select_unassigned_variable cw d a = Ok var.
Proof.
  intros Hkeys Hne. unfold select_unassigned_variable.
  destruct (remaining_values_ok d (unassigned cw a)) with (acc := @nil (Var.t * nat))
    as [nrv Hr].
  { intros v Hv. apply unassigned_In in Hv. rewrite Hkeys. tauto. }
  rewrite Hr. simpl.
  pose proof (remaining_values_keys d _ _ _ Hr) as Hk.
  destruct (unassigned cw a) as [|u us] eqn:Hu; [congruence|].
  assert (Hnrv : nrv <> []).
  { intros ->. apply (Hk u). simpl; auto. }
  apply (sorted_by_nonempty Nat.leb snd) in Hnrv.
  destruct (sorted_by Nat.leb snd nrv) as [|[v0 n0] [|[v1 n1] rest]]; [congruence| eauto |].
  destruct (negb (n0 =? n1)); [eauto|].
  assert (Hdeg : degrees cw (u :: us) <> []).
  { intros E.
    assert (H : In u (keys (degrees cw (u :: us)))).
    { unfold degrees.
      apply (fold_dict_set_keys Var.eqb Var_eqb_eq
               (fun v => List.length (neighbors cw v))). simpl; auto. }
    rewrite E in H. destruct H. }
  apply (sorted_by_nonempty geb snd) in Hdeg.
  destruct (sorted_by geb snd (degrees cw (u :: us))) as [|[v n] rest']; [congruence|eauto].
Qed.

(** ** [order_domain_values] *)

Lemma count_conflicts_spec (wordV : string) (i j : nat) (dn : list string) :
  i < String.length wordV ->
  (forall w, In w dn -> j < String.length w) ->
  count_conflicts wordV i j dn
  = Ok (List.length (filter (fun w' => disagree wordV i w' j) dn)).
Proof.
  intros Hi. induction dn as [|w dn IH]; intros Hj; simpl; [reflexivity|].
  destruct (index_ok wordV i Hi) as (cv & Ecv & Gcv).
  destruct (index_ok w j) as (cn & Ecn & Gcn); [apply Hj; simpl; auto|].
  rewrite Ecv, Ecn, IH by (intros; apply Hj; simpl; auto). simpl.
  unfold disagree at 2. rewrite Gcv, Gcn.
  destruct (negb (Ascii.eqb cv cn)); reflexivity.
Qed.

Section OrderDomainValues.

Variable cw : Crossword.
Variable d : domains.
Variable a : assignment.
Variable var : Var.t.

Hypothesis Hwf : wf_crossword cw.
Hypothesis Hkeys : keys d = variables cw.
Hypothesis Hnode : node_consistent d.
Hypothesis Hvar : In var (variables cw).

Lemma eliminated_spec (wordV : string) (ns : list Var.t) :
  String.length wordV = Var.length var ->
  incl ns (neighbors cw var) ->
  eliminated cw d a var wordV ns
  = Ok (list_sum
          (map (fun n =>
                  match overlaps cw var n with
                  | Some (i, j) =>
                      List.length (filter (fun w' => disagree wordV i w' j)
                                          (domain_of d n))
                  | None => 0
                  end)
               (filter (fun n => negb (mem Var.eqb n (keys a))) ns))).
Proof.
  intros Hlen. induction ns as [|n ns IH]; intros Hincl; simpl; [reflexivity|].
  assert (Hincl' : incl ns (neighbors cw var))
    by (intros x Hx; apply Hincl; simpl; auto).
  destruct (negb (mem Var.eqb n (keys a))); simpl; [|auto].
  assert (Hn : In n (neighbors cw var)) by (apply Hincl; simpl; auto).
  destruct (neighbors_overlap cw var n Hwf Hvar Hn) as (i & j & Ho & Hi & Hj).
  apply neighbors_In in Hn. destruct Hn as (Hn & _).
  rewrite Ho. unfold dict_getitem.
  rewrite (keys_domain_of d n) by (rewrite Hkeys; exact Hn). simpl.
  rewrite count_conflicts_spec.
  - simpl. rewrite IH by exact Hincl'. reflexivity.
  - rewrite Hlen. exact Hi.
  - intros w Hw. rewrite (Hnode n w Hw). exact Hj.
Qed.

Lemma eliminated_lcv_count (wordV : string) :
  In wordV (domain_of d var) ->
  eliminated cw d a var wordV (neighbors cw var)
  = Ok (lcv_count cw d a var wordV).
Proof.
  intros H. apply eliminated_spec; [apply Hnode; exact H | apply incl_refl].
Qed.

Lemma lcv_loop_spec (rest : list string) :
  forall done,
    NoDup (done ++ rest) -> incl rest (domain_of d var) ->
    lcv_loop cw d a var rest
      (map (fun w => (w, lcv_count cw d a var w)) done
       ++ map (fun w => (w, 0)) rest)
    = Ok (map (fun w => (w, lcv_count cw d a var w)) (done ++ rest)).
Proof.
  induction rest as [|w rest IH]; intros done Hnd Hincl; simpl.
  - rewrite !app_nil_r. reflexivity.
  - rewrite eliminated_lcv_count by (apply Hincl; simpl; auto). simpl.
    assert (Hfresh : ~ In w (keys (map (fun w => (w, lcv_count cw d a var w)) done))).
    { unfold keys. rewrite map_map. simpl. rewrite map_id.
      apply NoDup_remove_2 in Hnd. intros H. apply Hnd. apply in_or_app; auto. }
    unfold dict_getitem.
    rewrite (dict_get_app String.eqb String_eqb_eq) by exact Hfresh.
    simpl. rewrite String.eqb_refl. simpl.
    rewrite (dict_set_app String.eqb String_eqb_eq) by exact Hfresh.
    simpl. rewrite String.eqb_refl.
    specialize (IH (done ++ [w])).
    rewrite map_app in IH. simpl in IH. rewrite <- !app_assoc in IH. simpl in IH.
    apply IH.
    + exact Hnd.
    + intros x Hx. apply Hincl. simpl; auto.
Qed.

Lemma order_domain_values_eq :
  NoDup (domain_of d var) ->
  order_domain_values cw d var a
  = Ok (map fst (sorted_by Nat.leb snd
                   (map (fun w => (w, lcv_count cw d a var w)) (domain_of d var)))).
Proof.
  intros Hnd. unfold order_domain_values, dict_getitem.
  rewrite (keys_domain_of d var) by (rewrite Hkeys; exact Hvar). simpl.
  rewrite (fold_dict_set_fresh String.eqb String_eqb_eq (fun _ => 0)); auto.
  simpl.
  pose proof (lcv_loop_spec (domain_of d var) [] Hnd (incl_refl _)) as H.
  simpl in H. rewrite H. reflexivity.
Qed.

End OrderDomainValues.

Lemma sorted_by_count (c : string -> nat) (l : list string) :
  StronglySorted (fun w1 w2 => c w1 <= c w2)
    (map fst (sorted_by Nat.leb snd (map (fun w => (w, c w)) l))).
Proof.
  pose proof (sorted_by_sorted (@snd string nat) (map (fun w => (w, c w)) l)) as Hs.
  assert (Hc : Forall (fun p => snd p = c (fst p))
                 (sorted_by Nat.leb snd (map (fun w => (w, c w)) l))).
  { eapply Permutation_Forall; [apply Permutation_sym, sorted_by_perm|].
    apply Forall_forall. intros p Hp. apply in_map_iff in Hp.
    destruct Hp as (w & <- & _). reflexivity. }
  induction Hs as [|p ps Hs IH Hp]; simpl; [constructor|].
  inversion Hc; subst. constructor; auto.
  apply Forall_forall. intros w Hw. apply in_map_iff in Hw.
  destruct Hw as (q & <- & Hq).
  rewrite Forall_forall in Hp, H2.
  rewrite <- H1, <- (H2 q Hq). apply Hp. exact Hq.
Qed.

Lemma sorted_by_count_perm (c : string -> nat) (l : list string) :
  Permutation (map fst (sorted_by Nat.leb snd (map (fun w => (w, c w)) l))) l.
Proof.
  eapply perm_trans.
  - apply Permutation_map. apply sorted_by_perm.
  - rewrite map_map. simpl. rewrite map_id. apply Permutation_refl.
Qed.

(** ** The store of assignments *)

Lemma extends_refl (s : state) : extends s s.
Proof.
  split; [reflexivity|]. split; [exists []; rewrite app_nil_r; reflexivity | lia].
Qed.

Lemma extends_trans (s1 s2 s3 : state) :
  extends s1 s2 -> extends s2 s3 -> extends s1 s3.
Proof.
  intros (D1 & [f1 H1] & N1) (D2 & [f2 H2] & N2).
  split; [congruence|]. split; [|lia].
  exists (f1 ++ f2). rewrite H2, H1, app_assoc. reflexivity.
Qed.

Lemma extends_deref (s s' : state) (r : ref) :
  extends s s' -> r < List.length (heap s) -> deref s' r = deref s r.
Proof.
  intros (_ & [fresh H] & _) Hr. unfold deref. rewrite H. apply app_nth1. exact Hr.
Qed.

Lemma extends_length (s s' : state) :
  extends s s' -> List.length (heap s) <= List.length (heap s').
Proof. intros (_ & [fresh H] & _). rewrite H, length_app. lia. Qed.

Lemma heap_update_last (h : list assignment) (a b : assignment) :
  heap_update (h ++ [a]) (List.length h) b = h ++ [b].
Proof. induction h as [|x h IH]; simpl; [reflexivity | rewrite IH; reflexivity]. Qed.

Lemma deref_last (d : domains) (h : list assignment) (a : assignment) (n : nat) :
  deref (mkState d (h ++ [a]) n) (List.length h) = a.
Proof.
  unfold deref. simpl. rewrite app_nth2, Nat.sub_diag by lia. reflexivity.
Qed.

(** [new_assignment = assignment.copy(); new_assignment[var] = value]
    appends one object, the parent plus one binding, and touches no other. *)
Lemma copy_setitem (assignment : ref) (var : Var.t) (value : string) (s : state) :
  (new_assignment <~ copy assignment ;;
   _ <~ setitem new_assignment var value ;;
   ret new_assignment)%ST s
  = (Ok (List.length (heap s)),
     mkState (self_domains s)
             (heap s ++ [dict_set Var.eqb (deref s assignment) var value])
             (nodes s)).
Proof.
  unfold bind, copy, alloc, setitem, modify, ret. simpl.
  rewrite deref_last, heap_update_last. reflexivity.
Qed.

Lemma backtrack_values_step (cw : Crossword) (rec : ref -> ST state (option ref))
    (assignment : ref) (var : Var.t) (value : string) (rest : list string)
    (s : state) :
  let new_assignment := List.length (heap s) in
  let s' := mkState (self_domains s)
              (heap s ++ [dict_set Var.eqb (deref s assignment) var value])
              (nodes s) in
  backtrack_values cw rec assignment var (value :: rest) s
  = match consistent cw (dict_set Var.eqb (deref s assignment) var value) with
    | Ok true =>
        match rec new_assignment s' with
        | (Ok (Some r), s'') => (Ok (Some r), s'')
        | (Ok None, s'') => backtrack_values cw rec assignment var rest s''
        | (Raise e, s'') => (Raise e, s'')
        | (OutOfFuel, s'') => (OutOfFuel, s'')
        end
    | Ok false => backtrack_values cw rec assignment var rest s'
    | Raise e => (Raise e, s')
    | OutOfFuel => (OutOfFuel, s')
    end.
Proof.
  intros new_assignment s'.
  pose proof (copy_setitem assignment var value s) as H.
  simpl. unfold bind in *. unfold ret in H.
  destruct (copy assignment s) as [[r1|e|] s1]; try discriminate.
  destruct (setitem r1 var value s1) as [[[]|e|] s2]; try discriminate.
  injection H as -> ->. fold new_assignment. fold s'.
  unfold consistent_m, reads.
  assert (E : deref s' new_assignment
              = dict_set Var.eqb (deref s assignment) var value).
  { unfold s', new_assignment. apply deref_last. }
  rewrite E.
  destruct (consistent cw _) as [[|]|e|]; auto.
  destruct (rec new_assignment s') as [[[r|]|e|] s'']; auto.
Qed.

Lemma backtrack_values_extends (cw : Crossword)
    (rec : ref -> ST state (option ref)) (assignment : ref) (var : Var.t) :
  (forall r s, extends s (snd (rec r s))) ->
  forall vals s, extends s (snd (backtrack_values cw rec assignment var vals s)).
Proof.
  intros Hrec. induction vals as [|value rest IH]; intros s.
  - simpl. apply extends_refl.
  - rewrite backtrack_values_step.
    set (s' := mkState _ _ _).
    assert (Hs' : extends s s').
    { split; [reflexivity|]. split; [eexists; reflexivity | simpl; lia]. }
    destruct (consistent cw _) as [[|]|e|]; simpl; auto.
    + specialize (Hrec (List.length (heap s)) s').
      destruct (rec _ s') as [[[r|]|e|] s'']; simpl in *;
        try (eapply extends_trans; eassumption).
      eapply extends_trans; [exact Hs'|].
      eapply extends_trans; [exact Hrec | apply IH].
    + eapply extends_trans; [exact Hs' | apply IH].
Qed.

Lemma backtrack_unfold (cw : Crossword) (fuel : nat) (assignment : ref) (s : state) :
  let s1 := mkState (self_domains s) (heap s) (S (nodes s)) in
  backtrack cw (S fuel) assignment s
  = if assignment_complete cw (deref s assignment) then (Ok (Some assignment), s1)
    else
      match select_unassigned_variable cw (self_domains s) (deref s assignment) with
      | Ok var =>
          match order_domain_values cw (self_domains s) var (deref s assignment) with
          | Ok vals => backtrack_values cw (backtrack cw fuel) assignment var vals s1
          | Raise e => (Raise e, s1)
          | OutOfFuel => (OutOfFuel, s1)
          end
      | Raise e => (Raise e, s1)
      | OutOfFuel => (OutOfFuel, s1)
      end.
Proof.
  simpl. unfold bind, tick, modify, ret, assignment_complete_m,
    select_unassigned_variable_m, order_domain_values_m, reads. simpl.
  change (deref {| self_domains := self_domains s; heap := heap s;
                   nodes := S (nodes s) |} assignment)
    with (deref s assignment).
  destruct (assignment_complete cw (deref s assignment)); [reflexivity|].
  destruct (select_unassigned_variable cw _ _) as [var|e|]; reflexivity.
Qed.

Lemma backtrack_extends (cw : Crossword) (fuel : nat) :
  forall assignment s, extends s (snd (backtrack cw fuel assignment s)).
Proof.
  induction fuel as [|fuel IH]; intros assignment s.
  - simpl. apply extends_refl.
  - rewrite backtrack_unfold.
    set (s1 := mkState _ _ _).
    assert (Hs1 : extends s s1).
    { split; [reflexivity|]. split; [exists []; simpl; rewrite app_nil_r; reflexivity|].
      simpl. lia. }
    destruct (assignment_complete cw _); [exact Hs1|].
    destruct (select_unassigned_variable cw _ _) as [var|e|]; try exact Hs1.
    destruct (order_domain_values cw _ _ _) as [vals|e|]; try exact Hs1.
    eapply extends_trans; [exact Hs1|].
    apply backtrack_values_extends. exact IH.
Qed.

(** Every call of [backtrack] is a search node. *)
Lemma backtrack_counts (cw : Crossword) (fuel : nat) (assignment : ref) (s : state) :
  nodes s < nodes (snd (backtrack cw (S fuel) assignment s)).
Proof.
  rewrite backtrack_unfold.
  set (s1 := mkState _ _ _).
  assert (H1 : nodes s < nodes s1) by (simpl; lia).
  destruct (assignment_complete cw _); [exact H1|].
  destruct (select_unassigned_variable cw _ _) as [var|e|]; try exact H1.
  destruct (order_domain_values cw _ _ _) as [vals|e|]; try exact H1.
  pose proof (backtrack_values_extends cw (backtrack cw fuel) assignment var
                (backtrack_extends cw fuel) vals s1) as (_ & _ & H).
  lia.
Qed.

(** ** [backtrack] computes [backtrack_fun] *)

Lemma backtrack_values_refines (cw : Crossword) (d : domains)
    (rec : ref -> ST state (option ref))
    (recf : assignment -> outcome (option assignment))
    (assignment : ref) (var : Var.t) :
  (forall r s, extends s (snd (rec r s))) ->
  (forall r s, r < List.length (heap s) -> self_domains s = d ->
     by_value (snd (rec r s)) (fst (rec r s)) = recf (deref s r)) ->
  forall vals s,
    assignment < List.length (heap s) -> self_domains s = d ->
    by_value (snd (backtrack_values cw rec assignment var vals s))
             (fst (backtrack_values cw rec assignment var vals s))
    = backtrack_values_fun cw recf (deref s assignment) var vals.
Proof.
  intros Hext Hrec. induction vals as [|value rest IH]; intros s Hr Hd.
  - reflexivity.
  - rewrite backtrack_values_step. simpl.
    set (s' := mkState _ _ _).
    assert (Hs' : extends s s').
    { split; [reflexivity|]. split; [eexists; reflexivity | simpl; lia]. }
    assert (Hnew : List.length (heap s) < List.length (heap s')).
    { unfold s'. simpl. rewrite length_app. simpl. lia. }
    destruct (consistent cw _) as [[|]|e|]; simpl; auto.
    + specialize (Hrec (List.length (heap s)) s' Hnew Hd).
      specialize (Hext (List.length (heap s)) s').
      unfold s' at 3 in Hrec. rewrite deref_last in Hrec.
      destruct (rec _ s') as [[[r|]|e|] s'']; simpl in *; rewrite <- Hrec; simpl; auto.
      assert (Hs'' : extends s s'') by (eapply extends_trans; eassumption).
      rewrite <- (extends_deref s s'' assignment Hs'' Hr).
      apply IH.
      * pose proof (extends_length s s'' Hs''). lia.
      * destruct Hs'' as [E _]. congruence.
    + rewrite <- (extends_deref s s' assignment Hs' Hr).
      apply IH; [lia | exact Hd].
Qed.

Lemma backtrack_refines (cw : Crossword) (fuel : nat) :
  forall assignment s,
    assignment < List.length (heap s) ->
    by_value (snd (backtrack cw fuel assignment s))
             (fst (backtrack cw fuel assignment s))
    = backtrack_fun cw (self_domains s) fuel (deref s assignment).
Proof.
  induction fuel as [|fuel IH]; intros assignment s Hr.
  - reflexivity.
  - rewrite backtrack_unfold. simpl.
    set (s1 := mkState _ _ _).
    destruct (assignment_complete cw _); [reflexivity|].
    destruct (select_unassigned_variable cw _ _) as [var|e|]; try reflexivity.
    simpl.
    destruct (order_domain_values cw _ _ _) as [vals|e|]; try reflexivity.
    simpl.
    change (deref s assignment) with (deref s1 assignment).
    apply backtrack_values_refines with (d := self_domains s); auto.
    + apply backtrack_extends.
    + intros r s' Hr' Hd. rewrite <- Hd. apply IH. exact Hr'.
Qed.

(** [solve] is propagation followed by [backtrack] on a new, empty dict. *)
Lemma solve_unfold (cw : Crossword) (fuel : nat) :
  solve cw fuel (init_state cw)
  = match fst (ac3 cw None fuel
                 (snd (enforce_node_consistency (init_domains cw)))) with
    | Ok _ => backtrack cw fuel 0 (mkState (propagated cw fuel) [[]] 0)
    | Raise e => (Raise e, mkState (propagated cw fuel) [] 0)
    | OutOfFuel => (OutOfFuel, mkState (propagated cw fuel) [] 0)
    end.
Proof.
  unfold solve, bind, on_domains, new_dict, alloc, init_state, propagated. simpl.
  destruct (ac3 cw None fuel _) as [[b|e|] d2]; reflexivity.
Qed.

Lemma run_solve_eq (cw : Crossword) (fuel : nat) :
  run_solve cw fuel
  = match fst (ac3 cw None fuel
                 (snd (enforce_node_consistency (init_domains cw)))) with
    | Ok _ => backtrack_fun cw (propagated cw fuel) fuel []
    | Raise e => Raise e
    | OutOfFuel => OutOfFuel
    end.
Proof.
  unfold run_solve. rewrite solve_unfold.
  destruct (fst (ac3 cw None fuel _)) as [b|e|]; try reflexivity.
  pose proof (backtrack_refines cw fuel 0 (mkState (propagated cw fuel) [[]] 0)) as H.
  simpl in H. unfold by_value in H.
  destruct (backtrack cw fuel 0 _) as [r s']. simpl in H. apply H. lia.
Qed.

(** ** What [backtrack] returns *)

Section Search.

Variable cw : Crossword.
Variable d : domains.

(** An assignment that [backtrack] accepts is complete, and it is the
    argument of the call or has passed [consistent]. *)
Lemma backtrack_values_fun_accepted
    (rec : assignment -> outcome (option assignment)) (a : assignment)
    (var : Var.t) (P : assignment -> Prop) :
  (forall value r, NoDup (keys (dict_set Var.eqb a var value)) ->
     consistent cw (dict_set Var.eqb a var value) = Ok true ->
     rec (dict_set Var.eqb a var value) = Ok (Some r) -> P r) ->
  NoDup (keys a) ->
  forall vals r, backtrack_values_fun cw rec a var vals = Ok (Some r) -> P r.
Proof.
  intros Hrec Hnd. induction vals as [|value rest IH]; intros r; simpl; [discriminate|].
  destruct (consistent cw _) as [[|]|e|] eqn:Hc; simpl; try discriminate; auto.
  destruct (rec _) as [[r'|]|e|] eqn:Hr; simpl; try discriminate; auto.
  intros [= <-]. eapply Hrec; eauto.
  apply (dict_set_keys_NoDup Var.eqb Var_eqb_eq). exact Hnd.
Qed.

Lemma backtrack_fun_accepted (fuel : nat) :
  forall a r,
    NoDup (keys a) -> consistent cw a = Ok true ->
    backtrack_fun cw d fuel a = Ok (Some r) ->
    NoDup (keys r) /\ consistent cw r = Ok true
    /\ assignment_complete cw r = true.
Proof.
  induction fuel as [|fuel IH]; intros a r Hnd Hc; simpl; [discriminate|].
  destruct (assignment_complete cw a) eqn:Hcomplete.
  - intros [= <-]. auto.
  - destruct (select_unassigned_variable cw d a) as [var|e|]; simpl; try discriminate.
    destruct (order_domain_values cw d var a) as [vals|e|]; simpl; try discriminate.
    intros H.
    apply (backtrack_values_fun_accepted (backtrack_fun cw d fuel) a var
             (fun r => NoDup (keys r) /\ consistent cw r = Ok true
                       /\ assignment_complete cw r = true)) with (vals := vals);
      auto.
    intros value r' Hnd' Hc' Hr. eapply IH; eauto.
Qed.

Hypothesis Hwf : wf_crossword cw.

Lemma accepted_valid (r : assignment) :
  NoDup (keys r) -> consistent cw r = Ok true ->
  assignment_complete cw r = true ->
  valid_solution cw r.
Proof.
  intros Hnd Hc Hcomplete.
  apply consistent_true in Hc; [|exact Hnd].
  destruct Hc as (Hdist & Hfit & Hagree).
  apply assignment_complete_true in Hcomplete. destruct Hcomplete as [Hk _].
  split; [split; assumption|]. split; [assumption|]. split; [assumption|].
  intros v n wv wn i j Hv Hn Hne Ho.
  assert (Hvin : In v (variables cw)).
  { apply Hk. apply (dict_get_keys Var.eqb Var_eqb_eq). eauto. }
  assert (Hnin : In n (variables cw)).
  { apply Hk. apply (dict_get_keys Var.eqb Var_eqb_eq). eauto. }
  destruct (Hagree v n wv wn Hv Hn) as (i' & j' & Ho' & Ha).
  - eapply overlap_neighbors; eauto.
  - rewrite Ho in Ho'. injection Ho' as <- <-. exact Ha.
Qed.

Lemma backtrack_fun_valid (fuel : nat) (a r : assignment) :
  NoDup (keys a) -> consistent cw a = Ok true ->
  backtrack_fun cw d fuel a = Ok (Some r) ->
  valid_solution cw r.
Proof.
  intros Hnd Hc H.
  destruct (backtrack_fun_accepted fuel a r Hnd Hc H) as (H1 & H2 & H3).
  apply accepted_valid; assumption.
Qed.

End Search.

(** ** The domains that [solve] hands to [backtrack] *)

Lemma ac3_loop_invariant (cw : Crossword) (P : domains -> Prop) :
  (forall x y d, P d -> P (snd (revise cw x y d))) ->
  forall fuel queue d, P d -> P (snd (ac3_loop cw fuel queue d)).
Proof.
  intros Hrev. induction fuel as [|fuel IH]; intros [|[x y] queue] d Hd;
    try exact Hd.
  rewrite ac3_loop_step. specialize (Hrev x y d Hd).
  destruct (revise cw x y d) as [[r|e|] d']; simpl in *; auto.
Qed.

Lemma revise_NoDup (cw : Crossword) (x y : Var.t) (d : domains) :
  (forall v, NoDup (domain_of d v)) ->
  forall v, NoDup (domain_of (snd (revise cw x y d)) v).
Proof.
  intros Hd v.
  destruct (revise_cases cw x y d)
    as [[_ E]|[[e E]|[E|(oi & oj & dx & rm & _ & Hx & _ & E)]]];
    rewrite E; simpl; auto.
  rewrite domain_of_set. destruct (Var.eqb v x); auto.
  apply remove_all_NoDup. specialize (Hd x). unfold domain_of in Hd.
  rewrite Hx in Hd. exact Hd.
Qed.

Lemma enforce_node_consistency_NoDup (d : domains) :
  (forall v, NoDup (domain_of d v)) ->
  forall v, NoDup (domain_of (snd (enforce_node_consistency d)) v).
Proof.
  intros Hd v. specialize (Hd v). unfold enforce_node_consistency, domain_of in *.
  simpl.
  rewrite (dict_get_map (fun k ws => remove_all (node_words2remove k ws) ws)).
  destruct (dict_get Var.eqb d v); simpl; [|constructor].
  apply remove_all_NoDup. exact Hd.
Qed.

Lemma init_domains_NoDup (cw : Crossword) :
  wf_crossword cw -> forall v, NoDup (domain_of (init_domains cw) v).
Proof.
  intros Hwf v. unfold domain_of.
  destruct (dict_get Var.eqb (init_domains cw) v) as [ws|] eqn:E; [|constructor].
  apply (dict_get_In Var.eqb Var_eqb_eq) in E.
  rewrite init_domains_eq in E by apply (wf_variables Hwf).
  apply in_map_iff in E. destruct E as (x & [= _ <-] & _).
  apply (wf_words Hwf).
Qed.

Section Propagated.

Variable cw : Crossword.
Variable fuel : nat.
Hypothesis Hwf : wf_crossword cw.

Lemma propagated_shrinks : shrinks (init_domains cw) (propagated cw fuel).
Proof.
  eapply shrinks_trans; [apply enforce_node_consistency_shrinks|].
  apply ac3_loop_shrinks.
Qed.

Lemma propagated_keys : keys (propagated cw fuel) = variables cw.
Proof.
  destruct propagated_shrinks as [H _]. rewrite H.
  apply init_domains_keys. apply (wf_variables Hwf).
Qed.

Lemma propagated_node_consistent : node_consistent (propagated cw fuel).
Proof.
  eapply shrinks_node_consistent; [apply ac3_loop_shrinks|].
  apply enforce_node_consistency_sound.
Qed.

Lemma propagated_NoDup (v : Var.t) : NoDup (domain_of (propagated cw fuel) v).
Proof.
  revert v. unfold propagated, ac3.
  apply (ac3_loop_invariant cw (fun d => forall v, NoDup (domain_of d v))).
  - intros x y d. apply revise_NoDup.
  - apply enforce_node_consistency_NoDup. apply init_domains_NoDup. exact Hwf.
Qed.

Lemma propagation_ok :
  List.length (initial_arcs cw) <= fuel ->
  fst (ac3 cw None fuel (snd (enforce_node_consistency (init_domains cw))))
  = Ok true.
Proof.
  intros Hfuel. unfold ac3.
  destruct (ac3_loop_ok cw Hwf (initial_arcs cw) fuel
              (snd (enforce_node_consistency (init_domains cw)))) as [d' E].
  - destruct (enforce_node_consistency_shrinks (init_domains cw)) as [H _].
    rewrite H. apply init_domains_keys. apply (wf_variables Hwf).
  - apply enforce_node_consistency_sound.
  - intros x y H. apply initial_arcs_In in H. tauto.
  - exact Hfuel.
  - rewrite E. reflexivity.
Qed.

End Propagated.

(** ** Search below an empty domain *)

Section EmptyDomain.

Variable cw : Crossword.
Variable d : domains.

Hypothesis Hwf : wf_crossword cw.
Hypothesis Hkeys : keys d = variables cw.
Hypothesis Hnode : node_consistent d.
Hypothesis Hsets : forall v, NoDup (domain_of d v).

Lemma from_domains_lengths (a : assignment) : from_domains cw d a -> lengths_fit a.
Proof. intros (_ & _ & H) v w Hv. apply Hnode. apply H. exact Hv. Qed.

Lemma from_domains_set (a : assignment) (var : Var.t) (value : string) :
  from_domains cw d a -> In var (variables cw) -> In value (domain_of d var) ->
  from_domains cw d (dict_set Var.eqb a var value).
Proof.
  intros (Hnd & Hincl & Hdom) Hvar Hvalue. split; [|split].
  - apply (dict_set_keys_NoDup Var.eqb Var_eqb_eq). exact Hnd.
  - intros v Hv. apply (dict_set_keys Var.eqb Var_eqb_eq) in Hv.
    destruct Hv as [Hv| ->]; auto.
  - intros v w. rewrite (dict_get_set Var.eqb Var_eqb_eq).
    destruct (Var.eqb v var) eqn:E; [|apply Hdom].
    apply Var_eqb_eq in E. subst v. intros [= <-]. exact Hvalue.
Qed.

Lemma unassigned_decreases (a : assignment) (var : Var.t) (value : string) :
  In var (unassigned cw a) ->
  List.length (unassigned cw (dict_set Var.eqb a var value))
  < List.length (unassigned cw a).
Proof.
  intros Hvar.
  assert (H : List.length (var :: unassigned cw (dict_set Var.eqb a var value))
              <= List.length (unassigned cw a)).
  { apply NoDup_incl_length.
    - constructor; [|apply unassigned_NoDup].
      intros Hin. apply unassigned_In in Hin. destruct Hin as [_ Hin].
      apply Hin. apply (dict_set_keys Var.eqb Var_eqb_eq). auto.
    - intros v [<-|Hv]; auto.
      apply unassigned_In in Hv. destruct Hv as [Hv Hnot].
      apply unassigned_In. split; auto.
      intros Hin. apply Hnot. apply (dict_set_keys Var.eqb Var_eqb_eq). auto. }
  simpl in H. lia.
Qed.

Variable v0 : Var.t.
Hypothesis Hv0 : In v0 (variables cw).
Hypothesis Hempty : domain_of d v0 = [].

Lemma empty_domain_unassigned (a : assignment) :
  from_domains cw d a -> In v0 (unassigned cw a).
Proof.
  intros (_ & _ & Hdom). apply unassigned_In. split; auto.
  intros Hin. apply (dict_get_keys Var.eqb Var_eqb_eq) in Hin.
  destruct Hin as [w Hw]. apply Hdom in Hw. rewrite Hempty in Hw. destruct Hw.
Qed.

Lemma backtrack_values_fun_fails
    (rec : assignment -> outcome (option assignment)) (a : assignment)
    (var : Var.t) :
  from_domains cw d a -> In var (unassigned cw a) ->
  (forall value, In value (domain_of d var) ->
     rec (dict_set Var.eqb a var value) = Ok None) ->
  forall vals, incl vals (domain_of d var) ->
    backtrack_values_fun cw rec a var vals = Ok None.
Proof.
  intros Ha Hvar Hrec. induction vals as [|value rest IH]; intros Hincl; simpl; auto.
  assert (Hvalue : In value (domain_of d var)) by (apply Hincl; simpl; auto).
  assert (Hrest : incl rest (domain_of d var))
    by (intros x Hx; apply Hincl; simpl; auto).
  apply unassigned_In in Hvar. destruct Hvar as [Hvar _].
  pose proof (from_domains_set a var value Ha Hvar Hvalue) as Hnew.
  destruct (consistent_ok cw (dict_set Var.eqb a var value) Hwf) as [b ->].
  - apply from_domains_lengths. exact Hnew.
  - destruct Hnew as (_ & H & _). exact H.
  - simpl. destruct b; auto. rewrite Hrec by exact Hvalue. simpl. auto.
Qed.

Lemma backtrack_fun_fails (fuel : nat) :
  forall a, from_domains cw d a ->
    List.length (unassigned cw a) < fuel ->
    backtrack_fun cw d fuel a = Ok None.
Proof.
  induction fuel as [|fuel IH]; intros a Ha Hfuel; [lia|]. simpl.
  pose proof (empty_domain_unassigned a Ha) as Hun.
  destruct (assignment_complete cw a) eqn:Hc.
  - apply assignment_complete_true in Hc. destruct Hc as [Hc _].
    apply unassigned_In in Hun. destruct Hun as [H1 H2].
    exfalso. apply H2. apply Hc. exact H1.
  - destruct (select_unassigned_variable_ok cw d a Hkeys) as [var Hvar].
    { intros E. rewrite E in Hun. destruct Hun. }
    rewrite Hvar. simpl.
    apply select_unassigned_variable_sound in Hvar.
    pose proof Hvar as Hvar'. apply unassigned_In in Hvar'. destruct Hvar' as [Hin _].
    rewrite (order_domain_values_eq cw d a var Hwf Hkeys Hnode Hin (Hsets var)).
    simpl. apply backtrack_values_fun_fails; auto.
    + intros value Hvalue. apply IH.
      * apply from_domains_set; auto.
      * pose proof (unassigned_decreases a var value Hvar). lia.
    + intros w Hw. eapply Permutation_in; [apply sorted_by_count_perm | exact Hw].
Qed.

End EmptyDomain.

Lemma from_domains_nil (cw : Crossword) (d : domains) : from_domains cw d [].
Proof.
  split; [constructor|]. split; [intros v []|]. intros v w H. discriminate.
Qed.

Lemma unassigned_length (cw : Crossword) (a : assignment) :
  List.length (unassigned cw a) <= List.length (variables cw).
Proof.
  apply NoDup_incl_length; [apply unassigned_NoDup|].
  intros v Hv. apply unassigned_In in Hv. tauto.
Qed.

(** ** Which words [revise] removes *)

Lemma has_partner_iff (w : string) (oi : nat) (dy : list string) (oj : nat) :
  has_partner w oi dy oj = true <-> exists w', In w' dy /\ agree w oi w' oj.
Proof.
  unfold has_partner. rewrite existsb_exists. unfold agree, disagree.
  split.
  - intros (w' & Hin & H). exists w'. split; auto.
    destruct (String.get oi w) as [c|]; destruct (String.get oj w') as [c'|];
      simpl in H; try discriminate.
    + rewrite ?andb_true_r, ?negb_involutive in H. apply Ascii.eqb_eq in H.
      subst. eauto.
  - intros (w' & Hin & c & H1 & H2). exists w'. split; auto.
    rewrite H1, H2. simpl. rewrite Ascii.eqb_refl. reflexivity.
Qed.

Lemma chars_at_In (dy : list string) (oj : nat) :
  forall charY, chars_at dy oj = Ok charY ->
    forall c, In c charY <-> exists w', In w' dy /\ String.get oj w' = Some c.
Proof.
  induction dy as [|w dy IH]; intros charY H c; simpl in H.
  - injection H as <-. split; [intros [] | intros (w' & [] & _)].
  - unfold index in H. destruct (String.get oj w) as [c0|] eqn:E; simpl in H;
      [|discriminate].
    destruct (chars_at dy oj) as [cs|e|]; simpl in H; try discriminate.
    injection H as <-. simpl. rewrite (IH cs eq_refl c). split.
    + intros [<-|(w' & Hin & Hw')]; [exists w | exists w']; simpl; auto.
    + intros (w' & [<-|Hin] & Hw'); [left; congruence | right; eauto].
Qed.

Lemma revise_scan_In (d : domains) (y : Var.t) (oi oj : nat) (dx : list string) :
  forall acc words2remove,
    revise_scan d y oi oj dx acc = Ok words2remove ->
    forall w, In w words2remove
              <-> In w acc
                  \/ (In w dx /\ has_partner w oi (domain_of d y) oj = false).
Proof.
  induction dx as [|wordX rest IH]; intros acc rm H w; simpl in H.
  - injection H as <-. simpl. tauto.
  - unfold index in H.
    destruct (String.get oi wordX) as [c|] eqn:Ec; simpl in H; [|discriminate].
    unfold dict_getitem in H.
    destruct (dict_get Var.eqb d y) as [dy|] eqn:Ey; simpl in H; [|discriminate].
    destruct (chars_at dy oj) as [cs|e|] eqn:Ecs; simpl in H; try discriminate.
    assert (Hdy : domain_of d y = dy) by (unfold domain_of; rewrite Ey; reflexivity).
    assert (Hp : has_partner wordX oi dy oj = mem Ascii.eqb c cs).
    { destruct (mem Ascii.eqb c cs) eqn:Em.
      - apply (mem_In Ascii.eqb Ascii_eqb_eq) in Em.
        apply (chars_at_In dy oj cs Ecs) in Em. destruct Em as (w' & Hin & Hw').
        apply has_partner_iff. exists w'. split; auto. exists c. auto.
      - apply (mem_not_In Ascii.eqb Ascii_eqb_eq) in Em.
        destruct (has_partner wordX oi dy oj) eqn:E; auto.
        apply has_partner_iff in E. destruct E as (w' & Hin & c' & H1 & H2).
        exfalso. apply Em. apply (chars_at_In dy oj cs Ecs). exists w'.
        split; auto. congruence. }
    rewrite Hdy. destruct (mem Ascii.eqb c cs); simpl in H;
      rewrite (IH _ _ H w), Hdy; simpl.
    + split; [tauto|]. intros [Hw|[[<-|Hw] Hf]]; auto. congruence.
    + rewrite (set_add_In String.eqb String_eqb_eq). split.
      * intros [[Hw| ->]|Hw]; auto. tauto.
      * intros [Hw|[[<-|Hw] Hf]]; auto.
Qed.

(** After [revise(x, y)] has returned, Domain(x) holds exactly the words it
    held before that have a partner in Domain(y). *)
Lemma revise_removes (cw : Crossword) (x y : Var.t) (d d' : domains)
    (r : option bool) (oi oj : nat) :
  revise cw x y d = (Ok r, d') -> overlaps cw x y = Some (oi, oj) ->
  forall w, In w (domain_of d' x)
            <-> In w (domain_of d x)
                /\ exists w', In w' (domain_of d y) /\ agree w oi w' oj.
Proof.
  intros H Ho w. rewrite <- has_partner_iff.
  destruct (revise_cases cw x y d)
    as [[E _]|[[e E]|[E|(oi' & oj' & dx & rm & Ho' & Hx & Hs & E)]]];
    try congruence.
  rewrite E in H. injection H as <- <-.
  rewrite Ho in Ho'. injection Ho' as <- <-.
  rewrite domain_of_set, Var_eqb_refl, remove_all_In.
  rewrite (revise_scan_In d y oi oj dx [] rm Hs w).
  unfold domain_of at 2. rewrite Hx. simpl.
  destruct (has_partner w oi (domain_of d y) oj); intuition congruence.
Qed.

(** ** The fuel of the model suffices

    None of the loops over a list can run out of fuel; the recursion of
    [backtrack] is at most as deep as there are unbound slots, and [ac3]
    iterates once per arc of its queue. *)

Lemma obind_fuel {A B : Type} (m : outcome A) (k : A -> outcome B) :
  m <> OutOfFuel -> (forall a, k a <> OutOfFuel) -> obind m k <> OutOfFuel.
Proof. destruct m; simpl; auto; discriminate. Qed.

Lemma index_fuel (w : string) (k : nat) : index w k <> OutOfFuel.
Proof. unfold index. destruct (String.get k w); discriminate. Qed.

Lemma dict_getitem_fuel {K V : Type} (keq : K -> K -> bool) (d : list (K * V))
    (k : K) :
  dict_getitem keq d k <> OutOfFuel.
Proof. unfold dict_getitem. destruct (dict_get keq d k); discriminate. Qed.

Ltac fuel :=
  repeat first
    [ apply index_fuel | apply dict_getitem_fuel | discriminate | assumption
    | lazymatch goal with
      | |- obind _ _ <> _ => apply obind_fuel
      end
    | lazymatch goal with
      | |- _ <> _ => fail
      | |- _ => intro
      end ].

Lemma consistent_fuel (cw : Crossword) (a : assignment) :
  consistent cw a <> OutOfFuel.
Proof.
  assert (Hn : forall v ns, consistent_neighbors cw a v ns <> OutOfFuel).
  { intros v ns. induction ns as [|n ns IH]; simpl; [discriminate|].
    destruct (mem Var.eqb n (keys a)); [|exact IH].
    destruct (overlaps cw v n) as [[o0 o1]|]; fuel.
    destruct (negb _); [discriminate | exact IH]. }
  assert (Hl : forall vs, consistent_loop cw a vs <> OutOfFuel).
  { induction vs as [|v vs IH]; simpl; [discriminate|]. fuel.
    destruct (negb _); [discriminate|].
    apply obind_fuel; [apply Hn|].
    intros b. destruct b; [exact IH | discriminate]. }
  unfold consistent. destruct (negb _); [discriminate | apply Hl].
Qed.

Lemma order_domain_values_fuel (cw : Crossword) (d : domains) (var : Var.t)
    (a : assignment) :
  order_domain_values cw d var a <> OutOfFuel.
Proof.
  assert (Hc : forall w i j dn, count_conflicts w i j dn <> OutOfFuel).
  { intros w i j dn. induction dn as [|wordN dn IH]; simpl; fuel. }
  assert (He : forall w ns, eliminated cw d a var w ns <> OutOfFuel).
  { intros w ns. induction ns as [|n ns IH]; simpl; [discriminate|].
    destruct (negb _); [|exact IH].
    destruct (overlaps cw var n) as [[i j]|]; fuel. apply Hc. }
  assert (Hl : forall dv ne, lcv_loop cw d a var dv ne <> OutOfFuel).
  { induction dv as [|w dv IH]; intros ne; simpl; fuel; [apply He | apply IH]. }
  unfold order_domain_values. fuel. apply Hl.
Qed.

Lemma select_unassigned_variable_fuel (cw : Crossword) (d : domains)
    (a : assignment) :
  select_unassigned_variable cw d a <> OutOfFuel.
Proof.
  assert (Hr : forall vs acc, remaining_values d vs acc <> OutOfFuel).
  { induction vs as [|v vs IH]; intros acc; simpl; fuel. apply IH. }
  unfold select_unassigned_variable. fuel; [apply Hr|].
  destruct (sorted_by Nat.leb snd _) as [|[v0 n0] [|[v1 n1] rest]];
    try discriminate.
  destruct (negb _); [discriminate|].
  destruct (sorted_by geb snd _) as [|[v n] rest']; discriminate.
Qed.

Lemma backtrack_values_fun_fuel (cw : Crossword)
    (rec : assignment -> outcome (option assignment)) (a : assignment)
    (var : Var.t) (vals : list string) :
  (forall value, rec (dict_set Var.eqb a var value) <> OutOfFuel) ->
  backtrack_values_fun cw rec a var vals <> OutOfFuel.
Proof.
  intros Hrec. induction vals as [|value rest IH]; simpl; [discriminate|].
  apply obind_fuel; [apply consistent_fuel|].
  intros [|]; [|exact IH].
  apply obind_fuel; [apply Hrec|]. intros [r|]; [discriminate | exact IH].
Qed.

Lemma backtrack_fun_enough_fuel (cw : Crossword) (d : domains) (fuel : nat) :
  forall a, List.length (unassigned cw a) < fuel ->
    backtrack_fun cw d fuel a <> OutOfFuel.
Proof.
  induction fuel as [|fuel IH]; intros a Hfuel; [lia|]. simpl.
  destruct (assignment_complete cw a); [discriminate|].
  destruct (select_unassigned_variable cw d a) as [var|e|] eqn:Hs; simpl;
    [|discriminate|].
  - apply select_unassigned_variable_sound in Hs.
    apply obind_fuel; [apply order_domain_values_fuel|].
    intros vals. apply backtrack_values_fun_fuel.
    intros value. apply IH.
    pose proof (unassigned_decreases cw a var value Hs). lia.
  - exfalso. exact (select_unassigned_variable_fuel cw d a Hs).
Qed.

(** With one unit of fuel per arc and per slot, and one more, [solve] returns
    or raises. *)
Lemma solve_enough_fuel (cw : Crossword) (fuel : nat) :
  List.length (initial_arcs cw) <= fuel ->
  List.length (variables cw) < fuel ->
  fst (solve cw fuel (init_state cw)) <> OutOfFuel.
Proof.
  intros Harcs Hvars. rewrite solve_unfold.
  pose proof (ac3_loop_enough_fuel cw (initial_arcs cw) fuel
                (snd (enforce_node_consistency (init_domains cw))) Harcs) as Hac3.
  unfold ac3 in *.
  destruct (fst (ac3_loop cw fuel (initial_arcs cw) _)) as [b|e|];
    [|simpl; discriminate|congruence].
  set (s := mkState (propagated cw fuel) [[]] 0).
  pose proof (backtrack_refines cw fuel 0 s) as Href.
  pose proof (backtrack_fun_enough_fuel cw (self_domains s) fuel (deref s 0)) as Hb.
  destruct (backtrack cw fuel 0 s) as [res s']. simpl in *.
  intros ->. apply Hb.
  - pose proof (unassigned_length cw (deref s 0)). lia.
  - rewrite <- Href by lia. reflexivity.
Qed.

(** ** The example puzzles are well formed *)

Ltac slots H := simpl in H; repeat (destruct H as [<-|H]); try contradiction.

Ltac wf_example :=
  constructor;
  [ repeat constructor; simpl; intuition discriminate
  | assumption
  | intros x y i j Hx Hy Ho; slots Hx; slots Hy;
    vm_compute in Ho; try discriminate; injection Ho as <- <-; reflexivity
  | intros x y i j Hx Hy Ho; slots Hx; slots Hy;
    vm_compute in Ho; try discriminate; injection Ho as <- <-; simpl; lia ].

Lemma plus_wf (ws : list string) : NoDup ws -> wf_crossword (Examples.plus ws).
Proof. intros Hws. wf_example. Qed.

Lemma tee_wf (ws : list string) : NoDup ws -> wf_crossword (Examples.tee ws).
Proof. intros Hws. wf_example. Qed.

Lemma aitch_wf (ws : list string) : NoDup ws -> wf_crossword (Examples.aitch ws).
Proof. intros Hws. wf_example. Qed.

Ltac distinct := repeat constructor; simpl; intuition discriminate.

(** * The claims *)

(** C1, as the code has it.  Every assignment that [solve()] returns, and
    every assignment that [backtrack] returns when it is called on a
    consistent assignment (as [solve] and [backtrack] itself call it; a
    complete argument is returned unchecked), binds every slot of the puzzle
    to a word, the words are pairwise distinct, each word has the length of
    its slot, and any two overlapping slots hold the same character at
    their overlap indices. *)
Theorem solve_returns_valid_assignment (cw : Crossword) (fuel : nat)
    (r : ref) (s' : state) :
  wf_crossword cw ->
  (solve cw fuel (init_state cw) = (Ok (Some r), s')
   \/ exists s assignment,
        assignment < List.length (heap s)
        /\ NoDup (keys (deref s assignment))
        /\ consistent cw (deref s assignment) = Ok true
        /\ backtrack cw fuel assignment s = (Ok (Some r), s')) ->
  valid_solution cw (deref s' r).
Proof.
  intros Hwf H.
  assert (Hb : exists s assignment,
             assignment < List.length (heap s)
             /\ NoDup (keys (deref s assignment))
             /\ consistent cw (deref s assignment) = Ok true
             /\ backtrack cw fuel assignment s = (Ok (Some r), s')).
  { destruct H as [H|H]; [|exact H].
    rewrite solve_unfold in H.
    destruct (fst (ac3 cw None fuel _)) as [b|e|]; try discriminate.
    exists (mkState (propagated cw fuel) [[]] 0), 0.
    split; [simpl; lia|]. split; [constructor|]. split; [reflexivity | exact H]. }
  destruct Hb as (s & assignment & Hr & Hnd & Hc & Hrun).
  pose proof (backtrack_refines cw fuel assignment s Hr) as Href.
  rewrite Hrun in Href. simpl in Href.
  eapply backtrack_fun_valid; eauto.
Qed.

Lemma solve_returns_valid_assignment_witness :
  valid_solution Examples.cat_car_art
                 [(Examples.across3, "cat"%string); (Examples.down3, "car"%string)].
Proof.
  apply (solve_returns_valid_assignment Examples.cat_car_art 3 3
           (snd (solve Examples.cat_car_art 3 (init_state Examples.cat_car_art)))).
  - apply plus_wf. distinct.
  - left. vm_compute. reflexivity.
Defined.

(** C1, as stated, fails for [backtrack]: called on the complete assignment
    that binds both crossing slots to cat, it returns that assignment, which
    [consistent] rejects and whose words are not pairwise distinct. *)
Lemma backtrack_returns_inconsistent_argument :
  fst (backtrack Examples.cat_car_art 3 0
         (mkState (propagated Examples.cat_car_art 2)
                  [[(Examples.across3, "cat"%string);
                    (Examples.down3, "cat"%string)]] 0))
  = Ok (Some 0)
  /\ deref (snd (backtrack Examples.cat_car_art 3 0
                   (mkState (propagated Examples.cat_car_art 2)
                            [[(Examples.across3, "cat"%string);
                              (Examples.down3, "cat"%string)]] 0))) 0
     = [(Examples.across3, "cat"%string); (Examples.down3, "cat"%string)]
  /\ consistent Examples.cat_car_art
       [(Examples.across3, "cat"%string); (Examples.down3, "cat"%string)]
     = Ok false
  /\ ~ valid_solution Examples.cat_car_art
         [(Examples.across3, "cat"%string); (Examples.down3, "cat"%string)].
Proof.
  split; [vm_compute; reflexivity|]. split; [vm_compute; reflexivity|].
  split; [vm_compute; reflexivity|].
  intros (_ & Hdist & _). unfold distinct_words in Hdist. simpl in Hdist.
  inversion Hdist as [|? ? Hnot _]; subst. apply Hnot. simpl. auto.
Qed.

(** C2.  [ac3] returns [True] although a domain is empty when propagation
    ends: on the T-shaped puzzle with the words cat and dog no word of the
    across slot has a partner in the down slot, [revise] empties its
    domain, and [ac3], which never sees a true value from [revise], returns
    [True]. *)
Theorem ac3_returns_True_with_empty_domain :
  domain_of (node_consistent_domains Examples.cat_dog) Examples.acrossT
  = ["cat"; "dog"]%string
  /\ ac3 Examples.cat_dog None 2 (node_consistent_domains Examples.cat_dog)
     = (Ok true, [(Examples.acrossT, []); (Examples.downT, [])]).
Proof. vm_compute. repeat split; reflexivity. Qed.

(** C3.  [revise] removes a word and yet does not return [True]: on the
    T-shaped puzzle with the words cat, dog and act it removes dog from
    the domain of the across slot (no word has d as its second letter) and
    returns [None]. *)
Theorem revise_returns_None_after_removal :
  node_consistent_domains Examples.cat_dog_act
  = [(Examples.acrossT, ["cat"; "dog"; "act"]%string);
     (Examples.downT, ["cat"; "dog"; "act"]%string)]
  /\ revise Examples.cat_dog_act Examples.acrossT Examples.downT
            (node_consistent_domains Examples.cat_dog_act)
     = (Ok None,
        [(Examples.acrossT, ["cat"; "act"]%string);
         (Examples.downT, ["cat"; "dog"; "act"]%string)]).
Proof. vm_compute. repeat split; reflexivity. Qed.

(** C4, as the code has it.  If node consistency or arc consistency leaves
    some slot with an empty domain, [solve()] returns [None]; it does so by
    calling [backtrack] on the empty assignment, which is one search node at
    least. *)
Theorem solve_fails_on_emptied_domain (cw : Crossword) (fuel : nat) (v : Var.t) :
  wf_crossword cw ->
  List.length (initial_arcs cw) <= fuel ->
  List.length (variables cw) < fuel ->
  In v (variables cw) ->
  (domain_of (node_consistent_domains cw) v = []
   \/ domain_of (propagated cw fuel) v = []) ->
  exists s', solve cw fuel (init_state cw) = (Ok None, s') /\ 1 <= nodes s'.
Proof.
  intros Hwf Harcs Hvars Hv Hempty.
  assert (Hempty' : domain_of (propagated cw fuel) v = []).
  { destruct Hempty as [H|H]; [|exact H]. unfold node_consistent_domains in H.
    pose proof (ac3_loop_shrinks cw fuel (initial_arcs cw)
                  (snd (enforce_node_consistency (init_domains cw)))) as [_ Hs].
    specialize (Hs v). rewrite H in Hs. apply incl_l_nil. exact Hs. }
  rewrite solve_unfold, (propagation_ok cw fuel Hwf Harcs).
  destruct fuel as [|fuel]; [lia|].
  set (s := mkState (propagated cw (S fuel)) [[]] 0).
  pose proof (backtrack_counts cw fuel 0 s) as Hn.
  pose proof (backtrack_refines cw (S fuel) 0 s) as Href.
  rewrite (backtrack_fun_fails cw (propagated cw (S fuel)) Hwf
             (propagated_keys cw (S fuel) Hwf)
             (propagated_node_consistent cw (S fuel))
             (propagated_NoDup cw (S fuel) Hwf) v Hv Hempty') in Href.
  - destruct (backtrack cw (S fuel) 0 s) as [res s'].
    exists s'. simpl in *. split; [|lia].
    specialize (Href ltac:(lia)).
    destruct res as [[r|]|e|]; simpl in Href; try discriminate. reflexivity.
  - apply from_domains_nil.
  - pose proof (unassigned_length cw (deref s 0)). lia.
Qed.

Lemma solve_fails_on_emptied_domain_witness :
  exists s', solve Examples.door 3 (init_state Examples.door) = (Ok None, s')
             /\ 1 <= nodes s'.
Proof.
  apply (solve_fails_on_emptied_domain Examples.door 3 Examples.across3).
  - apply plus_wf. distinct.
  - vm_compute. lia.
  - simpl. lia.
  - simpl. auto.
  - left. vm_compute. reflexivity.
Defined.

(** C4, as stated, fails: the word list holds no word of length 3, node
    consistency empties the domain of the across slot, and [solve()] still
    creates a search node before it returns [None]. *)
Lemma solve_searches_after_emptied_domain :
  domain_of (node_consistent_domains Examples.door) Examples.across3 = []
  /\ fst (solve Examples.door 3 (init_state Examples.door)) = Ok None
  /\ nodes (snd (solve Examples.door 3 (init_state Examples.door))) = 1.
Proof. vm_compute. repeat split; reflexivity. Qed.

(** C5.  On a tie for the smallest domain the slot returned is the one of
    highest degree among all unassigned slots, whatever its domain size: in
    the H-shaped puzzle the two across slots tie with one word each, and the
    down slot, with two words and degree 2, is returned. *)
Theorem select_unassigned_variable_tie_ignores_domain_size :
  propagated Examples.tied 4
  = [(Examples.top, ["cad"]%string); (Examples.bottom, ["ebf"]%string);
     (Examples.middle, ["axb"; "ayb"]%string)]
  /\ select_unassigned_variable Examples.tied (propagated Examples.tied 4) []
     = Ok Examples.middle.
Proof. vm_compute. repeat split; reflexivity. Qed.

(** C6.  [consistent(assignment)] returns [True] exactly when the words of
    the assignment are pairwise distinct, every word has the length of its
    slot, and every bound slot agrees with each of its bound neighbors at
    their overlap indices; the assignment may be partial, and the call
    leaves the state as it is. *)
Theorem consistent_iff_constraints_hold (cw : Crossword) (s : state)
    (assignment : ref) :
  NoDup (keys (deref s assignment)) ->
  snd (consistent_m cw assignment s) = s
  /\ (fst (consistent_m cw assignment s) = Ok true
      <-> distinct_words (deref s assignment)
          /\ lengths_fit (deref s assignment)
          /\ neighbors_agree cw (deref s assignment)).
Proof.
  intros Hnd. split; [reflexivity|]. apply consistent_true. exact Hnd.
Qed.

Lemma consistent_iff_constraints_hold_witness :
  snd (consistent_m Examples.cat_car_art 0 Examples.one_bound) = Examples.one_bound
  /\ (fst (consistent_m Examples.cat_car_art 0 Examples.one_bound) = Ok true
      <-> distinct_words (deref Examples.one_bound 0)
          /\ lengths_fit (deref Examples.one_bound 0)
          /\ neighbors_agree Examples.cat_car_art (deref Examples.one_bound 0)).
Proof.
  apply (consistent_iff_constraints_hold Examples.cat_car_art Examples.one_bound 0).
  simpl. distinct.
Defined.

(** C7.  Domains only shrink: after [enforce_node_consistency], [revise] or
    [ac3], whatever the outcome, [self.domains] has the same slots and the
    domain of every slot is a subset of what it was. *)
Theorem domains_only_shrink (cw : Crossword) (x y : Var.t)
    (arcs : option (list (Var.t * Var.t))) (fuel : nat) (d : domains) :
  shrinks d (snd (enforce_node_consistency d))
  /\ shrinks d (snd (revise cw x y d))
  /\ shrinks d (snd (ac3 cw arcs fuel d)).
Proof.
  split; [apply enforce_node_consistency_shrinks|].
  split; [apply revise_shrinks | apply ac3_loop_shrinks].
Qed.

(** C8.  On node-consistent domains of a well-formed puzzle,
    [order_domain_values(var, assignment)] returns the words of Domain(var),
    each once, in ascending order of the number of pairs (unassigned
    neighbor, word of its domain) that disagree with the word at the
    overlap; the call leaves every domain as it is. *)
Theorem order_domain_values_least_constraining_first (cw : Crossword)
    (s : state) (var : Var.t) (assignment : ref) :
  wf_crossword cw ->
  keys (self_domains s) = variables cw ->
  node_consistent (self_domains s) ->
  NoDup (domain_of (self_domains s) var) ->
  In var (variables cw) ->
  exists vals,
    order_domain_values_m cw var assignment s = (Ok vals, s)
    /\ Permutation vals (domain_of (self_domains s) var)
    /\ StronglySorted
         (fun w1 w2 =>
            lcv_count cw (self_domains s) (deref s assignment) var w1
            <= lcv_count cw (self_domains s) (deref s assignment) var w2)
         vals.
Proof.
  intros Hwf Hkeys Hnode Hnd Hvar.
  unfold order_domain_values_m, reads.
  rewrite (order_domain_values_eq cw (self_domains s) (deref s assignment) var
             Hwf Hkeys Hnode Hvar Hnd).
  eexists. split; [reflexivity|]. split.
  - apply sorted_by_count_perm.
  - apply sorted_by_count.
Qed.

Lemma order_domain_values_least_constraining_first_witness :
  exists vals,
    order_domain_values_m Examples.cat_car_art Examples.across3 0 Examples.one_bound
    = (Ok vals, Examples.one_bound)
    /\ Permutation vals (domain_of (self_domains Examples.one_bound) Examples.across3)
    /\ StronglySorted
         (fun w1 w2 =>
            lcv_count Examples.cat_car_art (self_domains Examples.one_bound)
                      (deref Examples.one_bound 0) Examples.across3 w1
            <= lcv_count Examples.cat_car_art (self_domains Examples.one_bound)
                         (deref Examples.one_bound 0) Examples.across3 w2)
         vals.
Proof.
  apply (order_domain_values_least_constraining_first
           Examples.cat_car_art Examples.one_bound Examples.across3 0).
  - apply plus_wf. distinct.
  - reflexivity.
  - intros v w. unfold domain_of. simpl.
    destruct (Var.eqb v Examples.across3) eqn:E1.
    + apply Var_eqb_eq in E1. subst v. simpl.
      intros [<-|[<-|[<-|[]]]]; reflexivity.
    + destruct (Var.eqb v Examples.down3) eqn:E2; [|intros []].
      apply Var_eqb_eq in E2. subst v. simpl.
      intros [<-|[<-|[<-|[]]]]; reflexivity.
  - simpl. distinct.
  - simpl. auto.
Defined.

(** C9.  [backtrack] never writes to the assignment it is given, nor to any
    other assignment that exists when it is called: whatever the outcome,
    the store afterwards is the store before followed by the copies made
    during the call, and [self.domains] is the same. *)
Theorem backtrack_leaves_assignment_unchanged (cw : Crossword) (fuel : nat)
    (assignment : ref) (s : state) :
  assignment < List.length (heap s) ->
  deref (snd (backtrack cw fuel assignment s)) assignment = deref s assignment
  /\ (exists fresh, heap (snd (backtrack cw fuel assignment s)) = heap s ++ fresh)
  /\ self_domains (snd (backtrack cw fuel assignment s)) = self_domains s.
Proof.
  intros Hr. pose proof (backtrack_extends cw fuel assignment s) as Hext.
  split; [apply extends_deref; assumption|].
  destruct Hext as (Hd & Hh & _). split; assumption.
Qed.

Lemma backtrack_leaves_assignment_unchanged_witness :
  deref (snd (backtrack Examples.cat_car_art 3 0 Examples.one_bound)) 0
  = deref Examples.one_bound 0
  /\ (exists fresh,
        heap (snd (backtrack Examples.cat_car_art 3 0 Examples.one_bound))
        = heap Examples.one_bound ++ fresh)
  /\ self_domains (snd (backtrack Examples.cat_car_art 3 0 Examples.one_bound))
     = self_domains Examples.one_bound.
Proof.
  apply (backtrack_leaves_assignment_unchanged Examples.cat_car_art 3 0
                                               Examples.one_bound).
  simpl. lia.
Defined.

(** C10.  [assignment_complete(assignment)] returns [True] only if the keys
    of the assignment are the slots of the puzzle and no slot is bound to
    the empty string. *)
Theorem assignment_complete_only_if (cw : Crossword) (a : assignment) :
  assignment_complete cw a = true ->
  (forall v, In v (keys a) <-> In v (variables cw))
  /\ (forall v, ~ In (v, ""%string) a).
Proof.
  intros H. apply assignment_complete_true in H. destruct H as [Hk Hv].
  split; [exact Hk|]. intros v Hin. apply (Hv ""%string); [|reflexivity].
  change ""%string with (snd (v, ""%string)). apply in_map. exact Hin.
Qed.

(** An assignment that binds some slot to the empty string is reported
    incomplete, whatever its keys. *)
Lemma assignment_complete_empty_word (cw : Crossword) (a : assignment) (v : Var.t) :
  In (v, ""%string) a -> assignment_complete cw a = false.
Proof.
  intros Hin. destruct (assignment_complete cw a) eqn:E; [|reflexivity].
  apply assignment_complete_true in E. destruct E as [_ E].
  exfalso. apply (E ""%string); [|reflexivity].
  change ""%string with (snd (v, ""%string)). apply in_map. exact Hin.
Qed.

Lemma assignment_complete_only_if_witness :
  (forall v, In v (keys [(Examples.across3, "cat"%string);
                         (Examples.down3, "car"%string)])
             <-> In v (variables Examples.cat_car_art))
  /\ (forall v, ~ In (v, ""%string) [(Examples.across3, "cat"%string);
                                    (Examples.down3, "car"%string)]).
Proof.
  apply (assignment_complete_only_if Examples.cat_car_art
           [(Examples.across3, "cat"%string); (Examples.down3, "car"%string)]).
  vm_compute. reflexivity.
Defined.

(** * Further properties of the solver *)

(** ** [__init__] and [enforce_node_consistency] *)

Lemma fold_dict_set_const_get (c : list string) (l : list Var.t) :
  forall (acc : domains) (v : Var.t),
    dict_get Var.eqb (fold_left (fun d var => dict_set Var.eqb d var c) l acc) v
    = if mem Var.eqb v l then Some c else dict_get Var.eqb acc v.
Proof.
  induction l as [|x l IH]; intros acc v; simpl; [reflexivity|].
  rewrite IH, (dict_get_set Var.eqb Var_eqb_eq).
  destruct (Var.eqb v x); simpl; destruct (mem Var.eqb v l); reflexivity.
Qed.

Lemma init_domains_lookup (cw : Crossword) (v : Var.t) :
  dict_get Var.eqb (init_domains cw) v
  = if mem Var.eqb v (variables cw) then Some (words cw) else None.
Proof. unfold init_domains. apply fold_dict_set_const_get. Qed.

(** X1.  After [__init__] every slot of the puzzle has the whole word list
    as its domain, and no other slot has a domain. *)
Theorem init_domains_get (cw : Crossword) (v : Var.t) :
  dict_get Var.eqb (init_domains cw) v
  = if mem Var.eqb v (variables cw) then Some (words cw) else None.
Proof.
  unfold init_domains.
  apply fold_dict_set_const_get.
Qed.

(** X2.  [enforce_node_consistency] keeps in every domain exactly the words
    that have the length of the slot, and raises nothing. *)
Theorem enforce_node_consistency_keeps_fitting_words (d : domains) (v : Var.t)
    (w : string) :
  fst (enforce_node_consistency d) = Ok tt
  /\ (In w (domain_of (snd (enforce_node_consistency d)) v)
      <-> In w (domain_of d v) /\ String.length w = Var.length v).
Proof. split; [reflexivity | apply enforce_node_consistency_domain]. Qed.

Lemma filter_all {A : Type} (f : A -> bool) (l : list A) :
  (forall x, In x l -> f x = true) -> filter f l = l.
Proof.
  induction l as [|x l IH]; intros H; simpl; [reflexivity|].
  rewrite (H x) by (simpl; auto). f_equal. apply IH. intros; apply H; simpl; auto.
Qed.

Lemma node_filter_fixed (variable : Var.t) (ws : list string) :
  (forall w, In w ws -> String.length w = Var.length variable) ->
  remove_all (node_words2remove variable ws) ws = ws.
Proof.
  intros H. rewrite remove_all_filter. apply filter_all.
  intros w Hw. apply negb_true_iff. apply (mem_not_In String.eqb String_eqb_eq).
  intros Hin. apply node_words2remove_In in Hin. destruct Hin as [_ Hne].
  apply Hne. apply H. exact Hw.
Qed.

(** X3.  [enforce_node_consistency] is idempotent: a second run changes
    nothing. *)
Theorem enforce_node_consistency_idempotent (d : domains) :
  snd (enforce_node_consistency (snd (enforce_node_consistency d)))
  = snd (enforce_node_consistency d).
Proof.
  unfold enforce_node_consistency. simpl. rewrite map_map.
  apply map_ext. intros [variable ws]. f_equal.
  apply node_filter_fixed. intros w Hw. apply node_filter_In in Hw. tauto.
Qed.

(** ** [revise] and [ac3] *)

(** X4.  When [revise(x, y)] returns on overlapping slots, Domain(x) holds
    exactly the words it held before that have a partner in Domain(y) at the
    overlap indices. *)
Theorem revise_keeps_words_with_partner (cw : Crossword) (x y : Var.t)
    (d d' : domains) (r : option bool) (oi oj : nat) (w : string) :
  revise cw x y d = (Ok r, d') ->
  overlaps cw x y = Some (oi, oj) ->
  (In w (domain_of d' x)
   <-> In w (domain_of d x)
       /\ exists w', In w' (domain_of d y) /\ agree w oi w' oj).
Proof. intros H Ho. apply (revise_removes cw x y d d' r oi oj H Ho). Qed.

Lemma revise_keeps_words_with_partner_witness :
  In "act"%string
     (domain_of [(Examples.acrossT, ["cat"; "act"]%string);
                 (Examples.downT, ["cat"; "dog"; "act"]%string)] Examples.acrossT)
  <-> In "act"%string
         (domain_of (node_consistent_domains Examples.cat_dog_act) Examples.acrossT)
      /\ exists w', In w' (domain_of (node_consistent_domains Examples.cat_dog_act)
                                     Examples.downT)
                    /\ agree "act" 0 w' 1.
Proof.
  apply (revise_keeps_words_with_partner Examples.cat_dog_act Examples.acrossT
           Examples.downT (node_consistent_domains Examples.cat_dog_act)
           [(Examples.acrossT, ["cat"; "act"]%string);
            (Examples.downT, ["cat"; "dog"; "act"]%string)] None 0 1 "act"%string).
  - vm_compute. reflexivity.
  - vm_compute. reflexivity.
Defined.

(** X5.  [revise(x, y)] writes to Domain(x) only; when the slots do not
    overlap, or when the scan raises, [self.domains] is left as it was. *)
Theorem revise_writes_domain_of_x_only (cw : Crossword) (x y : Var.t)
    (d : domains) :
  (forall v, v <> x -> domain_of (snd (revise cw x y d)) v = domain_of d v)
  /\ (overlaps cw x y = None -> revise cw x y d = (Ok None, d))
  /\ (forall e, fst (revise cw x y d) = Raise e -> snd (revise cw x y d) = d).
Proof.
  destruct (revise_cases cw x y d)
    as [[Ho E]|[[e E]|[E|(oi & oj & dx & rm & Ho & Hx & Hs & E)]]];
    rewrite E; simpl.
  - repeat split; auto.
  - repeat split; auto. intros Ho. unfold revise in E. rewrite Ho in E.
    discriminate.
  - repeat split; auto. intros Ho. unfold revise in E. rewrite Ho in E.
    discriminate.
  - split; [|split].
    + intros v Hv. rewrite domain_of_set.
      apply Var_eqb_neq in Hv. rewrite Hv. reflexivity.
    + congruence.
    + discriminate.
Qed.

(** X6.  [revise] never returns a true value, and [ac3] never returns
    [False], whatever the arcs and the domains. *)
Theorem ac3_never_returns_False (cw : Crossword)
    (arcs : option (list (Var.t * Var.t))) (fuel : nat) (x y : Var.t)
    (d : domains) :
  truthy_outcome (fst (revise cw x y d)) = false
  /\ fst (ac3 cw arcs fuel d) <> Ok false.
Proof.
  split.
  - destruct (revise cw x y d) as [[r|e|] d'] eqn:E; simpl; auto.
    apply revise_not_truthy in E. subst. reflexivity.
  - unfold ac3. intros H.
    destruct (ac3_loop cw fuel _ d) as [res d'] eqn:E. simpl in H. subst.
    exact (ac3_loop_never_false cw fuel _ d d' E).
Qed.

(** X7.  On node-consistent domains of a well-formed puzzle, with arcs
    between slots of the puzzle and one unit of fuel per arc, [ac3] raises
    nothing and returns [True]. *)
Theorem ac3_returns_True_on_node_consistent_domains (cw : Crossword)
    (arcs : option (list (Var.t * Var.t))) (fuel : nat) (d : domains) :
  wf_crossword cw ->
  keys d = variables cw ->
  node_consistent d ->
  (forall q x y, arcs = Some q -> In (x, y) q ->
     In x (variables cw) /\ In y (variables cw)) ->
  List.length (match arcs with None => initial_arcs cw | Some q => q end) <= fuel ->
  exists d', ac3 cw arcs fuel d = (Ok true, d').
Proof.
  intros Hwf Hk Hn Harcs Hfuel. unfold ac3.
  apply ac3_loop_ok; auto.
  destruct arcs as [q|]; intros x y H.
  - eapply Harcs; eauto.
  - apply initial_arcs_In in H. tauto.
Qed.

Lemma ac3_returns_True_on_node_consistent_domains_witness :
  exists d', ac3 Examples.cat_dog_act None 2
                 (node_consistent_domains Examples.cat_dog_act) = (Ok true, d').
Proof.
  apply (ac3_returns_True_on_node_consistent_domains Examples.cat_dog_act None 2
           (node_consistent_domains Examples.cat_dog_act)).
  - apply tee_wf. distinct.
  - reflexivity.
  - apply enforce_node_consistency_sound.
  - intros q x y H. discriminate.
  - vm_compute. lia.
Defined.

(** ** [consistent] on sub-assignments *)

Lemma NoDup_map_injective {A B : Type} (f : A -> B) (l : list A) :
  NoDup (map f l) ->
  forall x y, In x l -> In y l -> f x = f y -> x = y.
Proof.
  induction l as [|z l IH]; simpl; intros Hnd x y Hx Hy E; [destruct Hx|].
  inversion Hnd as [|? ? Hz Hnd']; subst.
  destruct Hx as [<-|Hx], Hy as [<-|Hy]; auto.
  - exfalso. apply Hz. rewrite E. apply in_map. exact Hy.
  - exfalso. apply Hz. rewrite <- E. apply in_map. exact Hx.
Qed.

Lemma NoDup_map_sub {A B : Type} (f : A -> B) (l l' : list A) :
  NoDup (map f l) -> NoDup l' -> incl l' l -> NoDup (map f l').
Proof.
  intros Hnd. induction l' as [|x l' IH]; intros Hl' Hincl; simpl; [constructor|].
  inversion Hl' as [|? ? Hx Hl'']; subst. constructor.
  - intros Hin. apply in_map_iff in Hin. destruct Hin as (y & E & Hy).
    assert (y = x).
    { apply (NoDup_map_injective f l Hnd); auto; apply Hincl; simpl; auto. }
    subst. contradiction.
  - apply IH; auto. intros y Hy. apply Hincl. simpl; auto.
Qed.

Lemma sub_assignment_incl (a r : assignment) :
  NoDup (keys a) -> sub_assignment a r -> incl a r.
Proof.
  intros Hnd Hsub [v w] Hin.
  apply (dict_get_In Var.eqb Var_eqb_eq). apply Hsub.
  apply (In_dict_get Var.eqb Var_eqb_eq); assumption.
Qed.

Lemma consistent_sub (cw : Crossword) (a r : assignment) :
  NoDup (keys a) -> NoDup (keys r) -> sub_assignment a r ->
  consistent cw r = Ok true ->
  consistent cw a = Ok true.
Proof.
  intros Hnda Hndr Hsub Hr.
  apply consistent_true in Hr; [|exact Hndr].
  destruct Hr as (Hdist & Hfit & Hagree).
  apply consistent_true; [exact Hnda|]. split; [|split].
  - unfold distinct_words, values in *.
    apply (NoDup_map_sub snd r a Hdist).
    + apply (NoDup_map_inv fst). exact Hnda.
    + apply sub_assignment_incl; assumption.
  - intros v w Hv. apply Hfit. apply Hsub. exact Hv.
  - intros v n wv wn Hv Hn Hin. eapply Hagree; eauto.
Qed.

(** X8.  [consistent] is monotone: if it accepts an assignment, it accepts
    every assignment that binds some of the same slots to the same words. *)
Theorem consistent_sub_assignment (cw : Crossword) (a r : assignment) :
  NoDup (keys a) -> NoDup (keys r) -> sub_assignment a r ->
  consistent cw r = Ok true ->
  consistent cw a = Ok true.
Proof.
  intros Hnda Hndr Hsub Hr.
  apply (consistent_sub cw a r); assumption.
Qed.

Lemma consistent_sub_assignment_witness :
  consistent Examples.cat_car_art [(Examples.down3, "car"%string)] = Ok true.
Proof.
  apply (consistent_sub_assignment Examples.cat_car_art
           [(Examples.down3, "car"%string)]
           [(Examples.across3, "cat"%string); (Examples.down3, "car"%string)]).
  - distinct.
  - distinct.
  - intros v w. vm_compute.
    destruct v as [i j [|] l]; destruct i as [|[|i]]; destruct j as [|[|j]];
      try discriminate; destruct l as [|[|[|[|l]]]]; try discriminate; auto.
  - vm_compute. reflexivity.
Defined.

(** X9.  [assignment_complete] returns [True] exactly when the keys of the
    assignment are the slots of the puzzle and no value is the empty
    string. *)
Theorem assignment_complete_iff (cw : Crossword) (a : assignment) :
  assignment_complete cw a = true
  <-> (forall v, In v (keys a) <-> In v (variables cw))
      /\ (forall w, In w (values a) -> w <> ""%string).
Proof.
  split; intros H.
  - apply assignment_complete_true in H. exact H.
  - apply assignment_complete_true. exact H.
Qed.

(** X10.  On a well-formed puzzle [consistent] raises nothing when the
    assignment binds slots of the puzzle to words of their lengths. *)
Theorem consistent_raises_nothing (cw : Crossword) (a : assignment) :
  wf_crossword cw -> lengths_fit a -> incl (keys a) (variables cw) ->
  exists b, consistent cw a = Ok b.
Proof.
  intros Hwf Hfit Hincl.
  destruct (consistent_ok cw a Hwf Hfit Hincl) as [b Hb].
  exists b. exact Hb.
Qed.

Lemma consistent_raises_nothing_witness :
  exists b, consistent Examples.cat_car_art
              [(Examples.across3, "cat"%string); (Examples.down3, "art"%string)]
            = Ok b.
Proof.
  apply (consistent_raises_nothing Examples.cat_car_art
           [(Examples.across3, "cat"%string); (Examples.down3, "art"%string)]).
  - apply plus_wf. distinct.
  - intros v w. simpl.
    destruct (Var.eqb v Examples.across3) eqn:E1.
    + apply Var_eqb_eq in E1. subst. intros [= <-]. reflexivity.
    + destruct (Var.eqb v Examples.down3) eqn:E2; [|discriminate].
      apply Var_eqb_eq in E2. subst. intros [= <-]. reflexivity.
  - intros v Hv. exact Hv.
Defined.

(** ** [select_unassigned_variable] *)

Lemma select_unassigned_variable_unbound (cw : Crossword)
    (d : domains) (a : assignment) (var : Var.t) :
  select_unassigned_variable cw d a = Ok var ->
  In var (variables cw) /\ ~ In var (keys a).
Proof.
  intros H. apply select_unassigned_variable_sound in H.
  apply unassigned_In. exact H.
Qed.

(** X11.  A slot that [select_unassigned_variable] returns is a slot of the
    puzzle that the assignment does not bind. *)
Theorem select_unassigned_variable_returns_unbound_slot (cw : Crossword)
    (d : domains) (a : assignment) (var : Var.t) :
  select_unassigned_variable cw d a = Ok var ->
  In var (variables cw) /\ ~ In var (keys a).
Proof.
  intros H. apply select_unassigned_variable_sound in H.
  apply unassigned_In. exact H.
Qed.

Lemma select_unassigned_variable_returns_unbound_slot_witness :
  In Examples.middle (variables Examples.tied) /\ ~ In Examples.middle (@keys Var.t string []).
Proof.
  apply (select_unassigned_variable_returns_unbound_slot Examples.tied
           (propagated Examples.tied 4) [] Examples.middle).
  vm_compute. reflexivity.
Defined.

(** X12.  When the assignment binds every slot of the puzzle,
    [select_unassigned_variable] raises [IndexError]. *)
Theorem select_unassigned_variable_IndexError (cw : Crossword) (d : domains)
    (a : assignment) :
  (forall v, In v (variables cw) -> In v (keys a)) ->
  select_unassigned_variable cw d a = Raise IndexError.
Proof.
  intros H. unfold select_unassigned_variable.
  assert (E : unassigned cw a = []).
  { destruct (unassigned cw a) as [|u us] eqn:E; [reflexivity|].
    assert (Hu : In u (unassigned cw a)) by (rewrite E; simpl; auto).
    apply unassigned_In in Hu. destruct Hu as [H1 H2]. exfalso. auto. }
  rewrite E. reflexivity.
Qed.

Lemma select_unassigned_variable_IndexError_witness :
  select_unassigned_variable Examples.cat_car_art
    (propagated Examples.cat_car_art 2)
    [(Examples.across3, "cat"%string); (Examples.down3, "car"%string)]
  = Raise IndexError.
Proof.
  apply (select_unassigned_variable_IndexError Examples.cat_car_art
           (propagated Examples.cat_car_art 2)
           [(Examples.across3, "cat"%string); (Examples.down3, "car"%string)]).
  simpl. intros v [<-|[<-|[]]]; auto.
Defined.

Section SortedGen.

Context {A : Type} (le : nat -> nat -> bool) (R : nat -> nat -> Prop)
        (key : A -> nat).
Hypothesis le_true : forall a b, le a b = true -> R a b.
Hypothesis le_false : forall a b, le a b = false -> R b a.
Hypothesis R_trans : forall a b c, R a b -> R b c -> R a c.

Lemma insert_by_sorted_gen (x : A) (l : list A) :
  StronglySorted (fun a b => R (key a) (key b)) l ->
  StronglySorted (fun a b => R (key a) (key b)) (insert_by le key x l).
Proof.
  induction 1 as [|y l Hs IH Hy]; simpl.
  - constructor; constructor.
  - destruct (le (key x) (key y)) eqn:E.
    + apply le_true in E. constructor.
      * constructor; assumption.
      * constructor; auto. eapply Forall_impl; [|exact Hy].
        simpl. intros z Hz. eapply R_trans; eauto.
    + apply le_false in E. constructor; auto.
      eapply Permutation_Forall; [apply Permutation_sym, insert_by_perm|].
      constructor; auto.
Qed.

Lemma sorted_by_sorted_gen (l : list A) :
  StronglySorted (fun a b => R (key a) (key b)) (sorted_by le key l).
Proof.
  induction l as [|x l IH]; simpl; [constructor | apply insert_by_sorted_gen, IH].
Qed.

(** The first element of the sorted list is related to every element. *)
Lemma sorted_by_head (l : list A) (x : A) (rest : list A) :
  (forall a, R a a) ->
  sorted_by le key l = x :: rest ->
  forall y, In y l -> R (key x) (key y).
Proof.
  intros Hrefl E y Hy.
  pose proof (sorted_by_sorted_gen l) as Hs. rewrite E in Hs.
  apply (sorted_by_In le key) in Hy. rewrite E in Hy.
  inversion Hs as [|? ? _ Hall]; subst.
  destruct Hy as [<-|Hy]; [apply Hrefl|].
  rewrite Forall_forall in Hall. apply Hall. exact Hy.
Qed.

End SortedGen.

Lemma remaining_values_eq (d : domains) (vs : list Var.t) :
  forall acc nrv,
    NoDup vs -> (forall v, In v vs -> ~ In v (keys acc)) ->
    remaining_values d vs acc = Ok nrv ->
    nrv = acc ++ map (fun v => (v, domain_size d v)) vs.
Proof.
  induction vs as [|x vs IH]; intros acc nrv Hnd Hfresh H; simpl in H.
  - injection H as <-. simpl. rewrite app_nil_r. reflexivity.
  - inversion Hnd as [|? ? Hx Hnd']; subst.
    unfold dict_getitem in H.
    destruct (dict_get Var.eqb d x) as [dx|] eqn:Ex; simpl in H; [|discriminate].
    rewrite (dict_set_fresh Var.eqb Var_eqb_eq) in H by (apply Hfresh; simpl; auto).
    apply IH in H; auto.
    + rewrite H, <- app_assoc. simpl. unfold domain_size, domain_of.
      rewrite Ex. reflexivity.
    + intros v Hv Hin. unfold keys in Hin. rewrite map_app, in_app_iff in Hin.
      destruct Hin as [Hin|[<-|[]]]; [apply (Hfresh v); simpl; auto | contradiction].
Qed.

Lemma degrees_eq (cw : Crossword) (vs : list Var.t) :
  NoDup vs -> degrees cw vs = map (fun v => (v, degree cw v)) vs.
Proof.
  intros Hnd. unfold degrees.
  rewrite (fold_dict_set_fresh Var.eqb Var_eqb_eq
             (fun v => List.length (neighbors cw v))); auto.
Qed.

(** The two branches of [select_unassigned_variable]: without a tie for the
    smallest domain the first slot in ascending order of domain size is
    returned, with a tie the first slot in descending order of degree. *)
Lemma select_unassigned_variable_branches (cw : Crossword) (d : domains)
    (a : assignment) (var : Var.t) :
  select_unassigned_variable cw d a = Ok var ->
  (~ smallest_domain_tie cw d a
   /\ forall u, In u (unassigned cw a) -> domain_size d var <= domain_size d u)
  \/ (smallest_domain_tie cw d a
      /\ forall u, In u (unassigned cw a) -> degree cw u <= degree cw var).
Proof.
  unfold select_unassigned_variable.
  destruct (remaining_values d (unassigned cw a) []) as [nrv|e|] eqn:Hr; simpl;
    try discriminate.
  apply remaining_values_eq in Hr; [|apply unassigned_NoDup | intros v _ []].
  simpl in Hr. subst nrv.
  set (nrv := map (fun v => (v, domain_size d v)) (unassigned cw a)).
  assert (Hmem : forall u, In u (unassigned cw a) ->
                   In (u, domain_size d u) (sorted_by Nat.leb snd nrv)).
  { intros u Hu. apply (sorted_by_In Nat.leb snd). apply in_map_iff.
    exists u. auto. }
  assert (Hmin : forall p rest,
             sorted_by Nat.leb snd nrv = p :: rest ->
             In (fst p) (unassigned cw a) /\ snd p = domain_size d (fst p)
             /\ forall u, In u (unassigned cw a) -> snd p <= domain_size d u).
  { intros p rest E.
    assert (Hp : In p nrv).
    { apply (sorted_by_In Nat.leb snd). rewrite E. simpl; auto. }
    apply in_map_iff in Hp. destruct Hp as (v & <- & Hv). simpl.
    split; [exact Hv|]. split; [reflexivity|]. intros u Hu.
    apply (sorted_by_head Nat.leb le snd) with (l := nrv) (rest := rest)
                                                (x := (v, domain_size d v))
                                                (y := (u, domain_size d u)); auto.
    - intros x y Hxy. apply Nat.leb_le. exact Hxy.
    - intros x y Hxy. apply Nat.leb_gt in Hxy. lia.
    - intros x y z. lia.
    - apply in_map_iff. exists u. auto. }
  pose proof (sorted_by_sorted (@snd Var.t nat) nrv) as Hsorted.
  destruct (sorted_by Nat.leb snd nrv) as [|[v0 n0] [|[v1 n1] rest]] eqn:Hs;
    try discriminate.
  - intros [= <-]. left.
    destruct (Hmin _ _ eq_refl) as (_ & E & H). simpl in *. subst. split; [|exact H].
    intros (u1 & u2 & Hne & H1 & H2 & _).
    apply Hmem in H1. apply Hmem in H2.
    destruct H1 as [[= <- _]|[]]. destruct H2 as [[= <- _]|[]]. congruence.
  - destruct (n0 =? n1) eqn:En; simpl.
    + apply Nat.eqb_eq in En. subst n1.
      destruct (sorted_by geb snd (degrees cw (unassigned cw a)))
        as [|[v n] rest'] eqn:Hs'; [discriminate|].
      intros [= <-]. right. split.
      * destruct (Hmin _ _ eq_refl) as (Hv0 & E0 & H0). simpl in *.
        assert (Hin1 : In (v1, n0) nrv).
        { apply (sorted_by_In Nat.leb snd). rewrite Hs. simpl; auto. }
        apply in_map_iff in Hin1. destruct Hin1 as (u1 & [= -> E1] & Hv1).
        exists v0, v1. repeat split; auto; try congruence.
        -- intros <-.
           assert (Hnd : NoDup (map fst (sorted_by Nat.leb snd nrv))).
           { eapply Permutation_NoDup.
             - apply Permutation_map, Permutation_sym, sorted_by_perm.
             - unfold nrv. rewrite map_map. simpl. rewrite map_id.
               apply unassigned_NoDup. }
           rewrite Hs in Hnd. simpl in Hnd. inversion Hnd; subst.
           simpl in *. tauto.
        -- intros u Hu. rewrite <- E0. apply H0. exact Hu.
      * intros u Hu. rewrite degrees_eq in Hs' by apply unassigned_NoDup.
        assert (Hp : In (v, n) (map (fun v => (v, degree cw v)) (unassigned cw a))).
        { apply (sorted_by_In geb snd). rewrite Hs'. simpl; auto. }
        apply in_map_iff in Hp. destruct Hp as (v' & [= -> <-] & _).
        apply (sorted_by_head geb ge snd)
          with (l := map (fun v => (v, degree cw v)) (unassigned cw a))
               (rest := rest') (x := (v, degree cw v)) (y := (u, degree cw u)); auto.
        -- unfold geb. intros x y Hxy. apply Nat.leb_le in Hxy. lia.
        -- unfold geb. intros x y Hxy. apply Nat.leb_gt in Hxy. lia.
        -- intros x y z. lia.
        -- apply in_map_iff. exists u. auto.
    + apply Nat.eqb_neq in En. intros [= <-]. left.
      destruct (Hmin _ _ eq_refl) as (Hv0 & E & H). simpl in *. subst n0.
      split; [|exact H].
      intros (u1 & u2 & Hne & H1 & H2 & Heq & Hleast).
      assert (Hlate : forall u, In u (unassigned cw a) -> u <> v0 ->
                        n1 <= domain_size d u).
      { intros u Hu Hneq. apply Hmem in Hu. destruct Hu as [[= -> _]|Hu];
          [congruence|].
        inversion Hsorted as [|? ? Htail Hall0]; subst.
        inversion Htail as [|? ? _ Hall1]; subst.
        destruct Hu as [[= _ <-]|Hu]; [lia|].
        rewrite Forall_forall in Hall1. apply (Hall1 _ Hu). }
      inversion Hsorted as [|? ? _ Hall0]; subst.
      inversion Hall0 as [|? ? Hle _]; subst. simpl in Hle.
      pose proof (Hleast v0 Hv0) as Hl1.
      destruct (Var.eqb u1 v0) eqn:E1.
      * apply Var_eqb_eq in E1. subst u1.
        assert (u2 <> v0) by congruence.
        pose proof (Hlate u2 H2 H0). lia.
      * apply Var_eqb_neq in E1. pose proof (Hlate u1 H1 E1). lia.
Qed.

(** X13.  When no two distinct unbound slots tie for the smallest domain,
    the slot that [select_unassigned_variable] returns has the smallest
    domain among the unbound slots; when two tie, it has the highest degree
    among all unbound slots, whatever its domain. *)
Theorem select_unassigned_variable_heuristic (cw : Crossword) (d : domains)
    (a : assignment) (var : Var.t) :
  select_unassigned_variable cw d a = Ok var ->
  (~ smallest_domain_tie cw d a ->
   forall u, In u (unassigned cw a) -> domain_size d var <= domain_size d u)
  /\ (smallest_domain_tie cw d a ->
      forall u, In u (unassigned cw a) -> degree cw u <= degree cw var).
Proof.
  intros H. apply select_unassigned_variable_branches in H.
  destruct H as [[Hno Hmin]|[Htie Hmax]]; split; intros Ht; auto.
  - contradiction.
  - contradiction.
Qed.

Lemma select_unassigned_variable_heuristic_witness :
  (~ smallest_domain_tie Examples.tied (propagated Examples.tied 4) [] ->
   forall u, In u (unassigned Examples.tied []) ->
     domain_size (propagated Examples.tied 4) Examples.middle
     <= domain_size (propagated Examples.tied 4) u)
  /\ (smallest_domain_tie Examples.tied (propagated Examples.tied 4) [] ->
      forall u, In u (unassigned Examples.tied []) ->
        degree Examples.tied u <= degree Examples.tied Examples.middle).
Proof.
  apply (select_unassigned_variable_heuristic Examples.tied
           (propagated Examples.tied 4) [] Examples.middle).
  vm_compute. reflexivity.
Defined.

(** ** [order_domain_values] *)

Lemma lcv_loop_keys (cw : Crossword) (d : domains) (a : assignment)
    (var : Var.t) (dv : list string) :
  forall ne ne', lcv_loop cw d a var dv ne = Ok ne' -> keys ne' = keys ne.
Proof.
  induction dv as [|w dv IH]; intros ne ne' H; simpl in H.
  - injection H as <-. reflexivity.
  - destruct (eliminated cw d a var w (neighbors cw var)) as [k|e|]; simpl in H;
      try discriminate.
    unfold dict_getitem in H.
    destruct (dict_get String.eqb ne w) as [n|] eqn:En; simpl in H; [|discriminate].
    rewrite (IH _ _ H). apply (dict_set_keys_In String.eqb String_eqb_eq).
    apply (dict_get_keys String.eqb String_eqb_eq). eauto.
Qed.

Lemma fold_dict_set_NoDup {K V : Type} (keq : K -> K -> bool) (f : K -> V)
    (l : list K) :
  (forall x y, keq x y = true <-> x = y) ->
  forall acc, NoDup (keys acc) ->
    NoDup (keys (fold_left (fun d k => dict_set keq d k (f k)) l acc)).
Proof.
  intros Hkeq. induction l as [|x l IH]; intros acc H; simpl; auto.
  apply IH. apply (dict_set_keys_NoDup keq Hkeq). exact H.
Qed.

Lemma order_domain_values_In (cw : Crossword) (d : domains)
    (var : Var.t) (a : assignment) (vals : list string) :
  order_domain_values cw d var a = Ok vals ->
  NoDup vals /\ forall w, In w vals <-> In w (domain_of d var).
Proof.
  unfold order_domain_values, dict_getitem, domain_of.
  destruct (dict_get Var.eqb d var) as [dv|]; simpl; [|discriminate].
  set (ne0 := fold_left (fun ne word => dict_set String.eqb ne word 0) dv []).
  destruct (lcv_loop cw d a var dv ne0) as [ne|e|] eqn:Hl; simpl; try discriminate.
  intros [= <-]. apply lcv_loop_keys in Hl.
  assert (Hperm : Permutation (map fst (sorted_by Nat.leb snd ne)) (keys ne0)).
  { rewrite <- Hl. apply Permutation_map, sorted_by_perm. }
  split.
  - eapply Permutation_NoDup; [apply Permutation_sym, Hperm|].
    apply (fold_dict_set_NoDup String.eqb (fun _ => 0) dv String_eqb_eq).
    constructor.
  - intros w. split; intros H.
    + apply (Permutation_in _ Hperm) in H.
      apply (fold_dict_set_keys String.eqb String_eqb_eq (fun _ => 0)) in H.
      destruct H as [[]|H]; exact H.
    + apply (Permutation_in _ (Permutation_sym Hperm)).
      apply (fold_dict_set_keys String.eqb String_eqb_eq (fun _ => 0)). auto.
Qed.

(** X14.  Whenever [order_domain_values(var, assignment)] returns, the list
    holds each word of Domain(var) and no other word, none twice. *)
Theorem order_domain_values_same_words (cw : Crossword) (d : domains)
    (var : Var.t) (a : assignment) (vals : list string) :
  order_domain_values cw d var a = Ok vals ->
  NoDup vals /\ forall w, In w vals <-> In w (domain_of d var).
Proof.
  intros H. apply order_domain_values_In in H.
  destruct H as [Hnd Hin]. split; [exact Hnd | exact Hin].
Qed.

Lemma order_domain_values_same_words_witness :
  NoDup ["cat"; "car"; "art"]%string
  /\ forall w, In w ["cat"; "car"; "art"]%string
               <-> In w (domain_of (propagated Examples.cat_car_art 2)
                                   Examples.across3).
Proof.
  apply (order_domain_values_same_words Examples.cat_car_art
           (propagated Examples.cat_car_art 2) Examples.across3 []).
  vm_compute. reflexivity.
Defined.

(** ** What [backtrack] returns, continued *)

Lemma backtrack_values_fun_Some (cw : Crossword)
    (rec : assignment -> outcome (option assignment)) (a : assignment)
    (var : Var.t) (vals : list string) (r : assignment) :
  backtrack_values_fun cw rec a var vals = Ok (Some r) ->
  exists value, In value vals
    /\ consistent cw (dict_set Var.eqb a var value) = Ok true
    /\ rec (dict_set Var.eqb a var value) = Ok (Some r).
Proof.
  induction vals as [|value rest IH]; simpl; [discriminate|].
  destruct (consistent cw _) as [[|]|e|] eqn:Hc; simpl; try discriminate.
  - destruct (rec _) as [[r'|]|e|] eqn:Hr; simpl; try discriminate.
    + intros [= <-]. exists value. auto.
    + intros H. destruct (IH H) as (v & Hv & H1 & H2). exists v. auto.
  - intros H. destruct (IH H) as (v & Hv & H1 & H2). exists v. auto.
Qed.

Lemma backtrack_values_fun_None (cw : Crossword)
    (rec : assignment -> outcome (option assignment)) (a : assignment)
    (var : Var.t) (vals : list string) :
  backtrack_values_fun cw rec a var vals = Ok None ->
  forall value, In value vals ->
    consistent cw (dict_set Var.eqb a var value) = Ok false
    \/ (consistent cw (dict_set Var.eqb a var value) = Ok true
        /\ rec (dict_set Var.eqb a var value) = Ok None).
Proof.
  induction vals as [|value rest IH]; simpl; [intros _ v []|].
  destruct (consistent cw _) as [[|]|e|] eqn:Hc; simpl; try discriminate.
  - destruct (rec _) as [[r'|]|e|] eqn:Hr; simpl; try discriminate.
    intros H v [<-|Hv]; auto.
  - intros H v [<-|Hv]; auto.
Qed.

Lemma sub_assignment_set (a r : assignment) (var : Var.t) (value : string) :
  dict_get Var.eqb a var = None ->
  sub_assignment (dict_set Var.eqb a var value) r -> sub_assignment a r.
Proof.
  intros Hvar H v w Hv. apply H. rewrite (dict_get_set Var.eqb Var_eqb_eq).
  destruct (Var.eqb v var) eqn:E; auto.
  apply Var_eqb_eq in E. subst. congruence.
Qed.

Lemma backtrack_fun_extends (cw : Crossword) (d : domains) (fuel : nat) :
  forall a r, backtrack_fun cw d fuel a = Ok (Some r) ->
    sub_assignment a r
    /\ forall v w, dict_get Var.eqb r v = Some w ->
         dict_get Var.eqb a v = Some w \/ In w (domain_of d v).
Proof.
  induction fuel as [|fuel IH]; intros a r; simpl; [discriminate|].
  destruct (assignment_complete cw a).
  - intros [= <-]. split; [intros v w H; exact H | auto].
  - destruct (select_unassigned_variable cw d a) as [var|e|] eqn:Hs; simpl;
      try discriminate.
    destruct (order_domain_values cw d var a) as [vals|e|] eqn:Ho; simpl;
      try discriminate.
    intros H. apply backtrack_values_fun_Some in H.
    destruct H as (value & Hvalue & _ & Hrec).
    apply IH in Hrec. destruct Hrec as [Hsub Hdom].
    apply select_unassigned_variable_unbound in Hs.
    destruct Hs as [_ Hs]. apply (dict_get_None Var.eqb Var_eqb_eq) in Hs.
    apply order_domain_values_In in Ho. destruct Ho as [_ Ho].
    split; [eapply sub_assignment_set; eauto|].
    intros v w Hv. destruct (Hdom v w Hv) as [H|H]; auto.
    rewrite (dict_get_set Var.eqb Var_eqb_eq) in H.
    destruct (Var.eqb v var) eqn:E; auto.
    apply Var_eqb_eq in E. subst. injection H as <-. right. apply Ho. exact Hvalue.
Qed.

Lemma backtrack_fun_returns_complete (cw : Crossword) (d : domains) (fuel : nat) :
  forall a r, backtrack_fun cw d fuel a = Ok (Some r) ->
    assignment_complete cw r = true.
Proof.
  induction fuel as [|fuel IH]; intros a r; simpl; [discriminate|].
  destruct (assignment_complete cw a) eqn:Hc.
  - intros [= <-]. exact Hc.
  - destruct (select_unassigned_variable cw d a) as [var|e|]; simpl;
      try discriminate.
    destruct (order_domain_values cw d var a) as [vals|e|]; simpl;
      try discriminate.
    intros H. apply backtrack_values_fun_Some in H.
    destruct H as (value & _ & _ & Hrec). eapply IH; eauto.
Qed.

(** X15.  The assignment that [backtrack] returns keeps every binding of
    the assignment it was given, is complete (its keys are the slots of the
    puzzle and no word is empty), and binds every slot of the puzzle that
    the argument left unbound to a word of the domain of that slot. *)
Theorem backtrack_extends_its_argument (cw : Crossword) (fuel : nat)
    (assignment r : ref) (s s' : state) :
  assignment < List.length (heap s) ->
  backtrack cw fuel assignment s = (Ok (Some r), s') ->
  sub_assignment (deref s assignment) (deref s' r)
  /\ assignment_complete cw (deref s' r) = true
  /\ (forall v, In v (variables cw) -> ~ In v (keys (deref s assignment)) ->
        exists w, dict_get Var.eqb (deref s' r) v = Some w
                  /\ In w (domain_of (self_domains s) v))
  /\ forall v w, dict_get Var.eqb (deref s' r) v = Some w ->
       dict_get Var.eqb (deref s assignment) v = Some w
       \/ In w (domain_of (self_domains s) v).
Proof.
  intros Hr H. pose proof (backtrack_refines cw fuel assignment s Hr) as Href.
  rewrite H in Href. simpl in Href. symmetry in Href.
  pose proof (backtrack_fun_returns_complete cw _ fuel _ _ Href) as Hc.
  apply backtrack_fun_extends in Href. destruct Href as [Hsub Hdom].
  split; [exact Hsub|]. split; [exact Hc|]. split; [|exact Hdom].
  intros v Hv Hfree.
  apply assignment_complete_true in Hc. destruct Hc as [Hkeys _].
  apply Hkeys in Hv. apply (dict_get_keys Var.eqb Var_eqb_eq) in Hv.
  destruct Hv as [w Hw]. exists w. split; [exact Hw|].
  destruct (Hdom v w Hw) as [Ha|Hd]; [|exact Hd].
  exfalso. apply Hfree. apply (dict_get_keys Var.eqb Var_eqb_eq). eauto.
Qed.

Lemma backtrack_extends_its_argument_witness :
  sub_assignment (deref Examples.one_bound 0)
    (deref (snd (backtrack Examples.cat_car_art 3 0 Examples.one_bound)) 2)
  /\ assignment_complete Examples.cat_car_art
       (deref (snd (backtrack Examples.cat_car_art 3 0 Examples.one_bound)) 2)
     = true
  /\ (forall v, In v (variables Examples.cat_car_art) ->
        ~ In v (keys (deref Examples.one_bound 0)) ->
        exists w,
          dict_get Var.eqb
            (deref (snd (backtrack Examples.cat_car_art 3 0 Examples.one_bound)) 2) v
          = Some w
          /\ In w (domain_of (self_domains Examples.one_bound) v))
  /\ forall v w,
       dict_get Var.eqb
         (deref (snd (backtrack Examples.cat_car_art 3 0 Examples.one_bound)) 2) v
       = Some w ->
       dict_get Var.eqb (deref Examples.one_bound 0) v = Some w
       \/ In w (domain_of (self_domains Examples.one_bound) v).
Proof.
  apply (backtrack_extends_its_argument Examples.cat_car_art 3 0 2
           Examples.one_bound).
  - simpl. lia.
  - vm_compute. reflexivity.
Defined.

(** ** The search is exhaustive *)

Lemma backtrack_fun_complete (cw : Crossword) (d : domains) (fuel : nat) :
  forall a, NoDup (keys a) ->
    backtrack_fun cw d fuel a = Ok None ->
    forall r, solution_over cw d r -> sub_assignment a r -> False.
Proof.
  induction fuel as [|fuel IH]; intros a Hnd; simpl; [discriminate|].
  destruct (assignment_complete cw a); [discriminate|].
  destruct (select_unassigned_variable cw d a) as [var|e|] eqn:Hs; simpl;
    try discriminate.
  destruct (order_domain_values cw d var a) as [vals|e|] eqn:Ho; simpl;
    try discriminate.
  intros H r (Hndr & Hkeys & Hdom & Hcons) Hsub.
  apply select_unassigned_variable_unbound in Hs.
  destruct Hs as [Hvar Hfree].
  apply Hkeys in Hvar. apply (dict_get_keys Var.eqb Var_eqb_eq) in Hvar.
  destruct Hvar as [value Hvalue].
  apply order_domain_values_In in Ho. destruct Ho as [_ Ho].
  assert (Hin : In value vals) by (apply Ho, Hdom, Hvalue).
  assert (Hsub' : sub_assignment (dict_set Var.eqb a var value) r).
  { intros v w. rewrite (dict_get_set Var.eqb Var_eqb_eq).
    destruct (Var.eqb v var) eqn:E; [|apply Hsub].
    apply Var_eqb_eq in E. subst. intros [= <-]. exact Hvalue. }
  assert (Hnd' : NoDup (keys (dict_set Var.eqb a var value))).
  { apply (dict_set_keys_NoDup Var.eqb Var_eqb_eq). exact Hnd. }
  pose proof (consistent_sub cw _ r Hnd' Hndr Hsub' Hcons) as Hc.
  destruct (backtrack_values_fun_None cw _ a var vals H value Hin) as [Hf|[_ Hrec]].
  - congruence.
  - apply (IH _ Hnd' Hrec r); [|exact Hsub'].
    exact (conj Hndr (conj Hkeys (conj Hdom Hcons))).
Qed.

(** X16.  The search is exhaustive: when [backtrack] returns [None], no
    assignment that [consistent] accepts binds every slot of the puzzle to
    a word of its domain and keeps the bindings of the argument. *)
Theorem backtrack_None_no_solution (cw : Crossword) (fuel : nat)
    (assignment : ref) (s s' : state) (r : list (Var.t * string)) :
  assignment < List.length (heap s) ->
  NoDup (keys (deref s assignment)) ->
  backtrack cw fuel assignment s = (Ok None, s') ->
  ~ (solution_over cw (self_domains s) r /\ sub_assignment (deref s assignment) r).
Proof.
  intros Hr Hnd H [Hsol Hsub].
  pose proof (backtrack_refines cw fuel assignment s Hr) as Href.
  rewrite H in Href. simpl in Href. symmetry in Href.
  exact (backtrack_fun_complete cw _ fuel _ Hnd Href r Hsol Hsub).
Qed.

Lemma backtrack_None_no_solution_witness :
  ~ (solution_over (Examples.plus ["cat"; "door"]%string)
       (self_domains
          (mkState (propagated (Examples.plus ["cat"; "door"]%string) 2) [[]] 0))
       [(Examples.across3, "cat"%string); (Examples.down3, "cat"%string)]
     /\ sub_assignment
          (deref (mkState (propagated (Examples.plus ["cat"; "door"]%string) 2)
                          [[]] 0) 0)
          [(Examples.across3, "cat"%string); (Examples.down3, "cat"%string)]).
Proof.
  apply (backtrack_None_no_solution (Examples.plus ["cat"; "door"]%string) 3 0
           (mkState (propagated (Examples.plus ["cat"; "door"]%string) 2) [[]] 0)
           (snd (backtrack (Examples.plus ["cat"; "door"]%string) 3 0
                   (mkState (propagated (Examples.plus ["cat"; "door"]%string) 2)
                            [[]] 0)))).
  - simpl. lia.
  - simpl. constructor.
  - vm_compute. reflexivity.
Defined.

(** ** Propagation keeps every solution *)

Lemma ac3_loop_invariant_queue (cw : Crossword) (P : domains -> Prop) :
  forall fuel queue d,
    (forall x y d, In (x, y) queue -> P d -> P (snd (revise cw x y d))) ->
    P d -> P (snd (ac3_loop cw fuel queue d)).
Proof.
  induction fuel as [|fuel IH]; intros [|[x y] queue] d Hrev Hd; try exact Hd.
  rewrite ac3_loop_step.
  pose proof (Hrev x y d (or_introl eq_refl) Hd) as Hd'.
  destruct (revise cw x y d) as [[r|e|] d']; simpl in *; auto.
Qed.

Lemma valid_solution_consistent (cw : Crossword) (r : assignment) :
  wf_crossword cw -> valid_solution cw r -> consistent cw r = Ok true.
Proof.
  intros Hwf ((Hnd & Hkeys) & Hdist & Hfit & Hagree).
  apply consistent_true; [exact Hnd|]. split; [exact Hdist|]. split; [exact Hfit|].
  intros v n wv wn Hv Hn Hin.
  assert (Hvin : In v (variables cw)).
  { apply Hkeys. apply (dict_get_keys Var.eqb Var_eqb_eq). eauto. }
  destruct (neighbors_overlap cw v n Hwf Hvin Hin) as (i & j & Ho & _).
  exists i, j. split; [exact Ho|].
  apply neighbors_In in Hin. destruct Hin as (_ & Hne & _).
  eapply Hagree; eauto.
Qed.

Lemma revise_keeps_solution (cw : Crossword) (x y : Var.t) (d : domains)
    (r : assignment) :
  wf_crossword cw -> valid_solution cw r ->
  In x (variables cw) -> In y (variables cw) -> x <> y ->
  (forall v w, dict_get Var.eqb r v = Some w -> In w (domain_of d v)) ->
  forall v w, dict_get Var.eqb r v = Some w ->
    In w (domain_of (snd (revise cw x y d)) v).
Proof.
  intros Hwf Hsol Hx Hy Hne Hd v w Hv.
  destruct (revise cw x y d) as [res d'] eqn:E. simpl.
  destruct (revise_cases cw x y d)
    as [[_ E']|[[e E']|[E'|(oi & oj & dx & rm & Ho & Hdx & Hs & E')]]];
    rewrite E' in E; injection E as <- <-; auto.
  destruct (Var.eqb v x) eqn:Evx.
  - apply Var_eqb_eq in Evx. subst v.
    apply (revise_removes cw x y d _ None oi oj E' Ho w).
    split; [auto|].
    destruct Hsol as ((Hnd & Hkeys) & _ & _ & Hagree).
    apply Hkeys in Hy. apply (dict_get_keys Var.eqb Var_eqb_eq) in Hy.
    destruct Hy as [wy Hwy]. exists wy. split; [auto|].
    eapply Hagree; eauto.
  - rewrite domain_of_set, Evx. auto.
Qed.

Lemma propagated_keeps_solution (cw : Crossword) (fuel : nat)
    (r : assignment) (v : Var.t) (w : string) :
  wf_crossword cw ->
  valid_solution cw r ->
  (forall w', In w' (values r) -> In w' (words cw)) ->
  dict_get Var.eqb r v = Some w ->
  In w (domain_of (propagated cw fuel) v).
Proof.
  intros Hwf Hsol Hwords. revert v w.
  unfold propagated, ac3.
  apply (ac3_loop_invariant_queue cw
           (fun d => forall v w, dict_get Var.eqb r v = Some w -> In w (domain_of d v))).
  - intros x y d Hin Hd. apply initial_arcs_In in Hin.
    destruct Hin as (Hx & Hy & Hne & _).
    apply revise_keeps_solution; auto.
  - intros v w Hv. apply enforce_node_consistency_domain.
    destruct Hsol as ((Hnd & Hkeys) & _ & Hfit & _).
    split; [|apply Hfit; exact Hv].
    unfold domain_of. rewrite init_domains_lookup.
    assert (Hin : In v (variables cw)).
    { apply Hkeys. apply (dict_get_keys Var.eqb Var_eqb_eq). eauto. }
    apply (mem_In Var.eqb Var_eqb_eq) in Hin. rewrite Hin.
    apply Hwords. change w with (snd (v, w)). apply in_map.
    apply (dict_get_In Var.eqb Var_eqb_eq). exact Hv.
Qed.

(** X17.  Node consistency followed by [ac3] removes no word of a solution:
    if a valid solution takes its words from the word list, each of its
    words is still in the domain of its slot when [solve] calls
    [backtrack]. *)
Theorem propagation_keeps_solutions (cw : Crossword) (fuel : nat)
    (r : assignment) (v : Var.t) (w : string) :
  wf_crossword cw ->
  valid_solution cw r ->
  (forall w', In w' (values r) -> In w' (words cw)) ->
  dict_get Var.eqb r v = Some w ->
  In w (domain_of (propagated cw fuel) v).
Proof.
  intros Hwf Hsol Hwords Hv.
  apply (propagated_keeps_solution cw fuel r v w); assumption.
Qed.


Lemma cat_car_valid :
  valid_solution Examples.cat_car_art
    [(Examples.across3, "cat"%string); (Examples.down3, "car"%string)].
Proof.
  apply accepted_valid.
  - apply plus_wf. distinct.
  - distinct.
  - vm_compute. reflexivity.
  - vm_compute. reflexivity.
Qed.

Lemma propagation_keeps_solutions_witness :
  In "car"%string (domain_of (propagated Examples.cat_car_art 2) Examples.down3).
Proof.
  apply (propagation_keeps_solutions Examples.cat_car_art 2
           [(Examples.across3, "cat"%string); (Examples.down3, "car"%string)]
           Examples.down3 "car"%string).
  - apply plus_wf. distinct.
  - apply cat_car_valid.
  - simpl. intros w' [<-|[<-|[]]]; simpl; auto.
  - vm_compute. reflexivity.
Defined.

Lemma solve_None_complete (cw : Crossword) (fuel : nat) (r : assignment) :
  wf_crossword cw ->
  fst (solve cw fuel (init_state cw)) = Ok None ->
  ~ (valid_solution cw r /\ forall w, In w (values r) -> In w (words cw)).
Proof.
  intros Hwf H [Hsol Hwords]. rewrite solve_unfold in H.
  destruct (fst (ac3 cw None fuel _)) as [b|e|]; try discriminate.
  set (s := mkState (propagated cw fuel) [[]] 0) in H.
  pose proof (backtrack_refines cw fuel 0 s) as Href.
  destruct (backtrack cw fuel 0 s) as [res s']. simpl in H, Href. subst res.
  simpl in Href. symmetry in Href. specialize (Href ltac:(lia)).
  apply (backtrack_fun_complete cw _ fuel [] (NoDup_nil _) Href r).
  - destruct Hsol as ((Hnd & Hkeys) & Hrest).
    split; [exact Hnd|]. split; [exact Hkeys|]. split.
    + intros v w Hv.
      apply (propagated_keeps_solution cw fuel r v w Hwf); auto.
      exact (conj (conj Hnd Hkeys) Hrest).
    + apply valid_solution_consistent; auto.
      exact (conj (conj Hnd Hkeys) Hrest).
  - intros v w Hv. discriminate.
Qed.

(** X18.  [solve()] is complete: on a well-formed puzzle, when it returns
    [None] there is no valid solution whose words come from the word
    list. *)
Theorem solve_None_no_solution (cw : Crossword) (fuel : nat) (r : assignment) :
  wf_crossword cw ->
  fst (solve cw fuel (init_state cw)) = Ok None ->
  ~ (valid_solution cw r /\ forall w, In w (values r) -> In w (words cw)).
Proof.
  intros Hwf H Hsol.
  apply (solve_None_complete cw fuel r Hwf H). exact Hsol.
Qed.

Lemma solve_None_no_solution_witness :
  ~ (valid_solution (Examples.plus ["cat"; "door"]%string)
       [(Examples.across3, "cat"%string); (Examples.down3, "cat"%string)]
     /\ forall w, In w (values [(Examples.across3, "cat"%string);
                                (Examples.down3, "cat"%string)]) ->
                  In w (words (Examples.plus ["cat"; "door"]%string))).
Proof.
  apply (solve_None_no_solution (Examples.plus ["cat"; "door"]%string) 3).
  - apply plus_wf. distinct.
  - vm_compute. reflexivity.
Defined.

(** ** [solve] returns a result *)

Section Total.

Variable cw : Crossword.
Variable d : domains.

Hypothesis Hwf : wf_crossword cw.
Hypothesis Hkeys : keys d = variables cw.
Hypothesis Hnode : node_consistent d.
Hypothesis Hsets : forall v, NoDup (domain_of d v).
Hypothesis Hpos : forall v, In v (variables cw) -> 0 < Var.length v.

Lemma from_domains_complete (a : assignment) :
  from_domains cw d a -> unassigned cw a = [] -> assignment_complete cw a = true.
Proof.
  intros (Hnd & Hincl & Hdom) Hun. apply assignment_complete_true. split.
  - intros v. split; [apply Hincl|]. intros Hv.
    destruct (in_dec (fun x y => match Var.eqb x y as b
                                       return Var.eqb x y = b -> {x = y} + {x <> y} with
                                 | true => fun E => left (proj1 (Var_eqb_eq x y) E)
                                 | false => fun E => right (proj1 (Var_eqb_neq x y) E)
                                 end eq_refl) v (keys a)) as [H|H]; auto.
    assert (Hin : In v (unassigned cw a)) by (apply unassigned_In; auto).
    rewrite Hun in Hin. destruct Hin.
  - intros w Hw E. subst w. unfold values in Hw. apply in_map_iff in Hw.
    destruct Hw as ([v w] & Ew & Hin). simpl in Ew. subst w.
    assert (Hv : In v (variables cw)).
    { apply Hincl. change v with (fst (v, ""%string)). apply in_map. exact Hin. }
    apply (In_dict_get Var.eqb Var_eqb_eq a v _ Hnd) in Hin.
    apply Hdom, Hnode in Hin. simpl in Hin. specialize (Hpos v Hv). lia.
Qed.

Lemma backtrack_values_fun_returns
    (rec : assignment -> outcome (option assignment)) (a : assignment)
    (var : Var.t) :
  from_domains cw d a -> In var (variables cw) ->
  (forall value, In value (domain_of d var) ->
     exists res, rec (dict_set Var.eqb a var value) = Ok res) ->
  forall vals, incl vals (domain_of d var) ->
    exists res, backtrack_values_fun cw rec a var vals = Ok res.
Proof.
  intros Ha Hvar Hrec. induction vals as [|value rest IH]; intros Hincl; simpl;
    [eauto|].
  assert (Hvalue : In value (domain_of d var)) by (apply Hincl; simpl; auto).
  assert (Hrest : incl rest (domain_of d var))
    by (intros x Hx; apply Hincl; simpl; auto).
  pose proof (from_domains_set cw d a var value Ha Hvar Hvalue) as Hnew.
  destruct (consistent_ok cw (dict_set Var.eqb a var value) Hwf) as [b ->].
  - apply (from_domains_lengths cw d Hnode). exact Hnew.
  - destruct Hnew as (_ & H & _). exact H.
  - simpl. destruct b; auto.
    destruct (Hrec value Hvalue) as [[r|] ->]; simpl; eauto.
Qed.

Lemma backtrack_fun_returns (fuel : nat) :
  forall a, from_domains cw d a ->
    List.length (unassigned cw a) < fuel ->
    exists res, backtrack_fun cw d fuel a = Ok res.
Proof.
  induction fuel as [|fuel IH]; intros a Ha Hfuel; [lia|]. simpl.
  destruct (assignment_complete cw a) eqn:Hc; [eauto|].
  destruct (select_unassigned_variable_ok cw d a Hkeys) as [var Hvar].
  { intros E. rewrite (from_domains_complete a Ha E) in Hc. discriminate. }
  rewrite Hvar. simpl.
  apply select_unassigned_variable_sound in Hvar.
  pose proof Hvar as Hvar'. apply unassigned_In in Hvar'. destruct Hvar' as [Hin _].
  rewrite (order_domain_values_eq cw d a var Hwf Hkeys Hnode Hin (Hsets var)).
  simpl. apply backtrack_values_fun_returns; auto.
  - intros value Hvalue. apply IH.
    + apply from_domains_set; auto.
    + pose proof (unassigned_decreases cw a var value Hvar). lia.
  - intros w Hw. eapply Permutation_in; [apply sorted_by_count_perm | exact Hw].
Qed.

End Total.

Lemma solve_total (cw : Crossword) (fuel : nat) :
  wf_crossword cw ->
  (forall v, In v (variables cw) -> 0 < Var.length v) ->
  List.length (initial_arcs cw) <= fuel ->
  List.length (variables cw) < fuel ->
  exists res s', solve cw fuel (init_state cw) = (Ok res, s').
Proof.
  intros Hwf Hpos Harcs Hvars.
  rewrite solve_unfold, (propagation_ok cw fuel Hwf Harcs).
  set (s := mkState (propagated cw fuel) [[]] 0).
  pose proof (backtrack_refines cw fuel 0 s) as Href.
  destruct (backtrack_fun_returns cw (propagated cw fuel) Hwf
              (propagated_keys cw fuel Hwf) (propagated_node_consistent cw fuel)
              (propagated_NoDup cw fuel Hwf) Hpos fuel []) as [res Hres].
  - apply from_domains_nil.
  - pose proof (unassigned_length cw []). lia.
  - destruct (backtrack cw fuel 0 s) as [res' s']. simpl in Href.
    specialize (Href ltac:(lia)). change (deref s 0) with (@nil (Var.t * string)) in Href.
    rewrite Hres in Href. destruct res' as [x|e|]; simpl in Href; try discriminate.
    eauto.
Qed.

(** X19.  On a well-formed puzzle whose slots have positive lengths, with
    one unit of fuel per arc and per slot and one more, [solve()] raises
    nothing: it returns an assignment or [None]. *)
Theorem solve_returns (cw : Crossword) (fuel : nat) :
  wf_crossword cw ->
  (forall v, In v (variables cw) -> 0 < Var.length v) ->
  List.length (initial_arcs cw) <= fuel ->
  List.length (variables cw) < fuel ->
  exists res s', solve cw fuel (init_state cw) = (Ok res, s').
Proof.
  intros Hwf Hpos Harcs Hvars.
  destruct (solve_total cw fuel Hwf Hpos Harcs Hvars) as (res & s' & E).
  exists res, s'. exact E.
Qed.

Lemma solve_returns_witness :
  exists res s',
    solve Examples.cat_car_art 3 (init_state Examples.cat_car_art) = (Ok res, s').
Proof.
  apply (solve_returns Examples.cat_car_art 3).
  - apply plus_wf. distinct.
  - simpl. intros v [<-|[<-|[]]]; simpl; lia.
  - vm_compute. lia.
  - simpl. lia.
Defined.

(** X20.  On such a puzzle and with such fuel [solve()] finds a solution
    whenever one exists: if some valid solution takes its words from the
    word list, [solve()] returns an assignment. *)
Theorem solve_finds_a_solution (cw : Crossword) (fuel : nat) (r : assignment) :
  wf_crossword cw ->
  (forall v, In v (variables cw) -> 0 < Var.length v) ->
  List.length (initial_arcs cw) <= fuel ->
  List.length (variables cw) < fuel ->
  valid_solution cw r ->
  (forall w, In w (values r) -> In w (words cw)) ->
  exists found s', solve cw fuel (init_state cw) = (Ok (Some found), s').
Proof.
  intros Hwf Hpos Harcs Hvars Hsol Hwords.
  destruct (solve_total cw fuel Hwf Hpos Harcs Hvars) as (res & s' & E).
  destruct res as [found|]; [eauto|].
  exfalso. apply (solve_None_complete cw fuel r Hwf).
  - rewrite E. reflexivity.
  - auto.
Qed.

Lemma solve_finds_a_solution_witness :
  exists found s',
    solve Examples.cat_car_art 3 (init_state Examples.cat_car_art)
    = (Ok (Some found), s').
Proof.
  apply (solve_finds_a_solution Examples.cat_car_art 3
           [(Examples.across3, "cat"%string); (Examples.down3, "car"%string)]).
  - apply plus_wf. distinct.
  - simpl. intros v [<-|[<-|[]]]; simpl; lia.
  - vm_compute. lia.
  - simpl. lia.
  - apply cat_car_valid.
  - simpl. intros w [<-|[<-|[]]]; simpl; auto.
Defined.

(** ** [letter_grid] *)

Lemma list_set_Some {A : Type} (l : list A) (k : nat) (x : A) :
  k < List.length l ->
  exists l', list_set l k x = Some l' /\ List.length l' = List.length l.
Proof.
  revert k. induction l as [|y l IH]; intros k Hk; simpl in *; [lia|].
  destruct k as [|k]; [eexists; split; reflexivity|].
  destruct (IH k) as (l' & -> & Hlen); [lia|].
  eexists; split; [reflexivity|]. simpl. congruence.
Qed.

Lemma list_set_None {A : Type} (l : list A) (k : nat) (x : A) :
  List.length l <= k -> list_set l k x = None.
Proof.
  revert k. induction l as [|y l IH]; intros k Hk; simpl in *; [reflexivity|].
  destruct k as [|k]; [lia|]. rewrite IH by lia. reflexivity.
Qed.

Lemma list_set_nth_error {A : Type} (l l' : list A) (k : nat) (x : A) :
  list_set l k x = Some l' ->
  forall k', nth_error l' k' = if k' =? k then Some x else nth_error l k'.
Proof.
  revert k l'. induction l as [|y l IH]; intros k l' H k'; simpl in H;
    [discriminate|].
  destruct k as [|k].
  - injection H as <-. destruct k'; reflexivity.
  - destruct (list_set l k x) as [l''|] eqn:E; [|discriminate].
    injection H as <-. destruct k' as [|k']; simpl; [reflexivity|].
    apply (IH k l'' E).
Qed.

Lemma list_set_Forall {A : Type} (P : A -> Prop) (l l' : list A) (k : nat) (x : A) :
  list_set l k x = Some l' -> Forall P l -> P x -> Forall P l'.
Proof.
  revert k l'. induction l as [|y l IH]; intros k l' H Hl Hx; simpl in H;
    [discriminate|].
  inversion Hl; subst. destruct k as [|k].
  - injection H as <-. constructor; assumption.
  - destruct (list_set l k x) as [l''|] eqn:E; [|discriminate].
    injection H as <-. constructor; eauto.
Qed.

Lemma list_set_length {A : Type} (l l' : list A) (k : nat) (x : A) :
  list_set l k x = Some l' -> List.length l' = List.length l.
Proof.
  intros H. destruct (Nat.lt_ge_cases k (List.length l)) as [Hk|Hk].
  - destruct (list_set_Some l k x Hk) as (l'' & E & Hlen). congruence.
  - rewrite list_set_None in H by exact Hk. discriminate.
Qed.

Lemma grid_shape_row (width height : nat) (letters : grid) (i : nat)
    (row : list (option ascii)) :
  grid_shape width height letters -> nth_error letters i = Some row ->
  i < height /\ List.length row = width.
Proof.
  intros [Hh Hw] H. split.
  - rewrite <- Hh. apply nth_error_Some. congruence.
  - rewrite Forall_forall in Hw. apply Hw. eapply nth_error_In; eauto.
Qed.

Lemma set_cell_inside (width height : nat) (letters : grid) (i j : nat) (c : ascii) :
  grid_shape width height letters -> i < height -> j < width ->
  exists letters', set_cell letters i j c = Ok letters'.
Proof.
  intros Hs Hi Hj. unfold set_cell.
  destruct (nth_error letters i) as [row|] eqn:E.
  - destruct (grid_shape_row _ _ _ _ _ Hs E) as [_ Hrow].
    destruct (list_set_Some row j (Some c)) as (row' & -> & _); [lia|].
    destruct (list_set_Some letters i row') as (letters' & -> & _);
      [destruct Hs; lia | eauto].
  - apply nth_error_None in E. destruct Hs. lia.
Qed.

Lemma set_cell_outside (width height : nat) (letters : grid) (i j : nat) (c : ascii) :
  grid_shape width height letters -> ~ (i < height /\ j < width) ->
  set_cell letters i j c = Raise IndexError.
Proof.
  intros Hs Hout. unfold set_cell.
  destruct (nth_error letters i) as [row|] eqn:E; [|reflexivity].
  destruct (grid_shape_row _ _ _ _ _ Hs E) as [Hi Hrow].
  rewrite list_set_None; [reflexivity | lia].
Qed.

Lemma set_cell_spec (width height : nat) (letters letters' : grid) (i j : nat)
    (c : ascii) :
  set_cell letters i j c = Ok letters' ->
  grid_shape width height letters ->
  grid_shape width height letters'
  /\ forall ij, cell letters' ij
                = if (fst ij =? i) && (snd ij =? j) then Some (Some c)
                  else cell letters ij.
Proof.
  unfold set_cell. intros H Hs.
  destruct (nth_error letters i) as [row|] eqn:E; [|discriminate].
  destruct (list_set row j (Some c)) as [row'|] eqn:Er; [|discriminate].
  destruct (list_set letters i row') as [g|] eqn:Eg; [|discriminate].
  injection H as <-.
  destruct (grid_shape_row _ _ _ _ _ Hs E) as [Hi Hrow]. split.
  - destruct Hs as [Hh Hw]. split.
    + rewrite (list_set_length _ _ _ _ Eg). exact Hh.
    + apply (list_set_Forall _ _ _ _ _ Eg Hw).
      rewrite (list_set_length _ _ _ _ Er). exact Hrow.
  - intros [i' j']. unfold cell. simpl.
    rewrite (list_set_nth_error _ _ _ _ Eg i').
    destruct (i' =? i) eqn:Ei; simpl.
    + apply Nat.eqb_eq in Ei. subst i'.
      rewrite (list_set_nth_error _ _ _ _ Er j'), E.
      destruct (j' =? j); reflexivity.
    + reflexivity.
Qed.

Lemma cell_of_injective (variable : Var.t) (k k' : nat) :
  cell_of variable k = cell_of variable k' -> k = k'.
Proof.
  unfold cell_of. destruct (Var.direction variable); simpl; intros [= H]; lia.
Qed.

Lemma cell_eqb (ij : nat * nat) (i j : nat) :
  (fst ij =? i) && (snd ij =? j) = true <-> ij = (i, j).
Proof.
  destruct ij as [i' j']. simpl. rewrite andb_true_iff, !Nat.eqb_eq.
  split; [intros [-> ->]; reflexivity | intros [= -> ->]; auto].
Qed.

(** What one word writes: a cell is as before and outside the word, or it
    holds the letter of the word that lies on it. *)
Lemma letter_word_spec (width height : nat) (variable : Var.t) (word : string) :
  forall k letters letters',
    letter_word variable word k letters = Ok letters' ->
    grid_shape width height letters ->
    grid_shape width height letters'
    /\ forall ij,
         (cell letters' ij = cell letters ij
          /\ forall m, m < String.length word -> cell_of variable (k + m) <> ij)
         \/ (exists m c, String.get m word = Some c
                         /\ cell_of variable (k + m) = ij
                         /\ cell letters' ij = Some (Some c)).
Proof.
  induction word as [|c rest IH]; intros k letters letters' H Hs; simpl in H.
  - injection H as <-. split; [exact Hs|]. intros ij. left.
    split; [reflexivity|]. simpl. intros m Hm. lia.
  - destruct (set_cell letters _ _ c) as [g1|e|] eqn:E1; simpl in H;
      try discriminate.
    destruct (set_cell_spec width height _ _ _ _ _ E1 Hs) as [Hs1 Hc1].
    destruct (IH (S k) g1 letters' H Hs1) as [Hs' Hc']. split; [exact Hs'|].
    intros ij. destruct (Hc' ij) as [[Heq Hout]|(m & c' & Hm & Hcell & Hval)].
    + rewrite Hc1 in Heq.
      destruct ((fst ij =? _) && (snd ij =? _)) eqn:Eij.
      * apply cell_eqb in Eij. right. exists 0, c. simpl.
        split; [reflexivity|]. split; [|exact Heq].
        rewrite Nat.add_0_r. unfold cell_of. symmetry. exact Eij.
      * left. split; [exact Heq|]. intros m Hm. simpl in Hm.
        destruct m as [|m].
        -- rewrite Nat.add_0_r. intros Hcell.
           assert (Ht : (fst ij =? fst (cell_of variable k))
                        && (snd ij =? snd (cell_of variable k)) = true).
           { apply cell_eqb. rewrite <- Hcell. destruct (cell_of variable k).
             reflexivity. }
           unfold cell_of in Ht. simpl in Ht. congruence.
        -- rewrite Nat.add_succ_r. apply (Hout m). lia.
    + right. exists (S m), c'. simpl. rewrite Nat.add_succ_r. auto.
Qed.

Lemma letter_items_spec (width height : nat) (a : assignment) :
  forall letters letters',
    letter_items a letters = Ok letters' ->
    grid_shape width height letters ->
    grid_shape width height letters'
    /\ forall ij,
         (cell letters' ij = cell letters ij
          /\ forall v w m, In (v, w) a -> m < String.length w -> cell_of v m <> ij)
         \/ (exists v w m c, In (v, w) a /\ String.get m w = Some c
                             /\ cell_of v m = ij
                             /\ cell letters' ij = Some (Some c)).
Proof.
  induction a as [|[v w] rest IH]; intros letters letters' H Hs; simpl in H.
  - injection H as <-. split; [exact Hs|]. intros ij. left.
    split; [reflexivity | intros v w m []].
  - destruct (letter_word v w 0 letters) as [g1|e|] eqn:E1; simpl in H;
      try discriminate.
    destruct (letter_word_spec width height v w 0 _ _ E1 Hs) as [Hs1 Hc1].
    destruct (IH g1 letters' H Hs1) as [Hs' Hc']. split; [exact Hs'|].
    intros ij.
    destruct (Hc' ij) as [[Heq Hout]|(v' & w' & m & c & Hin & Hm & Hcell & Hval)].
    + destruct (Hc1 ij) as [[Heq1 Hout1]|(m & c & Hm & Hcell & Hval)].
      * left. split; [congruence|].
        intros v' w' m [[= <- <-]|Hin] Hm; [apply (Hout1 m Hm) | eauto].
      * right. exists v, w, m, c. simpl in Hcell. simpl. repeat split; auto.
        congruence.
    + right. exists v', w', m, c. simpl. auto.
Qed.

Lemma empty_grid_shape (width height : nat) :
  grid_shape width height (repeat (repeat None width) height).
Proof.
  split; [apply repeat_length|].
  apply Forall_forall. intros row Hrow. apply repeat_spec in Hrow. subst.
  apply repeat_length.
Qed.

Lemma empty_grid_cell (width height : nat) (ij : nat * nat) (x : option ascii) :
  cell (repeat (repeat None width) height) ij = Some x -> x = None.
Proof.
  unfold cell. destruct (nth_error _ (fst ij)) as [row|] eqn:E; [|discriminate].
  apply nth_error_In, repeat_spec in E. subst row.
  intros H. apply nth_error_In, repeat_spec in H. exact H.
Qed.

(** X21.  The array that [letter_grid] returns has [height] rows of [width]
    cells. *)
Theorem letter_grid_shape (width height : nat) (a : assignment) (letters : grid) :
  letter_grid width height a = Ok letters ->
  List.length letters = height
  /\ Forall (fun row => List.length row = width) letters.
Proof.
  intros H.
  destruct (letter_items_spec width height a _ _ H (empty_grid_shape width height))
    as [Hs _].
  exact Hs.
Qed.

(** X22.  When any two bindings of the assignment hold the same letter at
    every cell they share, the array that [letter_grid] returns shows every
    word: the cell of the [m]-th letter of a bound slot holds the [m]-th
    character of its word. *)
Theorem letter_grid_shows_words (width height : nat) (a : assignment)
    (letters : grid) (v : Var.t) (w : string) (m : nat) (c : ascii) :
  letters_compatible a ->
  letter_grid width height a = Ok letters ->
  In (v, w) a -> String.get m w = Some c ->
  cell letters (cell_of v m) = Some (Some c).
Proof.
  intros Hcompat H Hin Hm.
  destruct (letter_items_spec width height a _ _ H (empty_grid_shape width height))
    as [_ Hc].
  destruct (Hc (cell_of v m))
    as [[_ Hout]|(v' & w' & m' & c' & Hin' & Hm' & Hcell & Hval)].
  - exfalso. apply (Hout v w m Hin); [|reflexivity].
    apply get_Some. eauto.
  - rewrite Hval. do 2 f_equal.
    apply (Hcompat v' w' v w m' m c' c); auto.
Qed.

(** X23.  A cell that [letter_grid] returns holds [None] unless a letter of
    some bound word lies on it. *)
Theorem letter_grid_blank_cells (width height : nat) (a : assignment)
    (letters : grid) (ij : nat * nat) (x : option ascii) :
  letter_grid width height a = Ok letters ->
  (forall v w m, In (v, w) a -> m < String.length w -> cell_of v m <> ij) ->
  cell letters ij = Some x ->
  x = None.
Proof.
  intros H Hout Hx.
  destruct (letter_items_spec width height a _ _ H (empty_grid_shape width height))
    as [_ Hc].
  destruct (Hc ij) as [[Heq _]|(v & w & m & c & Hin & Hm & Hcell & _)].
  - rewrite Heq in Hx. eapply empty_grid_cell; eauto.
  - exfalso. apply (Hout v w m Hin); [|exact Hcell].
    apply get_Some. eauto.
Qed.

Lemma letter_word_cons (variable : Var.t) (c : ascii) (rest : string) (k : nat)
    (letters : grid) :
  letter_word variable (String c rest) k letters
  = obind (set_cell letters (fst (cell_of variable k)) (snd (cell_of variable k)) c)
          (fun letters' => letter_word variable rest (S k) letters').
Proof. reflexivity. Qed.

Lemma letter_word_cases (width height : nat) (variable : Var.t) (word : string) :
  forall k letters,
    grid_shape width height letters ->
    (exists letters', letter_word variable word k letters = Ok letters'
       /\ grid_shape width height letters'
       /\ forall m, m < String.length word ->
            fst (cell_of variable (k + m)) < height
            /\ snd (cell_of variable (k + m)) < width)
    \/ (letter_word variable word k letters = Raise IndexError
        /\ exists m, m < String.length word
             /\ ~ (fst (cell_of variable (k + m)) < height
                   /\ snd (cell_of variable (k + m)) < width)).
Proof.
  induction word as [|c rest IH]; intros k letters Hs.
  - left. exists letters. split; [reflexivity|]. split; [exact Hs|].
    simpl. intros m Hm. lia.
  - rewrite letter_word_cons. simpl String.length.
    destruct (lt_dec (fst (cell_of variable k)) height) as [Hi|Hi];
      [destruct (lt_dec (snd (cell_of variable k)) width) as [Hj|Hj]|].
    + destruct (set_cell_inside width height letters _ _ c Hs Hi Hj) as [g1 E1].
      rewrite E1. simpl.
      destruct (set_cell_spec width height _ _ _ _ _ E1 Hs) as [Hs1 _].
      destruct (IH (S k) g1 Hs1) as [(g' & E & Hs' & Hin)|(E & m & Hm & Hout)].
      * left. exists g'. split; [exact E|]. split; [exact Hs'|].
        intros [|m] Hm; [rewrite Nat.add_0_r; auto|].
        rewrite Nat.add_succ_r. apply Hin. lia.
      * right. split; [exact E|]. exists (S m). split; [lia|].
        rewrite Nat.add_succ_r. exact Hout.
    + right. rewrite (set_cell_outside width height) by (auto; tauto).
      split; [reflexivity|]. exists 0. split; [lia|].
      rewrite Nat.add_0_r. tauto.
    + right. rewrite (set_cell_outside width height) by (auto; tauto).
      split; [reflexivity|]. exists 0. split; [lia|].
      rewrite Nat.add_0_r. tauto.
Qed.

Lemma letter_items_cases (width height : nat) (a : assignment) :
  forall letters,
    grid_shape width height letters ->
    (exists letters', letter_items a letters = Ok letters'
       /\ forall v w, In (v, w) a -> fits width height v w)
    \/ (letter_items a letters = Raise IndexError
        /\ exists v w, In (v, w) a /\ ~ fits width height v w).
Proof.
  induction a as [|[v w] rest IH]; intros letters Hs; simpl.
  - left. exists letters. split; [reflexivity | intros v w []].
  - destruct (letter_word_cases width height v w 0 letters Hs)
      as [(g1 & E1 & Hs1 & Hin)|(E1 & m & Hm & Hout)]; rewrite E1; simpl.
    + destruct (IH g1 Hs1) as [(g' & E & Hfits)|(E & v' & w' & Hin' & Hout)].
      * left. exists g'. split; [exact E|].
        intros v' w' [[= <- <-]|H]; [exact Hin | auto].
      * right. split; [exact E|]. exists v', w'. auto.
    + right. split; [reflexivity|]. exists v, w. split; [auto|].
      intros Hfits. apply Hout. apply (Hfits m Hm).
Qed.

(** X24.  [letter_grid] returns an array when every word of the assignment
    lies inside the grid, and raises [IndexError] when some word sticks
    out of it. *)
Theorem letter_grid_IndexError (width height : nat) (a : assignment) :
  ((exists letters, letter_grid width height a = Ok letters)
   /\ forall v w, In (v, w) a -> fits width height v w)
  \/ (letter_grid width height a = Raise IndexError
      /\ exists v w, In (v, w) a /\ ~ fits width height v w).
Proof.
  destruct (letter_items_cases width height a _ (empty_grid_shape width height))
    as [(g & E & H)|[E H]].
  - left. split; [exists g; exact E | exact H].
  - right. split; assumption.
Qed.

Lemma letter_grid_shape_witness :
  List.length [[None; Some "c"%char; None];
               [Some "c"%char; Some "a"%char; Some "t"%char];
               [None; Some "r"%char; None]] = 3
  /\ Forall (fun row : list (option ascii) => List.length row = 3)
            [[None; Some "c"%char; None];
             [Some "c"%char; Some "a"%char; Some "t"%char];
             [None; Some "r"%char; None]].
Proof.
  apply (letter_grid_shape 3 3
           [(Examples.across3, "cat"%string); (Examples.down3, "car"%string)]).
  vm_compute. reflexivity.
Defined.

Lemma cat_car_compatible :
  letters_compatible
    [(Examples.across3, "cat"%string); (Examples.down3, "car"%string)].
Proof.
  intros v w n w' i j c c' Hv Hn Hcell Hi Hj.
  simpl in Hv, Hn.
  destruct Hv as [[= <- <-]|[[= <- <-]|[]]];
    destruct Hn as [[= <- <-]|[[= <- <-]|[]]];
    pose proof (f_equal fst Hcell) as H1; pose proof (f_equal snd Hcell) as H2;
    unfold cell_of in H1, H2; simpl in H1, H2;
    try (assert (i = j) by lia; subst; congruence);
    try (assert (i = 1) by lia; assert (j = 1) by lia; subst;
         simpl in Hi, Hj; congruence).
Qed.

Lemma letter_grid_shows_words_witness :
  cell [[None; Some "c"%char; None];
        [Some "c"%char; Some "a"%char; Some "t"%char];
        [None; Some "r"%char; None]]
       (cell_of Examples.down3 2)
  = Some (Some "r"%char).
Proof.
  apply (letter_grid_shows_words 3 3
           [(Examples.across3, "cat"%string); (Examples.down3, "car"%string)]
           _ Examples.down3 "car"%string 2 "r"%char).
  - apply cat_car_compatible.
  - vm_compute. reflexivity.
  - simpl. auto.
  - reflexivity.
Defined.

Lemma letter_grid_blank_cells_witness : @None ascii = None.
Proof.
  apply (letter_grid_blank_cells 3 3
           [(Examples.across3, "cat"%string); (Examples.down3, "car"%string)]
           [[None; Some "c"%char; None];
            [Some "c"%char; Some "a"%char; Some "t"%char];
            [None; Some "r"%char; None]] (0, 0) None).
  - vm_compute. reflexivity.
  - intros v w m [[= <- <-]|[[= <- <-]|[]]] Hm Hcell;
      pose proof (f_equal fst Hcell) as H1; pose proof (f_equal snd Hcell) as H2;
      unfold cell_of in H1, H2; simpl in H1, H2; lia.
  - reflexivity.
Defined.

(** ** Termination and the domains after [solve] *)

(** X25.  [solve()] terminates: [ac3] pops every arc of its queue once and
    pushes none back, and the recursion of [backtrack] is at most one deeper
    than the number of slots; with that much fuel the model of [solve()]
    returns or raises. *)
Theorem solve_terminates (cw : Crossword) (fuel : nat) :
  List.length (initial_arcs cw) <= fuel ->
  List.length (variables cw) < fuel ->
  exists res s', solve cw fuel (init_state cw) = (res, s') /\ res <> OutOfFuel.
Proof.
  intros Harcs Hvars.
  pose proof (solve_enough_fuel cw fuel Harcs Hvars) as H.
  destruct (solve cw fuel (init_state cw)) as [res s'].
  exists res, s'. split; [reflexivity | exact H].
Qed.

Lemma solve_terminates_witness :
  exists res s',
    solve Examples.tied 5 (init_state Examples.tied) = (res, s')
    /\ res <> OutOfFuel.
Proof.
  apply (solve_terminates Examples.tied 5).
  - vm_compute. lia.
  - simpl. lia.
Defined.

(** X26.  The search changes no domain: whatever [solve()] returns or
    raises, [self.domains] afterwards is what node consistency and [ac3]
    left. *)
Theorem solve_leaves_propagated_domains (cw : Crossword) (fuel : nat) :
  self_domains (snd (solve cw fuel (init_state cw))) = propagated cw fuel.
Proof.
  rewrite solve_unfold.
  destruct (fst (ac3 cw None fuel _)) as [b|e|]; try reflexivity.
  pose proof (backtrack_extends cw fuel 0 (mkState (propagated cw fuel) [[]] 0))
    as (H & _ & _).
  exact H.
Qed.
